(** * Othello (1992): the effect calculator and the minimax search

    A shallow embedding of [othello.c]: the heuristic macros, the global
    [board], the two player records, [compute_effect], the undo block of
    [best_move], the move-record pool ([enqueue]/[dequeue]) and
    [best_move] itself, followed by the properties of the design
    document that are about them.

    Conventions of the embedding.
    - [unsigned int] values are integers reduced modulo [2^32] ([u32]);
      [int] values ([effect], [max_effect], ...) are plain integers.
    - [char board[8][9]] is a list of rows; a [char *] into the board
      (the entries of [changes] and [line_change]) is the pair of indices
      of the cell it points to.
    - [assert] is kept: a failing assertion aborts the program, which is
      the outcome [AssertFail] (or [None] for [compute_effect]).
    - A chain of move records is the list of its coordinates, [NULL] is
      the empty list; the pool [local_heap] is the list of its records.
      The module [Mem] has the records with their pointers, and the
      last part of the file shows that the lists abstract them rightly.
    - Of [main], the turns of the players and the loop over the turns
      of computer players are modelled; input is a list of lines.
    - Output ([printf]) is not modelled. *)

From Stdlib Require Import ZArith Lia Ascii Bool List.
From stdpp Require Import base list gmap.
Import ListNotations.

Local Open Scope Z_scope.

(** ** Constants and the heuristic macros *)

Definition BOARD_SIZE : Z := 8.
Definition NUM_VECTORS : Z := 8.
Definition MAX_CHANGES : Z := 4 * (BOARD_SIZE - 3).
Definition BOARD_AREA : Z := BOARD_SIZE * BOARD_SIZE.
Definition MAX_NUM_MOVES : Z := BOARD_AREA - 4.
Definition INIT_MAX_EFFECT : Z := -9 * BOARD_AREA.

(** Arithmetic of [unsigned int]. *)
Definition u32 (z : Z) : Z := z mod 2 ^ 32.

(** [#define idx_weight(x) ((x==0||x==BOARD_SIZE-1)?BOARD_SIZE:1)] *)
Definition idx_weight (x : Z) : Z :=
  if (x =? 0) || (x =? BOARD_SIZE - 1) then BOARD_SIZE else 1.

(** [#define h_func(r,c) (idx_weight(r)*idx_weight(c))] *)
Definition h_func (r c : Z) : Z := idx_weight r * idx_weight c.

(** ** Data *)

Abbreviation coord := (Z * Z)%type.
Abbreviation board_t := (list (list ascii)).

Inductive player_type_type := PT_COMP | PT_HUMAN.

(** [player_data_type]; the [opponent] pointer is [opponent] below. *)
Record player_data_type := {
  marker : ascii;
  count : Z;
  type : player_type_type;
}.

(** The addresses [&x_data] and [&o_data] of the two records of [main]. *)
Inductive player_ref := X_DATA | O_DATA.

(** [x_data.opponent = &o_data; o_data.opponent = &x_data;] *)
Definition opponent (p : player_ref) : player_ref :=
  match p with X_DATA => O_DATA | O_DATA => X_DATA end.

(** The global [board] and the two player records. *)
Record game := {
  board : board_t;
  x_data : player_data_type;
  o_data : player_data_type;
}.

Definition pdata (g : game) (p : player_ref) : player_data_type :=
  match p with X_DATA => x_data g | O_DATA => o_data g end.

Definition set_count (g : game) (p : player_ref) (n : Z) : game :=
  match p with
  | X_DATA =>
      {| board := board g;
         x_data := {| marker := marker (x_data g); count := n;
                      type := type (x_data g) |};
         o_data := o_data g |}
  | O_DATA =>
      {| board := board g;
         x_data := x_data g;
         o_data := {| marker := marker (o_data g); count := n;
                      type := type (o_data g) |} |}
  end.

Definition set_board (g : game) (b : board_t) : game :=
  {| board := b; x_data := x_data g; o_data := o_data g |}.

(** [board[r][c]] as an rvalue.  The source reads a cell only after
    checking that both indices are below [BOARD_SIZE]. *)
Definition cell (b : board_t) (r c : Z) : ascii :=
  match b !! Z.to_nat r with
  | Some line =>
      match line !! Z.to_nat c with
      | Some x => x
      | None => zero
      end
  | None => zero
  end.

(** [board[r][c] = v] *)
Definition set_cell (b : board_t) (r c : Z) (v : ascii) : board_t :=
  alter (fun line => <[Z.to_nat c := v]> line) (Z.to_nat r) b.

(** [*(ptrs[k]) = v] for [k = 0 .. len-1] *)
Definition set_cells (b : board_t) (ptrs : list coord) (v : ascii) : board_t :=
  foldl (fun b p => set_cell b (fst p) (snd p) v) b ptrs.

(** ** [compute_effect] *)

(** [static vector_type vector[NUM_VECTORS]] *)
Definition vector : list (Z * Z) :=
  [(-1, -1); (-1, 0); (-1, 1); (0, -1); (0, 1); (1, -1); (1, 0); (1, 1)].

(** The inner [for( ; ; )] of [compute_effect].  [slots] is the number
    of free entries of [line_change[BOARD_SIZE-1]], that is
    [BOARD_SIZE - 1 - len]; with no free entry the assertion
    [len < BOARD_SIZE - 1] fails.  The result is [line_heur_total] and
    the first [len] entries of [line_change].  The nested [if] is the
    short-circuit [||]: the board is read only at indices below
    [BOARD_SIZE]. *)
Fixpoint scan_line (slots : nat) (b : board_t) (mk : ascii)
    (drow dcol row2 col2 : Z) (line_heur_total : Z)
    (line_change : list coord) : option (Z * list coord) :=
  let row2 := u32 (row2 + drow) in
  let col2 := u32 (col2 + dcol) in
  if (if BOARD_SIZE <=? row2 then true
      else if BOARD_SIZE <=? col2 then true
      else Ascii.eqb (cell b row2 col2) " "%char)
  then Some (line_heur_total, [])
  else if Ascii.eqb (cell b row2 col2) mk
  then Some (line_heur_total, line_change)
  else
    match slots with
    | O => None
    | S slots' =>
        scan_line slots' b mk drow dcol row2 col2
          (u32 (line_heur_total + h_func row2 col2))
          (line_change ++ [(row2, col2)])
    end.

(** The locals of [compute_effect] that live across the outer loop,
    with the board. *)
Record effect_acc := {
  ea_board : board_t;
  ea_changes : list coord;
  ea_num_changed : Z;
  ea_heur_total : Z;
}.

(** One iteration of [for( i = 0; i < NUM_VECTORS; i++ )]. *)
Definition scan_vector (mk : ascii) (row col : Z) (acc : effect_acc)
    (v : Z * Z) : option effect_acc :=
  let drow := u32 (fst v) in
  let dcol := u32 (snd v) in
  match scan_line (Z.to_nat (BOARD_SIZE - 1)) (ea_board acc) mk
          drow dcol row col 0 [] with
  | None => None
  | Some (line_heur_total, line_change) =>
      let len := Z.of_nat (length line_change) in
      if 0 <? len then
        let b := set_cells (ea_board acc) line_change mk in
        if u32 (ea_num_changed acc + len) <=? MAX_CHANGES then
          Some {| ea_board := b;
                  ea_changes := ea_changes acc ++ line_change;
                  ea_num_changed := u32 (ea_num_changed acc + len);
                  ea_heur_total := u32 (ea_heur_total acc + line_heur_total) |}
        else None
      else Some acc
  end.

Fixpoint scan_vectors (mk : ascii) (row col : Z) (vs : list (Z * Z))
    (acc : effect_acc) : option effect_acc :=
  match vs with
  | [] => Some acc
  | v :: vs' =>
      match scan_vector mk row col acc v with
      | None => None
      | Some acc' => scan_vectors mk row col vs' acc'
      end
  end.

(** What [compute_effect] hands back: its return value, the filled part
    of [changes], and the value stored through [num_changedP]. *)
Record effect_result := {
  heur : Z;
  changes : list coord;
  num_changed : Z;
}.

Definition compute_effect (row col : Z) (player : player_ref) (g : game)
    : option (effect_result * game) :=
  let mk := marker (pdata g player) in
  match scan_vectors mk row col vector
          {| ea_board := board g; ea_changes := [];
             ea_num_changed := 0; ea_heur_total := 0 |} with
  | None => None
  | Some acc =>
      let n := ea_num_changed acc in
      if 0 <? n then
        let g1 := set_board g (set_cell (ea_board acc) row col mk) in
        let g2 := set_count g1 player
                    (u32 (count (pdata g1 player) + u32 (n + 1))) in
        let g3 := set_count g2 (opponent player)
                    (u32 (count (pdata g2 (opponent player)) - n)) in
        Some ({| heur := u32 (ea_heur_total acc + h_func row col);
                 changes := ea_changes acc; num_changed := n |}, g3)
      else
        Some ({| heur := ea_heur_total acc;
                 changes := ea_changes acc; num_changed := n |},
              set_board g (ea_board acc))
  end.

(** The block "Remove marker and undo changes" of [best_move]. *)
Definition undo_effect (i j : Z) (player : player_ref)
    (chg : list coord) (num_changes : Z) (g : game) : game :=
  let g1 := set_board g (set_cell (board g) i j " "%char) in
  let g2 := set_count g1 player
              (u32 (count (pdata g1 player) - u32 (num_changes + 1))) in
  let g3 := set_count g2 (opponent player)
              (u32 (count (pdata g2 (opponent player)) + num_changes)) in
  set_board g3
    (set_cells (board g3) (firstn (Z.to_nat num_changes) chg)
       (marker (pdata g3 (opponent player)))).

(** ** The pool of move records *)

(** [enqueue]: the chain is spliced in front of [local_heap]. *)
Definition enqueue (ptr : list coord) (local_heap : list coord) : list coord :=
  match ptr with
  | [] => local_heap
  | _ => ptr ++ local_heap
  end.

(** [dequeue]: the pool after a record was taken from it (a record comes
    from [malloc] when the pool is empty).  The fields of the record are
    overwritten by the caller. *)
Definition dequeue (local_heap : list coord) : list coord :=
  match local_heap with
  | [] => []
  | _ :: rest => rest
  end.

(** ** [best_move] *)

(** A call either returns, or dies in a failed [assert]; [OutOfFuel]
    is the embedding's own: the recursion of [best_move] is written
    over a bound on its depth, and [best_move_fuel] shows that the
    bound [max_ply - ply] is never exhausted. *)
Inductive outcome (A : Type) :=
  | Done (a : A)
  | AssertFail
  | OutOfFuel.
Arguments Done {A} a.
Arguments AssertFail {A}.
Arguments OutOfFuel {A}.

(** The state the search works on: the game, the pool, and the number
    of calls made to [rand] so far. *)
Record search_state := {
  s_game : game;
  local_heap : list coord;
  rand_calls : nat;
}.

(** What a call of [best_move] produces: its return value, the chain
    stored through [rtn_chain], and the state it leaves. *)
Record search_result := {
  score : Z;
  chain : list coord;
  final : search_state;
}.

(** The locals of [best_move] that live across its two loops, with the
    state; [num_best_moves] is the length of [best_moves]. *)
Record loop_state := {
  ls_state : search_state;
  done : bool;
  max_effect : Z;
  best_moves : list (list coord);
  chain_ptr : list coord;
}.

(** [for( i = 0; i < BOARD_SIZE && !done; i++ )], with [n] the number
    of indices left. *)
Fixpoint for_loop (n : nat) (i : Z)
    (body : Z -> loop_state -> outcome loop_state) (ls : loop_state)
    : outcome loop_state :=
  match n with
  | O => Done ls
  | S n' =>
      if done ls then Done ls
      else
        match body i ls with
        | Done ls' => for_loop n' (i + 1) body ls'
        | AssertFail => AssertFail
        | OutOfFuel => OutOfFuel
        end
  end.

(** The value of a trial: [effect] after the recursive call, the chain
    in [chain_ptr], and the state. *)
Record trial := {
  t_effect : Z;
  t_chain : list coord;
  t_state : search_state;
}.

Section Search.

(** [rand n] is the value of the [n]-th call of [rand()]. *)
Variable rand : nat -> Z.

(** The recursive call [best_move( &chain_ptr, ... )]. *)
Variable recurse :
  player_ref -> Z -> Z -> Z -> Z -> search_state -> outcome search_result.

Variables (player : player_ref) (ply max_ply : Z)
          (prev_move_val best_sibling : Z).

(** From "if( ply < max_ply && ..." to the assertion: the opponent's
    best reply is subtracted from [effect]. *)
Definition reply (eff : effect_result) (g1 : game) (ls : loop_state)
    : outcome trial :=
  let st1 := {| s_game := g1;
                local_heap := local_heap (ls_state ls);
                rand_calls := rand_calls (ls_state ls) |} in
  if (ply <? max_ply)
     && (u32 (count (pdata g1 player) + count (pdata g1 (opponent player)))
         <? BOARD_AREA)
  then
    match recurse (opponent player) (u32 (ply + 1)) max_ply
            (heur eff) (max_effect ls) st1 with
    | Done res =>
        let effect := heur eff - score res in
        if INIT_MAX_EFFECT <? effect
        then Done {| t_effect := effect; t_chain := chain res;
                     t_state := final res |}
        else AssertFail
    | AssertFail => AssertFail
    | OutOfFuel => OutOfFuel
    end
  else Done {| t_effect := heur eff; t_chain := chain_ptr ls;
               t_state := st1 |}.

(** From "if( effect > max_effect )" to the end of the loop body:
    the candidates are updated and the move is taken back. *)
Definition select (i j : Z) (eff : effect_result) (t : trial)
    (ls : loop_state) : loop_state :=
  let effect := t_effect t in
  let better := max_effect ls <? effect in
  let heap1 :=
    if better
    then foldl (fun h c => enqueue c h) (local_heap (t_state t))
           (best_moves ls)
    else local_heap (t_state t) in
  let done1 :=
    if better && (1 <? ply) && (prev_move_val - effect <? best_sibling)
    then true else done ls in
  let max1 := if better then effect else max_effect ls in
  let best1 := if better then [] else best_moves ls in
  let heap2 :=
    if effect =? max1 then dequeue heap1
    else enqueue (t_chain t) heap1 in
  let best2 :=
    if effect =? max1 then best1 ++ [(i, j) :: t_chain t]
    else best1 in
  {| ls_state :=
       {| s_game := undo_effect i j player (changes eff) (num_changed eff)
                      (s_game (t_state t));
          local_heap := heap2;
          rand_calls := rand_calls (t_state t) |};
     done := done1;
     max_effect := max1;
     best_moves := best2;
     chain_ptr := t_chain t |}.

(** The body of the inner loop, for the cell [(i, j)]. *)
Definition try_cell (i j : Z) (ls : loop_state) : outcome loop_state :=
  let g := s_game (ls_state ls) in
  if negb (Ascii.eqb (cell (board g) i j) " "%char) then Done ls
  else
    match compute_effect i j player g with
    | None => AssertFail
    | Some (eff, g1) =>
        if num_changed eff =? 0 then
          Done {| ls_state := {| s_game := g1;
                                 local_heap := local_heap (ls_state ls);
                                 rand_calls := rand_calls (ls_state ls) |};
                  done := done ls; max_effect := max_effect ls;
                  best_moves := best_moves ls; chain_ptr := chain_ptr ls |}
        else
          match reply eff g1 ls with
          | Done t => Done (select i j eff t ls)
          | AssertFail => AssertFail
          | OutOfFuel => OutOfFuel
          end
    end.

(** The part of [best_move] after the loops.  [want_chain] is
    [rtn_chain != NULL]; every call of the program passes a pointer. *)
Definition finish (want_chain : bool) (ls : loop_state) : search_result :=
  let st := ls_state ls in
  let n := length (best_moves ls) in
  if negb want_chain then
    {| score := max_effect ls; chain := []; final := st |}
  else if (n =? 0)%nat then
    {| score := 0; chain := []; final := st |}
  else
    let chosen_move := Z.to_nat (u32 (rand (rand_calls st)) mod Z.of_nat n) in
    {| score := max_effect ls;
       chain := nth chosen_move (best_moves ls) [];
       final :=
         {| s_game := s_game st;
            local_heap :=
              foldl (fun h kc =>
                       if (fst kc =? chosen_move)%nat then h
                       else enqueue (snd kc) h)
                (local_heap st) (zip (seq 0 n) (best_moves ls));
            rand_calls := S (rand_calls st) |} |}.

Definition best_move_body (want_chain : bool) (st : search_state)
    : outcome search_result :=
  let ls0 := {| ls_state := st; done := false;
                max_effect := INIT_MAX_EFFECT;
                best_moves := []; chain_ptr := [] |} in
  match for_loop (Z.to_nat BOARD_SIZE) 0
          (fun i => for_loop (Z.to_nat BOARD_SIZE) 0 (try_cell i)) ls0 with
  | Done ls => Done (finish want_chain ls)
  | AssertFail => AssertFail
  | OutOfFuel => OutOfFuel
  end.

End Search.

(** [best_move( rtn_chain, player, ply, max_ply, prev_move_val,
    best_sibling )], with the recursive calls that [fuel] allows. *)
Fixpoint best_move_rec (rand : nat -> Z) (fuel : nat) (want_chain : bool)
    (player : player_ref) (ply max_ply prev_move_val best_sibling : Z)
    (st : search_state) : outcome search_result :=
  best_move_body rand
    (match fuel with
     | O => fun _ _ _ _ _ _ => OutOfFuel
     | S fuel' => best_move_rec rand fuel' true
     end)
    player ply max_ply prev_move_val best_sibling want_chain st.

Definition best_move (rand : nat -> Z) (want_chain : bool)
    (player : player_ref) (ply max_ply prev_move_val best_sibling : Z)
    (st : search_state) : outcome search_result :=
  best_move_rec rand (Z.to_nat (max_ply - ply)) want_chain
    player ply max_ply prev_move_val best_sibling st.

(** ** The start position of [main], for examples *)

Definition blank_line : list ascii := repeat " "%char 8 ++ [zero].

Definition start_board : board_t :=
  set_cell (set_cell (set_cell (set_cell (repeat blank_line 8)
    3 3 "X"%char) 4 4 "X"%char) 3 4 "O"%char) 4 3 "O"%char.

Definition start_game : game :=
  {| board := start_board;
     x_data := {| marker := "X"%char; count := 2; type := PT_COMP |};
     o_data := {| marker := "O"%char; count := 2; type := PT_COMP |} |}.

Definition start_state : search_state :=
  {| s_game := start_game; local_heap := []; rand_calls := 0 |}.


(** ** The notions of the design document *)

(** A coordinate of the 8 x 8 board. *)
Definition on_board (r c : Z) : bool :=
  (0 <=? r) && (r <? BOARD_SIZE) && (0 <=? c) && (c <? BOARD_SIZE).

(** The cells in row-major order. *)
Definition all_cells : list coord :=
  flat_map (fun i => map (fun j => (i, j)) (seqZ 0 BOARD_SIZE))
    (seqZ 0 BOARD_SIZE).

(** The [k]-th cell outward from [(row, col)] in the direction
    [(dr, dc)], and the first [n] of them. *)
Definition pos (row col dr dc k : Z) : coord := (row + k * dr, col + k * dc).

Definition ray (row col dr dc : Z) (n : nat) : list coord :=
  map (pos row col dr dc) (seqZ 1 (Z.of_nat n)).

(** A contiguous run of [n] cells owned by [opp] outward from
    [(row, col)], and its termination by a cell owned by [mover]. *)
Definition opponent_run (b : board_t) (opp : ascii) (row col dr dc : Z)
    (n : nat) : Prop :=
  forall k, 1 <= k <= Z.of_nat n ->
    on_board (fst (pos row col dr dc k)) (snd (pos row col dr dc k)) = true /\
    cell b (fst (pos row col dr dc k)) (snd (pos row col dr dc k)) = opp.

Definition mover_closes (b : board_t) (mover : ascii) (row col dr dc : Z)
    (n : nat) : Prop :=
  on_board (fst (pos row col dr dc (Z.of_nat n + 1)))
           (snd (pos row col dr dc (Z.of_nat n + 1))) = true /\
  cell b (fst (pos row col dr dc (Z.of_nat n + 1)))
         (snd (pos row col dr dc (Z.of_nat n + 1))) = mover.

(** The walk of the design document in one direction: opponent-owned
    cells are collected until the board edge or an empty cell (no
    flips) or a mover-owned cell (the collected cells are the flips).
    A walk leaves the board within [BOARD_SIZE] steps. *)
Fixpoint walk (steps : nat) (b : board_t) (mover : ascii)
    (r c dr dc : Z) (collected : list coord) : list coord :=
  match steps with
  | O => []
  | S steps' =>
      if negb (on_board (r + dr) (c + dc)) then []
      else if Ascii.eqb (cell b (r + dr) (c + dc)) " "%char then []
      else if Ascii.eqb (cell b (r + dr) (c + dc)) mover then collected
      else walk steps' b mover (r + dr) (c + dc) dr dc
             (collected ++ [(r + dr, c + dc)])
  end.

Definition line_flips (b : board_t) (mover : ascii) (row col : Z)
    (v : Z * Z) : list coord :=
  walk (Z.to_nat BOARD_SIZE) b mover row col (fst v) (snd v) [].

(** All flips of a move: the union over the eight directions. *)
Definition flips (b : board_t) (mover : ascii) (row col : Z) : list coord :=
  flat_map (line_flips b mover row col) vector.

(** The sum of the heuristic weights of a list of cells. *)
Definition weight (l : list coord) : Z :=
  fold_right (fun p s => h_func (fst p) (snd p) + s) 0 l.

(** The number of cells of the board that hold [m]. *)
Definition count_cells (b : board_t) (m : ascii) : Z :=
  Z.of_nat (length (List.filter
    (fun p => Ascii.eqb (cell b (fst p) (snd p)) m) all_cells)).

(** The invariants of the data model: the array has its declared
    shape, the two markers differ and are not the blank, every cell is
    blank or one of the two markers, and the counts are values of
    [unsigned int]. *)
Definition board_shape (b : board_t) : bool :=
  (length b =? 8)%nat && forallb (fun line => (length line =? 9)%nat) b.

Definition markers_ok (g : game) : bool :=
  negb (Ascii.eqb (marker (x_data g)) " "%char)
  && negb (Ascii.eqb (marker (o_data g)) " "%char)
  && negb (Ascii.eqb (marker (x_data g)) (marker (o_data g))).

Definition three_state (g : game) : bool :=
  forallb (fun p =>
             let x := cell (board g) (fst p) (snd p) in
             Ascii.eqb x " "%char || Ascii.eqb x (marker (x_data g))
             || Ascii.eqb x (marker (o_data g)))
    all_cells.

Definition is_u32 (z : Z) : bool := (0 <=? z) && (z <? 2 ^ 32).

Definition wf_game (g : game) : bool :=
  board_shape (board g) && markers_ok g && three_state g
  && is_u32 (count (x_data g)) && is_u32 (count (o_data g)).

(** "The number of its markers on the board": each count is the number
    of cells that hold the player's marker. *)
Definition counts_consistent (g : game) : bool :=
  (count (x_data g) =? count_cells (board g) (marker (x_data g)))
  && (count (o_data g) =? count_cells (board g) (marker (o_data g))).

(** A cell is a legal move when it is empty and the move flips
    something. *)
Definition legal (g : game) (player : player_ref) (p : coord) : bool :=
  Ascii.eqb (cell (board g) (fst p) (snd p)) " "%char
  && match compute_effect (fst p) (snd p) player g with
     | Some (eff, _) => negb (num_changed eff =? 0)
     | None => false
     end.

Definition has_empty (b : board_t) : bool :=
  existsb (fun p => Ascii.eqb (cell b (fst p) (snd p)) " "%char) all_cells.

(** The unpruned search of the design document: every empty cell is
    tried in row-major order; a move that flips nothing is skipped;
    when the depth limit is not reached and cells remain open, the
    opponent's best continuation score is subtracted; the best net
    score is the value of the node, and a node without a legal move is
    worth 0.  [depth] is [maxPly - ply]. *)
Fixpoint minimax (depth : nat) (player : player_ref) (g : game) : Z :=
  let net (p : coord) : option Z :=
    if Ascii.eqb (cell (board g) (fst p) (snd p)) " "%char then
      match compute_effect (fst p) (snd p) player g with
      | Some (eff, g') =>
          if num_changed eff =? 0 then None
          else Some (heur eff -
                     match depth with
                     | O => 0
                     | S d =>
                         if has_empty (board g')
                         then minimax d (opponent player) g'
                         else 0
                     end)
      | None => None
      end
    else None in
  match omap net all_cells with
  | [] => 0
  | x :: xs => foldl Z.max x xs
  end.

(** The cells of a list all lie on the board. *)
Definition all_on_board (l : list coord) : Prop :=
  forall p, In p l -> on_board (fst p) (snd p) = true.

(** The cells [k+1 .. k+n] of the ray from [(row, col)] are on the
    board and hold neither a blank nor [mk], and cell [k+n+1] is on the
    board and holds [mk]. *)
Definition bracket (b : board_t) (mk : ascii) (row col dr dc : Z)
    (k : Z) (n : nat) : Prop :=
  (forall j, k < j <= k + Z.of_nat n ->
     on_board (row + j * dr) (col + j * dc) = true /\
     cell b (row + j * dr) (col + j * dc) <> " "%char /\
     cell b (row + j * dr) (col + j * dc) <> mk) /\
  on_board (row + (k + Z.of_nat n + 1) * dr)
           (col + (k + Z.of_nat n + 1) * dc) = true /\
  cell b (row + (k + Z.of_nat n + 1) * dr)
         (col + (k + Z.of_nat n + 1) * dc) = mk.

(** How many flips the board leaves room for in one direction: the
    closing cell must still be on the board. *)
Definition room1 (x d : Z) : Z :=
  if d =? 1 then 6 - x else if d =? -1 then x - 1 else 6.

Definition room (row col : Z) (v : Z * Z) : Z :=
  Z.max 0 (Z.min (room1 row (fst v)) (room1 col (snd v))).

Definition total_room (row col : Z) : Z :=
  fold_right (fun v s => room row col v + s) 0 vector.

(** The move as the design document describes it: the flips of all
    directions are set to the mover, the new cell is set to the mover,
    the mover gains [flips + 1] and the opponent loses [flips]; the
    score is the weight of the placed cell plus that of every flipped
    cell.  Without flips nothing happens and the score is 0. *)
Definition move_result (row col : Z) (player : player_ref) (g : game)
    : effect_result * game :=
  let mk := marker (pdata g player) in
  let fl := flips (board g) mk row col in
  let n := Z.of_nat (length fl) in
  match fl with
  | [] => ({| heur := 0; changes := []; num_changed := 0 |}, g)
  | _ =>
      let g1 := set_board g (set_cell (set_cells (board g) fl mk) row col mk) in
      let g2 := set_count g1 player (u32 (count (pdata g player) + (n + 1))) in
      let g3 := set_count g2 (opponent player)
                  (u32 (count (pdata g (opponent player)) - n)) in
      ({| heur := h_func row col + weight fl; changes := fl;
          num_changed := n |}, g3)
  end.

(** The state of [compute_effect] after the directions [done_vs]: the
    flips recorded so far are those of the design document on the
    board [b0] of entry, and [num_changed] and [heur_total] are their
    number and weight. *)
Definition acc_ok (b0 : board_t) (mk : ascii) (row col : Z)
    (done_vs : list (Z * Z)) (acc : effect_acc) : Prop :=
  ea_changes acc = flat_map (line_flips b0 mk row col) done_vs /\
  ea_board acc = set_cells b0 (ea_changes acc) mk /\
  ea_num_changed acc = Z.of_nat (length (ea_changes acc)) /\
  ea_heur_total acc = weight (ea_changes acc).

(** The heuristic of the design document: corners 64, other edge
    cells 8, all other cells 1. *)
Definition is_end (x : Z) : bool := (x =? 0) || (x =? 7).

Definition heuristic_weight (r c : Z) : Z :=
  if is_end r && is_end c then 64
  else if is_end r || is_end c then 8
  else 1.

(** The two nested loops of [best_move] visit the cells in row-major
    order and stop at the first cell where [done] is set: one pass
    over a list, used to reason about them. *)
Fixpoint run_list {A : Type} (body : A -> loop_state -> outcome loop_state)
    (l : list A) (ls : loop_state) : outcome loop_state :=
  match l with
  | [] => Done ls
  | x :: rest =>
      if done ls then Done ls
      else
        match body x ls with
        | Done ls' => run_list body rest ls'
        | AssertFail => AssertFail
        | OutOfFuel => OutOfFuel
        end
  end.

(** The first state of the loops of [best_move]. *)
Definition loop_start (st : search_state) : loop_state :=
  {| ls_state := st; done := false; max_effect := INIT_MAX_EFFECT;
     best_moves := []; chain_ptr := [] |}.

(** The net score of one move in the unpruned search: as in
    [minimax], for the cell [p]. *)
Definition move_net (depth : nat) (player : player_ref) (g : game)
    (p : coord) : option Z :=
  if Ascii.eqb (cell (board g) (fst p) (snd p)) " "%char then
    match compute_effect (fst p) (snd p) player g with
    | Some (eff, g') =>
        if num_changed eff =? 0 then None
        else Some (heur eff -
                   match depth with
                   | O => 0
                   | S d =>
                       if has_empty (board g')
                       then minimax d (opponent player) g'
                       else 0
                   end)
    | None => None
    end
  else None.

(** The best of a list of net scores; 0 for the empty list. *)
Definition best_of (l : list Z) : Z :=
  match l with
  | [] => 0
  | x :: xs => foldl Z.max x xs
  end.

(** What the recursive call of [best_move] must deliver for the search
    to be right: it gives the game back, and its score is the value
    [minimax d] of the node, or, after a cut-off, a score not above
    that value which makes the caller's move fall below the caller's
    best. *)
Definition reply_sound
    (recurse : player_ref -> Z -> Z -> Z -> Z -> search_state ->
               outcome search_result)
    (d : nat) (q : player_ref) (ply' max_ply : Z) : Prop :=
  forall g1 pv bsib heap rc,
    wf_game g1 = true -> counts_consistent g1 = true ->
    match recurse q ply' max_ply pv bsib
            {| s_game := g1; local_heap := heap; rand_calls := rc |} with
    | Done res =>
        s_game (final res) = g1 /\
        (score res = minimax d q g1 \/
         (score res <= minimax d q g1 /\ pv - score res < bsib))
    | AssertFail => True
    | OutOfFuel => False
    end.

(** The invariant of the loops of [best_move] at a node with game
    [g0], after the cells [seen]; [net] gives the net score of a move
    in the unpruned search. *)
Definition node_inv (g0 : game) (net : coord -> option Z)
    (ply prev bs : Z) (seen : list coord) (ls : loop_state) : Prop :=
  s_game (ls_state ls) = g0 /\
  (forall c, In c (best_moves ls) ->
     exists p tl, c = p :: tl /\ In p seen /\ net p = Some (max_effect ls)) /\
  (if done ls
   then 1 < ply /\ In (max_effect ls) (omap net seen)
        /\ prev - max_effect ls < bs /\ best_moves ls <> []
   else max_effect ls = foldl Z.max INIT_MAX_EFFECT (omap net seen)
        /\ (omap net seen = [] -> best_moves ls = [])
        /\ (omap net seen <> [] ->
            INIT_MAX_EFFECT < max_effect ls /\ best_moves ls <> [])).

(** What a call of [best_move] at a node with game [g] delivers when
    it returns: the game is as at entry; the score is the value of
    the node in the unpruned search, or, after a cut-off (never at ply
    1), a score not above that value with
    [prev_move_val - score < best_sibling]; a [NULL] chain means that
    no cell is a legal move; and the head of a chain is a move whose
    net score in the unpruned search is the returned score. *)
Definition search_sound (depth : nat) (player : player_ref)
    (ply prev bs : Z) (g : game) (res : search_result) : Prop :=
  s_game (final res) = g /\
  (score res = minimax depth player g \/
   (1 < ply /\ score res <= minimax depth player g /\ prev - score res < bs)) /\
  (chain res = [] ->
   score res = 0 /\ forall p, In p all_cells -> legal g player p = false) /\
  (forall p tl, chain res = p :: tl ->
     In p all_cells /\ move_net depth player g p = Some (score res)).

(** ** Fragments of [main] *)

(** What [main] answers to the coordinates typed by a human player. *)
Inductive move_check :=
  | InvalidCoordinates
  | Occupied
  | ZeroYield
  | MoveOK.

(** The checks of [main] on a human move, from
    "if( row >= BOARD_SIZE || col >= BOARD_SIZE )" on; [row] and [col]
    are the [unsigned int]s that [sscanf] has filled. *)
Definition human_move (row col : Z) (player : player_ref) (g : game)
    : option (move_check * game) :=
  if (if BOARD_SIZE <=? row then true else BOARD_SIZE <=? col)
  then Some (InvalidCoordinates, g)
  else if negb (Ascii.eqb (cell (board g) row col) " "%char)
  then Some (Occupied, g)
  else
    match compute_effect row col player g with
    | None => None
    | Some (eff, g') =>
        if heur eff =? 0 then Some (ZeroYield, g') else Some (MoveOK, g')
    end.

(** How a turn of the computer ends in [main]: the player cannot
    move, or the move at the head of the chain was made, or
    [chain_ptr->r] was read through a [NULL] pointer. *)
Inductive turn :=
  | CannotMove (st : search_state)
  | Moved (p : coord) (effect : Z) (st : search_state)
  | NullChain.

(** A turn of a computer player in the loop of [main]: the viability
    check [best_move( &chain_ptr, player, 1, 1, 0, 0 ) > 0], then the
    search to [max_ply], the move at the head of its chain, and the
    chain given back to the pool.  (The chain of the viability check
    is overwritten without being given back.) *)
Definition computer_turn (rand : nat -> Z) (max_ply : Z)
    (player : player_ref) (st : search_state) : outcome turn :=
  match best_move rand true player 1 1 0 0 st with
  | Done v =>
      if 0 <? score v then
        match best_move rand true player 1 max_ply 0 0 (final v) with
        | Done r =>
            match chain r with
            | [] => Done NullChain
            | p :: _ =>
                match compute_effect (fst p) (snd p) player
                        (s_game (final r)) with
                | Some (_, g') =>
                    Done (Moved p (score r)
                            {| s_game := g';
                               local_heap :=
                                 enqueue (chain r) (local_heap (final r));
                               rand_calls := rand_calls (final r) |})
                | None => AssertFail
                end
            end
        | AssertFail => AssertFail
        | OutOfFuel => OutOfFuel
        end
      else Done (CannotMove (final v))
  | AssertFail => AssertFail
  | OutOfFuel => OutOfFuel
  end.

(** Some cell is a legal move for the player. *)
Definition can_move (g : game) (player : player_ref) : bool :=
  existsb (legal g player) all_cells.

(** A game without any marker, for examples. *)
Definition blank_game : game :=
  {| board := repeat blank_line 8;
     x_data := {| marker := "X"%char; count := 0; type := PT_COMP |};
     o_data := {| marker := "O"%char; count := 0; type := PT_COMP |} |}.

(** A chain is a line of play from the game [g] with [player] to
    move: its first record is a legal move of [player] on the board,
    and the rest is a line of play of the opponent from the game after
    that move. *)
Fixpoint playable (g : game) (player : player_ref) (c : list coord) : bool :=
  match c with
  | [] => true
  | p :: tl =>
      on_board (fst p) (snd p) && legal g player p
      && playable (snd (move_result (fst p) (snd p) player g))
           (opponent player) tl
  end.

(** The invariant of the loops of [best_move] about chains: the game
    is the game [g0] of entry; as long as the node makes no recursive
    call ([deeper = false]) [chain_ptr] is [NULL]; every candidate is
    a line of play of at most [S depth] moves. *)
Definition chain_inv (g0 : game) (player : player_ref) (deeper : bool)
    (depth : nat) (ls : loop_state) : Prop :=
  s_game (ls_state ls) = g0 /\
  (deeper = false -> chain_ptr ls = []) /\
  forall c, In c (best_moves ls) ->
    c <> [] /\ playable g0 player c = true /\ (length c <= S depth)%nat.

(** The result of the search to depth 3 from the start position, with
    [rand] counting its calls; for examples. *)
Definition start_search_result : search_result :=
  Eval vm_compute in
    match best_move (fun n => Z.of_nat n) true X_DATA 1 3 0 0 start_state with
    | Done r => r
    | _ => {| score := 0; chain := []; final := start_state |}
    end.

(** The move [p] has net score [m]. *)
Definition is_best (net : coord -> option Z) (m : Z) (p : coord) : bool :=
  match net p with
  | Some t => t =? m
  | None => false
  end.

(** As long as no cut-off has happened, the candidates of [best_move]
    are headed, in row-major order, by all the cells seen so far whose
    net score is the best so far. *)
Definition heads_inv (net : coord -> option Z) (seen : list coord)
    (ls : loop_state) : Prop :=
  done ls = false ->
  omap head (best_moves ls)
  = List.filter (is_best net (max_effect ls)) seen.

(** What [best_move] does with several best moves: [cands] are the
    cells whose net score is the returned score, in the order of the
    loops; the chain starts with the one that [rand() % n] picks. *)
Definition tie_break (rand : nat -> Z) (net : coord -> option Z)
    (res : search_result) : Prop :=
  let cands := List.filter (is_best net (score res)) all_cells in
  (cands = [] -> chain res = []) /\
  (cands <> [] ->
   (0 < rand_calls (final res))%nat /\
   head (chain res)
   = cands !! Z.to_nat (u32 (rand (Nat.pred (rand_calls (final res))))
                        mod Z.of_nat (length cands))).

(** The most that a move on [(row, col)] can score on any board: the
    weight of the cell, and in each direction that of the cells that
    the board leaves room to flip. *)
Definition max_gain (row col : Z) : Z :=
  h_func row col +
  fold_right
    (fun v s =>
       weight (ray row col (fst v) (snd v) (Z.to_nat (room row col v))) + s)
    0 vector.

(** The largest score of one move: a corner with both edges and the
    diagonal flipped. *)
Definition MAX_HEUR : Z := 166.

(** A board on which the corner move of [X] scores [MAX_HEUR]. *)
Definition corner_board : board_t :=
  map (fun i =>
         map (fun j =>
                if (i =? 0) && (j =? 0) then " "%char
                else if (i =? 7) || (j =? 7) then "X"%char
                else if (i =? 0) || (j =? 0) || (i =? j) then "O"%char
                else " "%char)
             (seqZ 0 BOARD_SIZE) ++ [zero])
      (seqZ 0 BOARD_SIZE).

(** Bounds on the score that [best_move] returns when [k] levels are
    left below the node. *)
Definition score_low (k : Z) : Z := - (82 * (k + 1)).
Definition score_high (k : Z) : Z := MAX_HEUR + 82 * k.

(** The loops of [best_move] keep the game and the bounds of the best
    score. *)
Definition bound_inv (g0 : game) (k : Z) (ls : loop_state) : Prop :=
  s_game (ls_state ls) = g0 /\
  (best_moves ls = [] \/ score_low k <= max_effect ls <= score_high k).

(** The recursive call returns, with the game given back and a score
    within the bounds. *)
Definition reply_total
    (recurse : player_ref -> Z -> Z -> Z -> Z -> search_state ->
               outcome search_result)
    (k : Z) (q : player_ref) (ply' max_ply : Z) : Prop :=
  forall g1 pv bsib heap rc,
    wf_game g1 = true -> counts_consistent g1 = true ->
    exists res,
      recurse q ply' max_ply pv bsib
        {| s_game := g1; local_heap := heap; rand_calls := rc |} = Done res /\
      s_game (final res) = g1 /\
      score_low k <= score res <= score_high k.

Definition corner_game : game :=
  {| board := corner_board;
     x_data := {| marker := "X"%char; count := 15; type := PT_COMP |};
     o_data := {| marker := "O"%char; count := 18; type := PT_COMP |} |}.

(** ** The loop of [main], for computer players *)

(** How a run of the loop of [main] ends: by the "Deadlock" [break],
    by its condition, at a turn of a human player (which reads input
    and is not modelled), or by a read through a [NULL] chain. *)
Inductive play_end :=
  | Deadlock (st : search_state)
  | GameOver (st : search_state)
  | HumanToMove (st : search_state)
  | NullChainRead.

(** [x_data.count > 0 && o_data.count > 0 &&
     x_data.count + o_data.count < BOARD_AREA] *)
Definition keep_playing (g : game) : bool :=
  (0 <? count (x_data g)) && (0 <? count (o_data g))
  && (u32 (count (x_data g) + count (o_data g)) <? BOARD_AREA).

(** The [do ... while] loop of [main] from the top of an iteration,
    with [player] to move and [can_go] as the last iteration left it;
    [fuel] bounds the number of iterations. *)
Fixpoint main_loop (fuel : nat) (rand : nat -> Z) (max_ply : Z)
    (player : player_ref) (can_go : bool) (st : search_state)
    : outcome play_end :=
  match fuel with
  | O => OutOfFuel
  | S fuel' =>
      match type (pdata (s_game st) player) with
      | PT_HUMAN => Done (HumanToMove st)
      | PT_COMP =>
          match computer_turn rand max_ply player st with
          | Done (CannotMove st') =>
              if negb can_go then Done (Deadlock st')
              else if keep_playing (s_game st')
              then main_loop fuel' rand max_ply (opponent player) false st'
              else Done (GameOver st')
          | Done (Moved _ _ st') =>
              if keep_playing (s_game st')
              then main_loop fuel' rand max_ply (opponent player) true st'
              else Done (GameOver st')
          | Done NullChain => Done NullChainRead
          | AssertFail => AssertFail
          | OutOfFuel => OutOfFuel
          end
      end
  end.

(** The number of markers on the board, and what bounds the number of
    iterations left. *)
Definition markers (g : game) : Z := count (x_data g) + count (o_data g).

Definition turns_left (g : game) (can_go : bool) : Z :=
  2 * (BOARD_AREA - markers g) + (if can_go then 1 else 0).

(** How a game between two computer players ends. *)
Definition ended (e : play_end) : Prop :=
  match e with
  | Deadlock st =>
      can_move (s_game st) X_DATA = false /\
      can_move (s_game st) O_DATA = false
  | GameOver st =>
      count (x_data (s_game st)) = 0 \/ count (o_data (s_game st)) = 0 \/
      markers (s_game st) = BOARD_AREA
  | HumanToMove _ => False
  | NullChainRead => False
  end.

(** ** The records of the pool *)

(** The number of records in a list of chains. *)
Definition records (l : list (list coord)) : nat := length (concat l).

(** The loops of [best_move] lose no record: those of the pool at
    entry ([n0] of them) are in the pool or in a candidate chain. *)
Definition pool_inv (n0 : nat) (ls : loop_state) : Prop :=
  (n0 <= length (local_heap (ls_state ls)) + records (best_moves ls))%nat.

(** A call loses no record: those of the pool at entry are in the
    pool or in the chain it stores. *)
Definition pool_kept (st : search_state) (res : search_result) : Prop :=
  (length (local_heap st)
   <= length (local_heap (final res)) + length (chain res))%nat.

(** The result of a search to depth 2 from the start position with
    three records in the pool; for examples. *)
Definition pool_state : search_state :=
  {| s_game := start_game; local_heap := [(0, 0); (0, 1); (0, 2)];
     rand_calls := 0 |}.

Definition pool_search_result : search_result :=
  Eval vm_compute in
    match best_move (fun n => Z.of_nat n) true X_DATA 1 2 0 0 pool_state with
    | Done r => r
    | _ => {| score := 0; chain := []; final := pool_state |}
    end.

(** A turn of the computer from [pool_state]; for examples. *)
Definition pool_turn : turn :=
  Eval vm_compute in
    match computer_turn (fun n => Z.of_nat n) 2 X_DATA pool_state with
    | Done t => t
    | _ => NullChain
    end.

(** The state of the loops of the call
    [best_move_rec rand fuel true player ply max_ply prev bs st] when
    the cells [cells] (a prefix of [all_cells]) have been tried. *)
Definition loop_after (rand : nat -> Z) (fuel : nat) (player : player_ref)
    (ply max_ply prev bs : Z) (st : search_state) (cells : list coord)
    : outcome loop_state :=
  run_list
    (fun p =>
       try_cell
         (match fuel with
          | O => fun _ _ _ _ _ _ => OutOfFuel
          | S fuel' => best_move_rec rand fuel' true
          end)
         player ply max_ply prev bs (fst p) (snd p))
    cells (loop_start st).

(** The state of the loops of a search from the start position after
    30 cells; for examples. *)
Definition fit_loop_state : loop_state :=
  Eval vm_compute in
    match loop_after (fun n => Z.of_nat n) 1 X_DATA 1 2 0 0 start_state
            (firstn 30 all_cells) with
    | Done ls => ls
    | _ => loop_start start_state
    end.

(** A node at ply 2 where the first legal move, [(2, 3)], cuts the
    search off, and the states of its loops before and after that
    cell; for examples. *)
Definition cut_state : search_state :=
  {| s_game := snd (move_result 2 4 X_DATA start_game);
     local_heap := []; rand_calls := 0 |}.

Definition cut_before : loop_state :=
  Eval vm_compute in
    match loop_after (fun n => Z.of_nat n) 0 O_DATA 2 2 2 5 cut_state
            (firstn 19 all_cells) with
    | Done ls => ls
    | _ => loop_start cut_state
    end.

Definition cut_after : loop_state :=
  Eval vm_compute in
    match loop_after (fun n => Z.of_nat n) 0 O_DATA 2 2 2 5 cut_state
            (firstn 19 all_cells ++ [(2, 3)]) with
    | Done ls => ls
    | _ => loop_start cut_state
    end.

(** ** A turn of a human player in [main] *)

(** A line typed by a human player, as [main] reads it: a line that
    starts with Q or q, one that starts with H or h, or any other
    line, with the [int]s that [sscanf] stores in [row] and [col]. *)
Inductive command :=
  | Quit
  | Hint
  | Coords (row col : Z).

(** How the loop "for( ; ; )" of a human turn ends: by Q, by an
    accepted move, at the end of the input of the model, or by a read
    through a [NULL] chain after H. *)
Inductive human_end :=
  | Quitted (st : search_state)
  | Played (row col : Z) (st : search_state)
  | InputEnded (st : search_state)
  | NullHint.

(** The loop "for( ; ; )" of a human turn, on the lines [inputs]. *)
Fixpoint human_turn (inputs : list command) (rand : nat -> Z) (max_ply : Z)
    (player : player_ref) (st : search_state) : outcome human_end :=
  match inputs with
  | [] => Done (InputEnded st)
  | Quit :: _ => Done (Quitted st)
  | Hint :: rest =>
      match best_move rand true player 1 max_ply 0 0 st with
      | Done r =>
          match chain r with
          | [] => Done NullHint
          | _ :: _ =>
              human_turn rest rand max_ply player
                {| s_game := s_game (final r);
                   local_heap := enqueue (chain r) (local_heap (final r));
                   rand_calls := rand_calls (final r) |}
          end
      | AssertFail => AssertFail
      | OutOfFuel => OutOfFuel
      end
  | Coords row col :: rest =>
      match human_move (u32 row) (u32 col) player (s_game st) with
      | None => AssertFail
      | Some (MoveOK, g') =>
          Done (Played (u32 row) (u32 col)
                  {| s_game := g'; local_heap := local_heap st;
                     rand_calls := rand_calls st |})
      | Some (_, g') =>
          human_turn rest rand max_ply player
            {| s_game := g'; local_heap := local_heap st;
               rand_calls := rand_calls st |}
      end
  end.

(** ** The move records in memory *)

(** The list model of the pool above abstracts from the pointers of
    [coord_type].  This module has the records as they are in the
    source, in a memory indexed by addresses, to show that the list
    model is right.  A [coord_type **] always holds the address of the
    [next] field of a record; it is modelled by the address of that
    record.  [NULL] is [None]; an access to an address that is not
    allocated gives [None] as the result of the operation. *)
Module Mem.

Definition addr := positive.

Record coord_type := {
  r : Z;
  c : Z;
  next : option addr;
  tail : addr;
}.

(** The records that are allocated, and the global [local_heap]. *)
Record store := {
  mem : gmap addr coord_type;
  local_heap : option addr;
}.

(** [*t = v] for a [coord_type ** t]. *)
Definition set_next (t : addr) (v : option addr) (m : gmap addr coord_type)
    : option (gmap addr coord_type) :=
  match m !! t with
  | None => None
  | Some rec =>
      Some (<[t := {| r := r rec; c := c rec; next := v; tail := tail rec |}]> m)
  end.

Definition enqueue (ptr : option addr) (s : store) : option store :=
  match ptr with
  | None => Some s
  | Some p =>
      match mem s !! p with
      | None => None
      | Some rec =>
          match set_next (tail rec) (local_heap s) (mem s) with
          | None => None
          | Some m' => Some {| mem := m'; local_heap := Some p |}
          end
      end
  end.

(** [malloc] is taken to succeed (the source does not test its
    result); it gives an address that was not allocated, with a record
    whose fields the caller overwrites. *)
Definition dequeue (s : store) : option (addr * store) :=
  match local_heap s with
  | None =>
      let a := fresh (dom (mem s)) in
      Some (a, {| mem := <[a := {| r := 0; c := 0; next := None; tail := a |}]>
                           (mem s);
                  local_heap := None |})
  | Some a =>
      match mem s !! a with
      | None => None
      | Some rec => Some (a, {| mem := mem s; local_heap := next rec |})
      end
  end.

(** From "move_ptr = dequeue();" to the assignment of
    [move_ptr->tail] in [best_move]. *)
Definition new_move (i j : Z) (chain_ptr : option addr) (s : store)
    : option (addr * store) :=
  match dequeue s with
  | None => None
  | Some (move_ptr, s1) =>
      match mem s1 !! move_ptr with
      | None => None
      | Some rec =>
          let m2 := <[move_ptr := {| r := i; c := j; next := chain_ptr;
                                     tail := tail rec |}]> (mem s1) in
          match (match chain_ptr with
                 | Some cp => option_map tail (m2 !! cp)
                 | None => Some move_ptr
                 end) with
          | None => None
          | Some t =>
              Some (move_ptr,
                    {| mem := <[move_ptr := {| r := i; c := j;
                                               next := chain_ptr;
                                               tail := t |}]> m2;
                       local_heap := local_heap s1 |})
          end
      end
  end.

(** The records reached from [a] through [next] are those at the
    addresses [l], in this order, up to [NULL]. *)
Fixpoint is_list (m : gmap addr coord_type) (a : option addr)
    (l : list addr) : Prop :=
  match l with
  | [] => a = None
  | x :: l' =>
      a = Some x /\ exists rec, m !! x = Some rec /\ is_list m (next rec) l'
  end.

(** A chain as [best_move] builds it: a list without a cycle whose
    first record points, through [tail], to the [next] field of its
    last record. *)
Definition is_chain (m : gmap addr coord_type) (a : option addr)
    (l : list addr) : Prop :=
  is_list m a l /\ NoDup l /\
  match a with
  | None => True
  | Some x => exists rec, m !! x = Some rec /\ last l = Some (tail rec)
  end.

(** The coordinates stored in the records at [l]: the chain or pool of
    the list model. *)
Definition coords (m : gmap addr coord_type) (l : list addr) : list coord :=
  omap (fun x => option_map (fun rec => (r rec, c rec)) (m !! x)) l.

End Mem.

(** A memory with the chain of the records at 1 and 2 and a pool of
    one record at 3; for examples. *)
Definition example_store : Mem.store :=
  {| Mem.mem :=
       <[1%positive := {| Mem.r := 2; Mem.c := 4; Mem.next := Some 2%positive;
                          Mem.tail := 2%positive |}]>
       (<[2%positive := {| Mem.r := 2; Mem.c := 3; Mem.next := None;
                           Mem.tail := 2%positive |}]>
       (<[3%positive := {| Mem.r := 0; Mem.c := 0; Mem.next := None;
                           Mem.tail := 3%positive |}]> ∅));
     Mem.local_heap := Some 3%positive |}.

(** The recursive call that [best_move_rec rand fuel] makes at its
    trials (the one of [loop_after] with the same [fuel]). *)
Definition recurse_of (rand : nat -> Z) (fuel : nat)
    : player_ref -> Z -> Z -> Z -> Z -> search_state -> outcome search_result :=
  match fuel with
  | O => fun _ _ _ _ _ _ => OutOfFuel
  | S fuel' => best_move_rec rand fuel' true
  end.

(** The trial of the legal move [(2, 3)] at the node [cut_state];
    for examples. *)
Definition cut_trial : trial :=
  {| t_effect := heur (fst (move_result 2 3 O_DATA (s_game cut_state)));
     t_chain := [];
     t_state := {| s_game := snd (move_result 2 3 O_DATA (s_game cut_state));
                   local_heap := []; rand_calls := 0 |} |}.

(** * Properties *)

(** ** Arithmetic of [unsigned int] and the heuristic *)

Lemma u32_small z : 0 <= z < 2 ^ 32 -> u32 z = z.
Proof. intros H. unfold u32. apply Z.mod_small. exact H. Qed.

Lemma u32_range z : 0 <= u32 z < 2 ^ 32.
Proof. unfold u32. apply Z.mod_pos_bound. reflexivity. Qed.

Lemma is_u32_spec z : is_u32 z = true <-> 0 <= z < 2 ^ 32.
Proof. unfold is_u32. rewrite andb_true_iff, Z.leb_le, Z.ltb_lt. tauto. Qed.

Lemma is_u32_u32 z : is_u32 (u32 z) = true.
Proof. apply is_u32_spec, u32_range. Qed.

(** [x - y + y] in [unsigned int]: adding back what was taken away. *)
Lemma u32_add_sub x n : 0 <= x < 2 ^ 32 -> u32 (u32 (x + n) - n) = x.
Proof.
  intros Hx. unfold u32.
  rewrite Zminus_mod_idemp_l.
  replace (x + n - n) with x by ring.
  apply Z.mod_small. exact Hx.
Qed.

Lemma u32_sub_add x n : 0 <= x < 2 ^ 32 -> u32 (u32 (x - n) + n) = x.
Proof.
  intros Hx. unfold u32.
  rewrite Zplus_mod_idemp_l.
  replace (x - n + n) with x by ring.
  apply Z.mod_small. exact Hx.
Qed.

Lemma idx_weight_cases x : idx_weight x = 1 \/ idx_weight x = 8.
Proof. unfold idx_weight. destruct (_ || _); auto. Qed.

Lemma h_func_bounds r c : 1 <= h_func r c <= 64.
Proof.
  unfold h_func.
  destruct (idx_weight_cases r) as [-> | ->],
           (idx_weight_cases c) as [-> | ->]; lia.
Qed.

Lemma weight_app l1 l2 : weight (l1 ++ l2) = weight l1 + weight l2.
Proof.
  induction l1 as [| p l1 IH]; simpl; [reflexivity |].
  unfold weight in *. simpl. rewrite IH. ring.
Qed.

Lemma weight_bounds l :
  Z.of_nat (length l) <= weight l <= 64 * Z.of_nat (length l).
Proof.
  induction l as [| p l IH]; [simpl; lia |].
  change (weight (p :: l)) with (h_func (fst p) (snd p) + weight l).
  pose proof (h_func_bounds (fst p) (snd p)).
  rewrite length_cons. lia.
Qed.

(** ** The board as an array *)

Lemma on_board_spec r c :
  on_board r c = true <-> (0 <= r < 8 /\ 0 <= c < 8).
Proof.
  unfold on_board, BOARD_SIZE.
  rewrite !andb_true_iff, !Z.leb_le, !Z.ltb_lt. lia.
Qed.

Lemma board_shape_spec b :
  board_shape b = true <->
  length b = 8%nat /\ forall line, In line b -> length line = 9%nat.
Proof.
  unfold board_shape. rewrite andb_true_iff, Nat.eqb_eq, forallb_forall.
  split; intros [H1 H2]; split; auto; intros l Hl.
  - apply Nat.eqb_eq. auto.
  - apply Nat.eqb_eq. auto.
Qed.

Lemma board_shape_line b i line :
  board_shape b = true -> b !! i = Some line -> length line = 9%nat.
Proof.
  intros Hs Hl. apply board_shape_spec in Hs as [_ Hs].
  apply Hs. apply list_elem_of_In. eapply list_elem_of_lookup_2. exact Hl.
Qed.

Lemma board_shape_set_cell b r c v :
  board_shape b = true -> board_shape (set_cell b r c v) = true.
Proof.
  intros Hs. pose proof Hs as Hs'.
  apply board_shape_spec in Hs' as [Hlen Hlines].
  apply board_shape_spec. unfold set_cell. split.
  - rewrite length_alter. exact Hlen.
  - intros line Hin. apply list_elem_of_In in Hin.
    apply list_elem_of_lookup_1 in Hin as [i Hi].
    destruct (decide (Z.to_nat r = i)) as [<- | Hne].
    + rewrite list_lookup_alter_eq in Hi.
      destruct (b !! Z.to_nat r) as [l0 |] eqn:E; simpl in Hi; [| discriminate].
      injection Hi as <-. rewrite length_insert.
      eapply board_shape_line; eauto.
    + rewrite list_lookup_alter_ne in Hi by exact Hne.
      eapply board_shape_line; eauto.
Qed.

Lemma cell_set_cell_eq b r c v :
  board_shape b = true -> 0 <= r < 8 -> 0 <= c < 9 ->
  cell (set_cell b r c v) r c = v.
Proof.
  intros Hs Hr Hc. unfold cell, set_cell.
  rewrite list_lookup_alter_eq.
  destruct (b !! Z.to_nat r) as [line |] eqn:E; simpl.
  - rewrite list_lookup_insert_eq; [reflexivity |].
    rewrite (board_shape_line _ _ _ Hs E). lia.
  - apply lookup_ge_None_1 in E.
    apply board_shape_spec in Hs as [Hlen _]. lia.
Qed.

Lemma cell_set_cell_ne b r c r' c' v :
  0 <= r -> 0 <= c -> 0 <= r' -> 0 <= c' -> (r, c) <> (r', c') ->
  cell (set_cell b r c v) r' c' = cell b r' c'.
Proof.
  intros Hr Hc Hr' Hc' Hne. unfold cell, set_cell.
  destruct (decide (Z.to_nat r = Z.to_nat r')) as [Heq | Hneq].
  - rewrite Heq, list_lookup_alter_eq.
    destruct (b !! Z.to_nat r') as [line |]; simpl; [| reflexivity].
    rewrite list_lookup_insert_ne; [reflexivity |].
    intros Hcc. apply Hne. f_equal; lia.
  - rewrite list_lookup_alter_ne by exact Hneq. reflexivity.
Qed.

(** Two boards of the declared shape with the same cells are equal. *)
Lemma board_ext b1 b2 :
  board_shape b1 = true -> board_shape b2 = true ->
  (forall r c, 0 <= r < 8 -> 0 <= c < 9 -> cell b1 r c = cell b2 r c) ->
  b1 = b2.
Proof.
  intros Hs1 Hs2 Hcell.
  pose proof Hs1 as Hs1'. pose proof Hs2 as Hs2'.
  apply board_shape_spec in Hs1' as [Hl1 _].
  apply board_shape_spec in Hs2' as [Hl2 _].
  apply list_eq. intros i.
  destruct (decide (i < 8)%nat) as [Hi | Hi].
  - destruct (lookup_lt_is_Some_2 b1 i) as [l1 E1]; [lia |].
    destruct (lookup_lt_is_Some_2 b2 i) as [l2 E2]; [lia |].
    rewrite E1, E2. f_equal.
    pose proof (board_shape_line _ _ _ Hs1 E1) as Hn1.
    pose proof (board_shape_line _ _ _ Hs2 E2) as Hn2.
    apply list_eq. intros j.
    destruct (decide (j < 9)%nat) as [Hj | Hj].
    + destruct (lookup_lt_is_Some_2 l1 j) as [x1 F1]; [lia |].
      destruct (lookup_lt_is_Some_2 l2 j) as [x2 F2]; [lia |].
      rewrite F1, F2. f_equal.
      specialize (Hcell (Z.of_nat i) (Z.of_nat j)).
      unfold cell in Hcell. rewrite !Nat2Z.id in Hcell.
      rewrite E1, E2, F1, F2 in Hcell. apply Hcell; lia.
    + rewrite !lookup_ge_None_2 by lia. reflexivity.
  - rewrite !lookup_ge_None_2 by lia. reflexivity.
Qed.

Lemma set_cells_app b l1 l2 v :
  set_cells b (l1 ++ l2) v = set_cells (set_cells b l1 v) l2 v.
Proof. unfold set_cells. apply foldl_app. Qed.

Lemma board_shape_set_cells l : forall b v,
  board_shape b = true -> board_shape (set_cells b l v) = true.
Proof.
  induction l as [| p l IH]; intros b v Hs; [exact Hs |].
  simpl. apply IH. apply board_shape_set_cell. exact Hs.
Qed.

Lemma cell_set_cells_in l : forall b v r c,
  board_shape b = true -> all_on_board l -> In (r, c) l ->
  cell (set_cells b l v) r c = v.
Proof.
  induction l as [| p l IH] using rev_ind; intros b v r c Hs Hall Hin;
    [destruct Hin |].
  rewrite set_cells_app. simpl.
  assert (Hp : on_board (fst p) (snd p) = true)
    by (apply Hall, in_or_app; right; left; reflexivity).
  apply on_board_spec in Hp.
  destruct (decide (p = (r, c))) as [-> | Hne].
  - simpl. apply cell_set_cell_eq; [| simpl in Hp; lia | simpl in Hp; lia].
    apply board_shape_set_cells. exact Hs.
  - assert (Hrc : on_board r c = true).
    { apply (Hall (r, c)). exact Hin. }
    apply on_board_spec in Hrc.
    rewrite cell_set_cell_ne; try lia.
    + apply IH; [exact Hs | |].
      * intros q Hq. apply Hall, in_or_app. left. exact Hq.
      * apply in_app_or in Hin as [Hin | [Hin | []]]; [exact Hin | contradiction].
    + destruct p as [pr pc]. simpl. intros Heq. apply Hne. exact Heq.
Qed.

Lemma cell_set_cells_notin l : forall b v r c,
  all_on_board l -> 0 <= r -> 0 <= c -> ~ In (r, c) l ->
  cell (set_cells b l v) r c = cell b r c.
Proof.
  induction l as [| p l IH]; intros b v r c Hall Hr Hc Hnin; [reflexivity |].
  simpl.
  assert (Hp : on_board (fst p) (snd p) = true) by (apply Hall; left; reflexivity).
  apply on_board_spec in Hp.
  rewrite IH; try assumption.
  - apply cell_set_cell_ne; try lia.
    destruct p as [pr pc]. simpl. intros Heq. apply Hnin. left. exact Heq.
  - intros q Hq. apply Hall. right. exact Hq.
  - intros Hin. apply Hnin. right. exact Hin.
Qed.

(** ** One direction: [scan_line] against the walk of the design *)

Lemma u32_step x d :
  0 <= x < 8 -> -1 <= d <= 1 ->
  (0 <= x + d -> u32 (x + u32 d) = x + d) /\
  (x + d < 0 -> u32 (x + u32 d) = 2 ^ 32 - 1).
Proof.
  intros Hx Hd.
  assert (Hcases : d = -1 \/ d = 0 \/ d = 1) by lia.
  destruct Hcases as [-> | [-> | ->]].
  - change (u32 (-1)) with (2 ^ 32 - 1). split; intros H.
    + unfold u32. replace (x + (2 ^ 32 - 1)) with (x - 1 + 1 * 2 ^ 32) by ring.
      rewrite Z_mod_plus_full. apply Z.mod_small. lia.
    + assert (x = 0) as -> by lia. reflexivity.
  - change (u32 0) with 0. split; intros H; [| lia].
    apply u32_small. lia.
  - change (u32 1) with 1. split; intros H; [| lia].
    apply u32_small. lia.
Qed.

Section Line.

Variables (b : board_t) (mk : ascii) (row col dr dc : Z).
Hypothesis Hstart : on_board row col = true.
Hypothesis Hdr : -1 <= dr <= 1.
Hypothesis Hdc : -1 <= dc <= 1.
Hypothesis Hmove : dr <> 0 \/ dc <> 0.

(** A cell of the ray that is on the board is at most 7 steps away. *)
Lemma ray_on_board_le k :
  0 <= k -> on_board (row + k * dr) (col + k * dc) = true -> k <= 7.
Proof using Hstart Hdr Hdc Hmove.
  intros Hk Hon. apply on_board_spec in Hon. apply on_board_spec in Hstart.
  assert (dr = -1 \/ dr = 0 \/ dr = 1) as Hr by lia.
  assert (dc = -1 \/ dc = 0 \/ dc = 1) as Hc by lia.
  destruct Hr as [-> | [-> | ->]], Hc as [-> | [-> | ->]]; lia.
Qed.

(** The code's loop and the walk produce the same cells, the code
    never runs out of [line_change] entries, and on success
    [line_heur_total] is the weight of those cells. *)
Lemma scan_line_walk_from : forall slots steps k r c lht lc,
  r = row + k * dr -> c = col + k * dc -> 0 <= k ->
  on_board r c = true ->
  7 <= Z.of_nat slots + k -> 8 <= Z.of_nat steps + k ->
  0 <= lht -> lht + 64 * (Z.of_nat slots) < 2 ^ 32 ->
  exists lht',
    scan_line slots b mk (u32 dr) (u32 dc) r c lht lc
    = Some (lht', walk steps b mk r c dr dc lc) /\
    (walk steps b mk r c dr dc lc = [] \/
     lht' + weight lc = lht + weight (walk steps b mk r c dr dc lc)).
Proof using Hstart Hdr Hdc Hmove.
  induction slots as [| slots IH];
    intros steps k r c lht lc Hr Hc Hk Hon Hslots Hsteps Hl0 Hl1.
  - (* no entry left: the next cell is off the board *)
    assert (Hk7 : k <= 7) by (apply ray_on_board_le; subst; assumption).
    assert (k = 7) as -> by lia.
    destruct steps as [| steps]; [lia |].
    assert (Hoff : on_board (r + dr) (c + dc) = false).
    { destruct (on_board (r + dr) (c + dc)) eqn:E; [| reflexivity].
      exfalso.
      assert (8 <= 7) as Habs; [| lia].
      apply ray_on_board_le; [lia |].
      replace (row + 8 * dr) with (r + dr) by (subst; ring).
      replace (col + 8 * dc) with (c + dc) by (subst; ring). exact E. }
    simpl. rewrite Hoff. simpl.
    apply on_board_spec in Hon.
    destruct (u32_step r dr ltac:(lia) Hdr) as [Hr1 Hr2].
    destruct (u32_step c dc ltac:(lia) Hdc) as [Hc1 Hc2].
    assert (Hcond : (if BOARD_SIZE <=? u32 (r + u32 dr) then true
                     else if BOARD_SIZE <=? u32 (c + u32 dc) then true
                     else Ascii.eqb (cell b (u32 (r + u32 dr)) (u32 (c + u32 dc))) " "%char)
                    = true).
    { unfold BOARD_SIZE.
      destruct (Z_lt_dec (r + dr) 0) as [Hn | Hn].
      { rewrite Hr2 by exact Hn. reflexivity. }
      rewrite Hr1 by lia.
      destruct (8 <=? r + dr) eqn:E1; [reflexivity |].
      destruct (Z_lt_dec (c + dc) 0) as [Hm | Hm].
      { rewrite Hc2 by exact Hm. reflexivity. }
      rewrite Hc1 by lia.
      destruct (8 <=? c + dc) eqn:E2; [reflexivity |].
      exfalso. apply Z.leb_gt in E1, E2.
      assert (on_board (r + dr) (c + dc) = true) as Hx
        by (apply on_board_spec; lia).
      congruence. }
    rewrite Hcond. exists lht. split; [reflexivity | left; reflexivity].
  - destruct steps as [| steps].
    { assert (k <= 7) by (apply ray_on_board_le; subst; assumption). lia. }
    cbn [scan_line walk].
    apply on_board_spec in Hon.
    destruct (u32_step r dr ltac:(lia) Hdr) as [Hr1 Hr2].
    destruct (u32_step c dc ltac:(lia) Hdc) as [Hc1 Hc2].
    destruct (on_board (r + dr) (c + dc)) eqn:Enext; cbn [negb].
    + pose proof Enext as Enext'. apply on_board_spec in Enext'.
      rewrite Hr1, Hc1 by lia. unfold BOARD_SIZE.
      replace (8 <=? r + dr) with false by (symmetry; apply Z.leb_gt; lia).
      replace (8 <=? c + dc) with false by (symmetry; apply Z.leb_gt; lia).
      destruct (Ascii.eqb (cell b (r + dr) (c + dc)) " "%char).
      { exists lht. split; [reflexivity | left; reflexivity]. }
      destruct (Ascii.eqb (cell b (r + dr) (c + dc)) mk).
      { exists lht. split; [reflexivity | right; reflexivity]. }
      pose proof (h_func_bounds (r + dr) (c + dc)) as Hh.
      rewrite (u32_small (lht + h_func (r + dr) (c + dc))) by lia.
      destruct (IH steps (k + 1) (r + dr) (c + dc)
                  (lht + h_func (r + dr) (c + dc))
                  (lc ++ [(r + dr, c + dc)])) as [lht' [Heq Hw]];
        try (subst; ring); try lia; [exact Enext |].
      exists lht'. split; [exact Heq |].
      destruct Hw as [Hw | Hw]; [left; exact Hw | right].
      rewrite weight_app in Hw. simpl in Hw. lia.
    + assert (Hcond : (if BOARD_SIZE <=? u32 (r + u32 dr) then true
                       else if BOARD_SIZE <=? u32 (c + u32 dc) then true
                       else Ascii.eqb (cell b (u32 (r + u32 dr))
                              (u32 (c + u32 dc))) " "%char) = true).
      { unfold BOARD_SIZE.
        destruct (Z_lt_dec (r + dr) 0) as [Hn | Hn].
        { rewrite Hr2 by exact Hn. reflexivity. }
        rewrite Hr1 by lia.
        destruct (8 <=? r + dr) eqn:E1; [reflexivity |].
        destruct (Z_lt_dec (c + dc) 0) as [Hm | Hm].
        { rewrite Hc2 by exact Hm. reflexivity. }
        rewrite Hc1 by lia.
        destruct (8 <=? c + dc) eqn:E2; [reflexivity |].
        exfalso. apply Z.leb_gt in E1, E2.
        assert (on_board (r + dr) (c + dc) = true) as Hx
          by (apply on_board_spec; lia).
        congruence. }
      rewrite Hcond. exists lht. split; [reflexivity | left; reflexivity].
Qed.

End Line.

Section Walk.

Variables (b : board_t) (mk : ascii) (row col dr dc : Z).
Hypothesis Hstart : on_board row col = true.
Hypothesis Hdr : -1 <= dr <= 1.
Hypothesis Hdc : -1 <= dc <= 1.
Hypothesis Hmove : dr <> 0 \/ dc <> 0.

Lemma walk_from : forall steps k r c lc,
  r = row + k * dr -> c = col + k * dc -> 0 <= k ->
  on_board r c = true -> 8 <= Z.of_nat steps + k ->
  (exists n : nat,
      walk steps b mk r c dr dc lc
      = lc ++ map (pos row col dr dc) (seqZ (k + 1) (Z.of_nat n)) /\
      bracket b mk row col dr dc k n) \/
  (walk steps b mk r c dr dc lc = [] /\
   (mk <> " "%char -> forall n, ~ bracket b mk row col dr dc k n)).
Proof using Hstart Hdr Hdc Hmove.
  induction steps as [| steps IH]; intros k r c lc Hr Hc Hk Hon Hsteps.
  { assert (k <= 7) by (apply (ray_on_board_le row col dr dc); subst; assumption).
    lia. }
  cbn [walk].
  assert (Er : r + dr = row + (k + 1) * dr) by (subst; ring).
  assert (Ec : c + dc = col + (k + 1) * dc) by (subst; ring).
  destruct (on_board (r + dr) (c + dc)) eqn:Enext; cbn [negb].
  2:{ right. split; [reflexivity |]. intros _ n [Hrun [Hcl _]].
      destruct n as [| n].
      - replace (k + Z.of_nat 0 + 1) with (k + 1) in Hcl by lia.
        rewrite <- Er, <- Ec in Hcl. congruence.
      - destruct (Hrun (k + 1)) as [Hx _]; [lia |].
        rewrite <- Er, <- Ec in Hx. congruence. }
  destruct (Ascii.eqb_spec (cell b (r + dr) (c + dc)) " "%char) as [Esp | Esp].
  { right. split; [reflexivity |]. intros Hmk n [Hrun [_ Hcl]].
    destruct n as [| n].
    - replace (k + Z.of_nat 0 + 1) with (k + 1) in Hcl by lia.
      rewrite <- Er, <- Ec in Hcl. congruence.
    - destruct (Hrun (k + 1)) as [_ [Hx _]]; [lia |].
      rewrite <- Er, <- Ec in Hx. congruence. }
  destruct (Ascii.eqb_spec (cell b (r + dr) (c + dc)) mk) as [Emk | Emk].
  { left. exists 0%nat. split.
    - rewrite seqZ_nil by lia. simpl. rewrite app_nil_r. reflexivity.
    - split; [intros j Hj; lia |].
      replace (k + Z.of_nat 0 + 1) with (k + 1) by lia.
      rewrite <- Er, <- Ec. split; assumption. }
  destruct (IH (k + 1) (r + dr) (c + dc) (lc ++ [(r + dr, c + dc)]))
    as [[n [Hw Hb]] | [Hw Hb]]; try assumption; try lia.
  - left. exists (S n). split.
    + rewrite Hw, <- app_assoc. f_equal.
      rewrite (seqZ_cons (k + 1)) by lia. simpl. f_equal.
      * unfold pos. rewrite Er, Ec. reflexivity.
      * f_equal. f_equal; lia.
    + destruct Hb as [Hrun [Hon' Hcl]]. split; [| split].
      * intros j Hj. destruct (Z.eq_dec j (k + 1)) as [-> | Hne].
        -- rewrite <- Er, <- Ec. repeat split; assumption.
        -- apply Hrun. lia.
      * replace (k + Z.of_nat (S n) + 1) with (k + 1 + Z.of_nat n + 1) by lia.
        exact Hon'.
      * replace (k + Z.of_nat (S n) + 1) with (k + 1 + Z.of_nat n + 1) by lia.
        exact Hcl.
  - right. split; [exact Hw |]. intros Hmk n [Hrun [Hon' Hcl]].
    destruct n as [| n].
    + replace (k + Z.of_nat 0 + 1) with (k + 1) in Hcl by lia.
      rewrite <- Er, <- Ec in Hcl. congruence.
    + apply (Hb Hmk n). split; [| split].
      * intros j Hj. apply Hrun. lia.
      * replace (k + 1 + Z.of_nat n + 1) with (k + Z.of_nat (S n) + 1) by lia.
        exact Hon'.
      * replace (k + 1 + Z.of_nat n + 1) with (k + Z.of_nat (S n) + 1) by lia.
        exact Hcl.
Qed.

End Walk.

(** ** The eight directions *)

Lemma vector_cases v :
  In v vector ->
  v = (-1, -1) \/ v = (-1, 0) \/ v = (-1, 1) \/ v = (0, -1) \/
  v = (0, 1) \/ v = (1, -1) \/ v = (1, 0) \/ v = (1, 1).
Proof. unfold vector. simpl. intuition (subst; auto). Qed.

Lemma vector_dirs v :
  In v vector ->
  -1 <= fst v <= 1 /\ -1 <= snd v <= 1 /\ (fst v <> 0 \/ snd v <> 0).
Proof.
  intros H. apply vector_cases in H.
  repeat (destruct H as [-> | H]); try subst v; simpl; lia.
Qed.

(** The directions are exactly the unit vectors other than [(0, 0)]. *)
Lemma vector_unit_vectors dr dc :
  In (dr, dc) vector <->
  (-1 <= dr <= 1 /\ -1 <= dc <= 1 /\ (dr, dc) <> (0, 0)).
Proof.
  split.
  - intros H. apply vector_dirs in H. simpl in H.
    destruct H as [H1 [H2 H3]]. repeat split; try lia.
    intros Heq. injection Heq as -> ->. lia.
  - intros [H1 [H2 H3]].
    assert (dr = -1 \/ dr = 0 \/ dr = 1) as Hr by lia.
    assert (dc = -1 \/ dc = 0 \/ dc = 1) as Hc by lia.
    unfold vector.
    destruct Hr as [-> | [-> | ->]], Hc as [-> | [-> | ->]];
      simpl; try tauto; try congruence.
Qed.

Lemma vector_NoDup : List.NoDup vector.
Proof.
  unfold vector.
  repeat (constructor; [simpl; intuition congruence |]). constructor.
Qed.

Lemma in_ray row col dr dc n p :
  In p (ray row col dr dc n) <->
  exists j, 1 <= j <= Z.of_nat n /\ p = pos row col dr dc j.
Proof.
  unfold ray. rewrite in_map_iff. split.
  - intros [j [Hp Hj]]. exists j. split; [| auto].
    apply list_elem_of_In, elem_of_seqZ in Hj. lia.
  - intros [j [Hj Hp]]. exists j. split; [auto |].
    apply list_elem_of_In, elem_of_seqZ. lia.
Qed.

(** Two different directions share no cell beyond the start. *)
Lemma rays_disjoint row col v v' j j' :
  In v vector -> In v' vector -> v <> v' -> 1 <= j -> 1 <= j' ->
  pos row col (fst v) (snd v) j <> pos row col (fst v') (snd v') j'.
Proof.
  intros Hv Hv' Hne Hj Hj' Heq.
  apply vector_cases in Hv, Hv'. unfold pos in Heq.
  injection Heq as E1 E2.
  repeat (destruct Hv as [-> | Hv]); try subst v;
    repeat (destruct Hv' as [-> | Hv']); try subst v';
    simpl in E1, E2; try lia; try congruence.
Qed.

Lemma ray_NoDup row col dr dc n :
  dr <> 0 \/ dc <> 0 -> -1 <= dr <= 1 -> -1 <= dc <= 1 ->
  List.NoDup (ray row col dr dc n).
Proof.
  intros Hmove Hdr Hdc. unfold ray.
  apply Finite.Injective_map_NoDup_in.
  - intros j j' Hj Hj' Heq. unfold pos in Heq. injection Heq as E1 E2.
    assert (dr = -1 \/ dr = 0 \/ dr = 1) as Hr by lia.
    assert (dc = -1 \/ dc = 0 \/ dc = 1) as Hc by lia.
    destruct Hr as [-> | [-> | ->]], Hc as [-> | [-> | ->]]; lia.
  - apply NoDup_ListNoDup, NoDup_seqZ.
Qed.

Lemma start_not_in_ray row col dr dc n :
  dr <> 0 \/ dc <> 0 -> ~ In (row, col) (ray row col dr dc n).
Proof.
  intros Hmove Hin. apply in_ray in Hin as [j [Hj Heq]].
  unfold pos in Heq. injection Heq as E1 E2. nia.
Qed.

(** ** The flips of one direction *)

Lemma line_flips_cases b mk row col v :
  on_board row col = true -> In v vector ->
  (exists n : nat,
      line_flips b mk row col v = ray row col (fst v) (snd v) n /\
      bracket b mk row col (fst v) (snd v) 0 n) \/
  (line_flips b mk row col v = [] /\
   (mk <> " "%char -> forall n, ~ bracket b mk row col (fst v) (snd v) 0 n)).
Proof.
  intros Hon Hv. destruct (vector_dirs v Hv) as [Hdr [Hdc Hmove]].
  unfold line_flips.
  destruct (walk_from b mk row col (fst v) (snd v) Hon Hdr Hdc Hmove
              (Z.to_nat BOARD_SIZE) 0 row col [])
    as [[n [Hw Hb]] | [Hw Hb]]; try ring; try lia; try assumption.
  - unfold BOARD_SIZE. lia.
  - left. exists n. split; [| exact Hb]. rewrite Hw. reflexivity.
  - right. split; assumption.
Qed.

Lemma in_line_flips b mk row col v p :
  on_board row col = true -> In v vector ->
  In p (line_flips b mk row col v) ->
  (exists j, 1 <= j /\ p = pos row col (fst v) (snd v) j) /\
  on_board (fst p) (snd p) = true /\
  cell b (fst p) (snd p) <> " "%char /\
  cell b (fst p) (snd p) <> mk.
Proof.
  intros Hon Hv Hin.
  destruct (line_flips_cases b mk row col v Hon Hv) as [[n [Hl Hb]] | [Hl _]].
  - rewrite Hl in Hin. apply in_ray in Hin as [j [Hj ->]].
    destruct Hb as [Hrun _]. destruct (Hrun j) as [H1 [H2 H3]]; [lia |].
    split; [exists j; split; [lia | reflexivity] |].
    unfold pos. simpl. auto.
  - rewrite Hl in Hin. destruct Hin.
Qed.

Lemma line_flips_NoDup b mk row col v :
  on_board row col = true -> In v vector ->
  List.NoDup (line_flips b mk row col v).
Proof.
  intros Hon Hv. destruct (vector_dirs v Hv) as [Hdr [Hdc Hmove]].
  destruct (line_flips_cases b mk row col v Hon Hv) as [[n [Hl _]] | [Hl _]];
    rewrite Hl.
  - apply ray_NoDup; assumption.
  - constructor.
Qed.

Lemma start_not_in_line_flips b mk row col v :
  on_board row col = true -> In v vector ->
  ~ In (row, col) (line_flips b mk row col v).
Proof.
  intros Hon Hv. destruct (vector_dirs v Hv) as [Hdr [Hdc Hmove]].
  destruct (line_flips_cases b mk row col v Hon Hv) as [[n [Hl _]] | [Hl _]];
    rewrite Hl.
  - apply start_not_in_ray. exact Hmove.
  - intros [].
Qed.

Lemma length_ray row col dr dc n : length (ray row col dr dc n) = n.
Proof. unfold ray. rewrite length_map, length_seqZ. lia. Qed.

Lemma line_flips_room b mk row col v :
  on_board row col = true -> In v vector ->
  Z.of_nat (length (line_flips b mk row col v)) <= room row col v.
Proof.
  intros Hon Hv.
  destruct (line_flips_cases b mk row col v Hon Hv) as [[n [Hl Hb]] | [Hl _]];
    rewrite Hl.
  - rewrite length_ray. destruct Hb as [_ [Hcl _]].
    apply on_board_spec in Hcl. apply on_board_spec in Hon.
    apply vector_cases in Hv. unfold room, room1.
    repeat (destruct Hv as [-> | Hv]); try subst v; simpl in *; lia.
  - simpl. unfold room. lia.
Qed.

Lemma room_le_6 row col v :
  on_board row col = true -> In v vector -> room row col v <= 6.
Proof.
  intros Hon Hv. apply on_board_spec in Hon. apply vector_cases in Hv.
  unfold room, room1.
  repeat (destruct Hv as [-> | Hv]); try subst v; simpl; lia.
Qed.

(** Over the eight directions there is room for at most 19 flips, one
    fewer than [changes] can hold. *)
Lemma total_room_le row col :
  on_board row col = true -> total_room row col <= 19.
Proof.
  intros Hon. apply on_board_spec in Hon. destruct Hon as [Hr Hc].
  assert (row = 0 \/ row = 1 \/ row = 2 \/ row = 3 \/
          row = 4 \/ row = 5 \/ row = 6 \/ row = 7) as Hrow by lia.
  assert (col = 0 \/ col = 1 \/ col = 2 \/ col = 3 \/
          col = 4 \/ col = 5 \/ col = 6 \/ col = 7) as Hcol by lia.
  repeat (destruct Hrow as [-> | Hrow]); try subst row;
    repeat (destruct Hcol as [-> | Hcol]); try subst col;
    vm_compute; discriminate.
Qed.

Lemma walk_ext b1 b2 mk dr dc : forall steps r c lc,
  (forall j, 1 <= j ->
     on_board (r + j * dr) (c + j * dc) = true ->
     cell b1 (r + j * dr) (c + j * dc) = cell b2 (r + j * dr) (c + j * dc)) ->
  walk steps b1 mk r c dr dc lc = walk steps b2 mk r c dr dc lc.
Proof.
  induction steps as [| steps IH]; intros r c lc Hext; [reflexivity |].
  cbn [walk].
  destruct (on_board (r + dr) (c + dc)) eqn:Enext; cbn [negb]; [| reflexivity].
  assert (Hc : cell b1 (r + dr) (c + dc) = cell b2 (r + dr) (c + dc)).
  { specialize (Hext 1). rewrite !Z.mul_1_l in Hext. apply Hext; [lia | exact Enext]. }
  rewrite Hc.
  destruct (Ascii.eqb _ " "%char); [reflexivity |].
  destruct (Ascii.eqb _ mk); [reflexivity |].
  apply IH. intros j Hj Hon.
  replace (r + dr + j * dr) with (r + (j + 1) * dr) in * by ring.
  replace (c + dc + j * dc) with (c + (j + 1) * dc) in * by ring.
  apply Hext; [lia | exact Hon].
Qed.

Lemma line_flips_ext b1 b2 mk row col v :
  (forall j, 1 <= j ->
     on_board (row + j * fst v) (col + j * snd v) = true ->
     cell b1 (row + j * fst v) (col + j * snd v)
     = cell b2 (row + j * fst v) (col + j * snd v)) ->
  line_flips b1 mk row col v = line_flips b2 mk row col v.
Proof. intros H. unfold line_flips. apply walk_ext. exact H. Qed.

(** ** The flips of several directions *)

Lemma in_flat_line_flips b mk row col vs p :
  on_board row col = true -> (forall v, In v vs -> In v vector) ->
  In p (flat_map (line_flips b mk row col) vs) ->
  (exists v j, In v vs /\ 1 <= j /\ p = pos row col (fst v) (snd v) j) /\
  on_board (fst p) (snd p) = true /\
  cell b (fst p) (snd p) <> " "%char /\
  cell b (fst p) (snd p) <> mk /\
  p <> (row, col).
Proof.
  intros Hon Hvs Hin. apply in_flat_map in Hin as [v [Hv Hp]].
  destruct (in_line_flips b mk row col v p Hon (Hvs v Hv) Hp)
    as [[j [Hj Hpos]] [H1 [H2 H3]]].
  split; [exists v, j; auto |]. repeat split; try assumption.
  intros ->. eapply start_not_in_line_flips; eauto.
Qed.

Lemma flat_line_flips_all_on_board b mk row col vs :
  on_board row col = true -> (forall v, In v vs -> In v vector) ->
  all_on_board (flat_map (line_flips b mk row col) vs).
Proof.
  intros Hon Hvs p Hp.
  apply (in_flat_line_flips b mk row col vs p Hon Hvs Hp).
Qed.

Lemma flat_line_flips_length b mk row col vs :
  on_board row col = true -> (forall v, In v vs -> In v vector) ->
  Z.of_nat (length (flat_map (line_flips b mk row col) vs))
  <= fold_right (fun v s => room row col v + s) 0 vs.
Proof.
  intros Hon. induction vs as [| v vs IH]; intros Hvs; [simpl; lia |].
  simpl. rewrite length_app, Nat2Z.inj_add.
  pose proof (line_flips_room b mk row col v Hon (Hvs v (or_introl eq_refl))).
  specialize (IH (fun w Hw => Hvs w (or_intror Hw))). lia.
Qed.

Lemma room_nonneg row col v : 0 <= room row col v.
Proof. unfold room. lia. Qed.

Lemma room_sum_app row col vs1 vs2 :
  fold_right (fun v s => room row col v + s) 0 (vs1 ++ vs2)
  = fold_right (fun v s => room row col v + s) 0 vs1
    + fold_right (fun v s => room row col v + s) 0 vs2.
Proof. induction vs1 as [| v vs1 IH]; simpl; lia. Qed.

Lemma room_sum_nonneg row col vs :
  0 <= fold_right (fun v s => room row col v + s) 0 vs.
Proof.
  induction vs as [| v vs IH]; simpl; [lia |].
  pose proof (room_nonneg row col v). lia.
Qed.

(** The flips of a prefix of the directions fit in [changes]. *)
Lemma prefix_flips_length b mk row col vs1 vs2 :
  on_board row col = true -> vector = vs1 ++ vs2 ->
  Z.of_nat (length (flat_map (line_flips b mk row col) vs1)) <= 19.
Proof.
  intros Hon Hsplit.
  pose proof (total_room_le row col Hon) as Htot.
  unfold total_room in Htot. rewrite Hsplit, room_sum_app in Htot.
  pose proof (room_sum_nonneg row col vs2).
  pose proof (flat_line_flips_length b mk row col vs1 Hon) as Hlen.
  assert (Hvs : forall v, In v vs1 -> In v vector).
  { intros v Hv. rewrite Hsplit. apply in_or_app. left. exact Hv. }
  specialize (Hlen Hvs). lia.
Qed.

Lemma flat_line_flips_NoDup b mk row col : forall vs,
  on_board row col = true -> (forall v, In v vs -> In v vector) ->
  List.NoDup vs ->
  List.NoDup (flat_map (line_flips b mk row col) vs).
Proof.
  induction vs as [| v vs IH]; intros Hon Hvs Hnd; [constructor |].
  simpl. apply NoDup_ListNoDup, NoDup_app. inversion Hnd as [| ? ? Hnotin Hnd']; subst.
  split; [| split].
  - apply NoDup_ListNoDup, line_flips_NoDup; [exact Hon | apply Hvs; left; reflexivity].
  - intros p Hp Hq. apply list_elem_of_In in Hp, Hq.
    destruct (in_line_flips b mk row col v p Hon (Hvs v (or_introl eq_refl)) Hp)
      as [[j [Hj Hpos]] _].
    destruct (in_flat_line_flips b mk row col vs p Hon
                (fun w Hw => Hvs w (or_intror Hw)) Hq)
      as [[v' [j' [Hv' [Hj' Hpos']]]] _].
    apply (rays_disjoint row col v v' j j'); try assumption.
    + apply Hvs. left. reflexivity.
    + apply Hvs. right. exact Hv'.
    + intros ->. contradiction.
    + congruence.
  - apply NoDup_ListNoDup, IH; [exact Hon | | exact Hnd'].
    intros w Hw. apply Hvs. right. exact Hw.
Qed.

(** ** [compute_effect] computes the move of the design document *)

Lemma scan_line_line_flips b mk row col v :
  on_board row col = true -> In v vector ->
  exists lht,
    scan_line (Z.to_nat (BOARD_SIZE - 1)) b mk (u32 (fst v)) (u32 (snd v))
      row col 0 []
    = Some (lht, line_flips b mk row col v) /\
    (line_flips b mk row col v = [] \/
     lht = weight (line_flips b mk row col v)).
Proof.
  intros Hon Hv. destruct (vector_dirs v Hv) as [Hdr [Hdc Hmove]].
  destruct (scan_line_walk_from b mk row col (fst v) (snd v) Hon Hdr Hdc Hmove
              (Z.to_nat (BOARD_SIZE - 1)) (Z.to_nat BOARD_SIZE) 0 row col 0 [])
    as [lht [Heq Hw]]; try ring; try assumption;
    try (unfold BOARD_SIZE; simpl; lia).
  exists lht. split; [exact Heq |].
  destruct Hw as [Hw | Hw]; [left; exact Hw | right].
  unfold line_flips. change (weight []) with 0 in Hw. lia.
Qed.

Lemma scan_vector_step b0 mk row col done_vs v vs acc :
  board_shape b0 = true -> on_board row col = true ->
  vector = done_vs ++ v :: vs ->
  acc_ok b0 mk row col done_vs acc ->
  exists acc',
    scan_vector mk row col acc v = Some acc' /\
    acc_ok b0 mk row col (done_vs ++ [v]) acc'.
Proof.
  intros Hshape Hon Hsplit [Hch [Hb [Hn Hh]]].
  assert (Hv : In v vector).
  { rewrite Hsplit. apply in_or_app. right. left. reflexivity. }
  assert (Hdone : forall w, In w done_vs -> In w vector).
  { intros w Hw. rewrite Hsplit. apply in_or_app. left. exact Hw. }
  assert (Hfresh : ~ In v done_vs).
  { pose proof vector_NoDup as Hnd. rewrite Hsplit in Hnd.
    apply NoDup_remove_2 in Hnd. intros Hin. apply Hnd.
    apply in_or_app. left. exact Hin. }
  assert (Hall : all_on_board (ea_changes acc)).
  { rewrite Hch. apply flat_line_flips_all_on_board; assumption. }
  (* the flips of earlier directions are not on this ray *)
  assert (Hsame : line_flips (ea_board acc) mk row col v
                  = line_flips b0 mk row col v).
  { apply line_flips_ext. intros j Hj Hjon. rewrite Hb.
    apply on_board_spec in Hjon.
    apply cell_set_cells_notin; [exact Hall | lia | lia |].
    intros Hin. rewrite Hch in Hin.
    destruct (in_flat_line_flips b0 mk row col done_vs _ Hon Hdone Hin)
      as [[w [j' [Hw [Hj' Hpos]]]] _].
    apply (rays_disjoint row col v w j j'); try assumption.
    - apply Hdone. exact Hw.
    - intros ->. contradiction. }
  destruct (scan_line_line_flips (ea_board acc) mk row col v Hon Hv)
    as [lht [Hscan Hlht]].
  rewrite Hsame in Hscan, Hlht.
  unfold scan_vector. rewrite Hscan.
  set (lf := line_flips b0 mk row col v) in *.
  assert (Hprefix : Z.of_nat (length (ea_changes acc ++ lf)) <= 19).
  { rewrite Hch. unfold lf.
    replace (flat_map (line_flips b0 mk row col) done_vs
             ++ line_flips b0 mk row col v)
      with (flat_map (line_flips b0 mk row col) (done_vs ++ [v])).
    - apply (prefix_flips_length b0 mk row col (done_vs ++ [v]) vs Hon).
      rewrite <- app_assoc. exact Hsplit.
    - rewrite flat_map_app. simpl. rewrite app_nil_r. reflexivity. }
  rewrite length_app, Nat2Z.inj_add in Hprefix.
  destruct (0 <? Z.of_nat (length lf)) eqn:Elen.
  - apply Z.ltb_lt in Elen.
    assert (Hlf : lf <> []) by (intros E; rewrite E in Elen; simpl in Elen; lia).
    destruct Hlht as [Hlht | Hlht]; [contradiction |].
    rewrite Hn. rewrite (u32_small (_ + _)) by lia.
    replace (_ <=? MAX_CHANGES) with true
      by (symmetry; apply Z.leb_le; unfold MAX_CHANGES, BOARD_SIZE; lia).
    eexists. split; [reflexivity |]. unfold acc_ok.
    cbn [ea_board ea_changes ea_num_changed ea_heur_total].
    repeat split.
    + rewrite flat_map_app, Hch. simpl. rewrite app_nil_r. reflexivity.
    + rewrite set_cells_app, Hb. reflexivity.
    + rewrite length_app, Nat2Z.inj_add. reflexivity.
    + rewrite weight_app, Hh, Hlht.
      pose proof (weight_bounds (ea_changes acc)).
      pose proof (weight_bounds lf).
      apply u32_small. lia.
  - apply Z.ltb_ge in Elen.
    assert (Hlf : lf = []) by (destruct lf; [reflexivity | simpl in Elen; lia]).
    exists acc. split; [reflexivity |]. unfold acc_ok.
    rewrite flat_map_app. simpl. fold lf. rewrite Hlf, !app_nil_r.
    repeat split; assumption.
Qed.

Lemma scan_vectors_spec b0 mk row col : forall vs done_vs acc,
  board_shape b0 = true -> on_board row col = true ->
  vector = done_vs ++ vs ->
  acc_ok b0 mk row col done_vs acc ->
  exists acc',
    scan_vectors mk row col vs acc = Some acc' /\
    acc_ok b0 mk row col vector acc'.
Proof.
  induction vs as [| v vs IH]; intros done_vs acc Hshape Hon Hsplit Hok.
  - rewrite app_nil_r in Hsplit. subst done_vs. exists acc. split; auto.
  - destruct (scan_vector_step b0 mk row col done_vs v vs acc
                Hshape Hon Hsplit Hok) as [acc1 [Hstep Hok1]].
    cbn [scan_vectors]. rewrite Hstep.
    apply (IH (done_vs ++ [v])); try assumption.
    rewrite <- app_assoc. exact Hsplit.
Qed.

Lemma flips_length b mk row col :
  on_board row col = true ->
  Z.of_nat (length (flips b mk row col)) <= 19.
Proof.
  intros Hon. unfold flips.
  apply (prefix_flips_length b mk row col vector [] Hon).
  rewrite app_nil_r. reflexivity.
Qed.

Lemma set_board_id g : set_board g (board g) = g.
Proof. destruct g. reflexivity. Qed.

Lemma count_set_count_same g p n : count (pdata (set_count g p n) p) = n.
Proof. destruct p; reflexivity. Qed.

Lemma count_set_count_other g p n :
  count (pdata (set_count g p n) (opponent p)) = count (pdata g (opponent p)).
Proof. destruct p; reflexivity. Qed.

Lemma compute_effect_move_result row col player g :
  board_shape (board g) = true -> on_board row col = true ->
  compute_effect row col player g = Some (move_result row col player g).
Proof.
  intros Hshape Hon. unfold compute_effect, move_result.
  set (mk := marker (pdata g player)).
  destruct (scan_vectors_spec (board g) mk row col vector []
              {| ea_board := board g; ea_changes := [];
                 ea_num_changed := 0; ea_heur_total := 0 |} Hshape Hon eq_refl)
    as [acc [Hscan [Hch [Hb [Hn Hh]]]]].
  { repeat split; reflexivity. }
  rewrite Hscan. fold (flips (board g) mk row col) in Hch.
  pose proof (flips_length (board g) mk row col Hon) as Hlen.
  rewrite Hn, Hh, Hb, Hch.
  destruct (flips (board g) mk row col) as [| p fl] eqn:Efl.
  - simpl. rewrite set_board_id. reflexivity.
  - set (l := p :: fl) in *.
    assert (Hpos : 0 < Z.of_nat (length l)) by (unfold l; simpl; lia).
    replace (0 <? Z.of_nat (length l)) with true
      by (symmetry; apply Z.ltb_lt; exact Hpos).
    cbv zeta.
    rewrite (u32_small (Z.of_nat (length l) + 1)) by lia.
    pose proof (weight_bounds l) as Hw.
    pose proof (h_func_bounds row col) as Hhf.
    rewrite (u32_small (weight l + h_func row col)) by lia.
    f_equal. f_equal.
    + f_equal. ring.
    + destruct player; reflexivity.
Qed.

(** ** The invariants of the data model *)

Lemma in_all_cells r c : In (r, c) all_cells <-> on_board r c = true.
Proof.
  unfold all_cells. rewrite in_flat_map, on_board_spec. unfold BOARD_SIZE. split.
  - intros [i [Hi Hin]]. apply in_map_iff in Hin as [j [Heq Hj]].
    injection Heq as -> ->.
    apply list_elem_of_In, elem_of_seqZ in Hi, Hj. lia.
  - intros [Hr Hc]. exists r. split.
    + apply list_elem_of_In, elem_of_seqZ. lia.
    + apply in_map_iff. exists c. split; [reflexivity |].
      apply list_elem_of_In, elem_of_seqZ. lia.
Qed.

Lemma all_cells_NoDup : List.NoDup all_cells.
Proof.
  unfold all_cells, BOARD_SIZE. vm_compute.
  repeat (constructor; [simpl; intuition congruence |]). constructor.
Qed.

Lemma wf_game_spec g :
  wf_game g = true <->
  board_shape (board g) = true /\ markers_ok g = true /\
  three_state g = true /\
  is_u32 (count (x_data g)) = true /\ is_u32 (count (o_data g)) = true.
Proof. unfold wf_game. rewrite !andb_true_iff. tauto. Qed.

Lemma markers_ok_spec g :
  markers_ok g = true <->
  marker (x_data g) <> " "%char /\ marker (o_data g) <> " "%char /\
  marker (x_data g) <> marker (o_data g).
Proof.
  unfold markers_ok. rewrite !andb_true_iff, !negb_true_iff.
  rewrite !Ascii.eqb_neq. tauto.
Qed.

Lemma markers_ok_player g p :
  markers_ok g = true ->
  marker (pdata g p) <> " "%char /\
  marker (pdata g (opponent p)) <> " "%char /\
  marker (pdata g p) <> marker (pdata g (opponent p)).
Proof.
  intros H. apply markers_ok_spec in H as [H1 [H2 H3]].
  destruct p; simpl; auto.
Qed.

Lemma three_state_cell g r c :
  three_state g = true -> on_board r c = true ->
  cell (board g) r c = " "%char \/
  cell (board g) r c = marker (x_data g) \/
  cell (board g) r c = marker (o_data g).
Proof.
  intros H Hon. unfold three_state in H. rewrite forallb_forall in H.
  specialize (H (r, c) (proj2 (in_all_cells r c) Hon)). simpl in H.
  rewrite !orb_true_iff in H. rewrite !Ascii.eqb_eq in H. tauto.
Qed.

(** On a board of the data model, a cell that is neither blank nor
    the mover's is the opponent's. *)
Lemma foreign_is_opponent g p r c :
  markers_ok g = true -> three_state g = true -> on_board r c = true ->
  (cell (board g) r c <> " "%char /\ cell (board g) r c <> marker (pdata g p))
  <-> cell (board g) r c = marker (pdata g (opponent p)).
Proof.
  intros Hm Ht Hon.
  destruct (markers_ok_player g p Hm) as [H1 [H2 H3]].
  destruct (three_state_cell g r c Ht Hon) as [E | [E | E]];
    destruct p; simpl in *; rewrite E; split; intros; intuition congruence.
Qed.

Lemma bracket_iff_run g p row col dr dc n :
  markers_ok g = true -> three_state g = true ->
  bracket (board g) (marker (pdata g p)) row col dr dc 0 n <->
  (opponent_run (board g) (marker (pdata g (opponent p))) row col dr dc n /\
   mover_closes (board g) (marker (pdata g p)) row col dr dc n).
Proof.
  intros Hm Ht. unfold bracket, opponent_run, mover_closes, pos. simpl.
  split.
  - intros [Hrun Hcl]. split; [| exact Hcl].
    intros k Hk. destruct (Hrun k) as [Hon Hc]; [lia |].
    split; [exact Hon |]. apply (foreign_is_opponent g p); assumption.
  - intros [Hrun Hcl]. split; [| exact Hcl].
    intros j Hj. destruct (Hrun j) as [Hon Hc]; [lia |].
    split; [exact Hon |]. apply (foreign_is_opponent g p); assumption.
Qed.

(** ** Counting the cells of a marker *)

Lemma filter_ext_in_list (f f' : coord -> bool) (l : list coord) :
  (forall q, In q l -> f' q = f q) -> List.filter f' l = List.filter f l.
Proof.
  induction l as [| x l IH]; intros H; [reflexivity |].
  simpl. rewrite (H x (or_introl eq_refl)), IH; [reflexivity |].
  intros q Hq. apply H. right. exact Hq.
Qed.

Lemma filter_length_change (f f' : coord -> bool) (p0 : coord) : forall l,
  List.NoDup l -> In p0 l -> (forall q, In q l -> q <> p0 -> f' q = f q) ->
  Z.of_nat (length (List.filter f' l)) + Z.b2z (f p0)
  = Z.of_nat (length (List.filter f l)) + Z.b2z (f' p0).
Proof.
  induction l as [| x l IH]; intros Hnd Hin Hagree; [destruct Hin |].
  inversion Hnd as [| ? ? Hx Hnd']; subst.
  destruct (decide (x = p0)) as [-> | Hne].
  - simpl.
    rewrite (filter_ext_in_list f f' l).
    + destruct (f p0), (f' p0); simpl length; simpl Z.b2z; lia.
    + intros q Hq. apply Hagree; [right; exact Hq |]. intros ->. contradiction.
  - destruct Hin as [Hin | Hin]; [contradiction |].
    assert (IH' := IH Hnd' Hin (fun q Hq => Hagree q (or_intror Hq))).
    simpl. rewrite (Hagree x (or_introl eq_refl) Hne).
    destruct (f x); simpl length; lia.
Qed.

Lemma count_cells_set_cell b r c v m :
  board_shape b = true -> on_board r c = true ->
  count_cells (set_cell b r c v) m
  = count_cells b m - Z.b2z (Ascii.eqb (cell b r c) m) + Z.b2z (Ascii.eqb v m).
Proof.
  intros Hs Hon. unfold count_cells.
  pose proof Hon as Hon'. apply on_board_spec in Hon'.
  pose proof (filter_length_change
    (fun p => Ascii.eqb (cell b (fst p) (snd p)) m)
    (fun p => Ascii.eqb (cell (set_cell b r c v) (fst p) (snd p)) m)
    (r, c) all_cells all_cells_NoDup (proj2 (in_all_cells r c) Hon)) as H.
  cbn beta in H. simpl fst in H. simpl snd in H.
  rewrite cell_set_cell_eq in H by (assumption || lia).
  assert (Hagree : forall q : coord, In q all_cells -> q <> (r, c) ->
            Ascii.eqb (cell (set_cell b r c v) (fst q) (snd q)) m
            = Ascii.eqb (cell b (fst q) (snd q)) m).
  { intros [qr qc] Hq Hne. simpl.
    apply in_all_cells, on_board_spec in Hq.
    rewrite cell_set_cell_ne; try lia; [reflexivity |].
    intros Heq. apply Hne. symmetry. exact Heq. }
  specialize (H Hagree). lia.
Qed.

Lemma count_cells_set_cells mk opp : forall fl b,
  board_shape b = true -> all_on_board fl -> List.NoDup fl ->
  (forall q, In q fl -> cell b (fst q) (snd q) = opp) -> mk <> opp ->
  count_cells (set_cells b fl mk) mk
  = count_cells b mk + Z.of_nat (length fl) /\
  count_cells (set_cells b fl mk) opp
  = count_cells b opp - Z.of_nat (length fl).
Proof.
  induction fl as [| p fl IH]; intros b Hs Hall Hnd Hopp Hne; [simpl; lia |].
  inversion Hnd as [| ? ? Hp Hnd']; subst.
  assert (Hpon : on_board (fst p) (snd p) = true)
    by (apply Hall; left; reflexivity).
  cbn [set_cells foldl]. fold (set_cells (set_cell b (fst p) (snd p) mk) fl mk).
  destruct (IH (set_cell b (fst p) (snd p) mk)) as [H1 H2]; try assumption.
  - apply board_shape_set_cell. exact Hs.
  - intros q Hq. apply Hall. right. exact Hq.
  - intros q Hq.
    assert (Hqon : on_board (fst q) (snd q) = true)
      by (apply Hall; right; exact Hq).
    apply on_board_spec in Hqon. pose proof Hpon as Hpon'.
    apply on_board_spec in Hpon'.
    rewrite cell_set_cell_ne; try lia.
    + apply Hopp. right. exact Hq.
    + destruct p, q. simpl. intros Heq. apply Hp. rewrite Heq. exact Hq.
  - rewrite H1, H2, !count_cells_set_cell by assumption.
    rewrite (Hopp p (or_introl eq_refl)).
    rewrite !Ascii.eqb_refl.
    replace (Ascii.eqb opp mk) with false
      by (symmetry; apply Ascii.eqb_neq; congruence).
    replace (Ascii.eqb mk opp) with false
      by (symmetry; apply Ascii.eqb_neq; congruence).
    rewrite length_cons. simpl Z.b2z. lia.
Qed.

(** ** The flips of a move on a board of the data model *)

Lemma flips_facts b mk row col :
  on_board row col = true ->
  all_on_board (flips b mk row col) /\
  List.NoDup (flips b mk row col) /\
  ~ In (row, col) (flips b mk row col) /\
  (forall q, In q (flips b mk row col) ->
     cell b (fst q) (snd q) <> " "%char /\ cell b (fst q) (snd q) <> mk).
Proof.
  intros Hon. unfold flips. repeat split.
  - apply flat_line_flips_all_on_board; auto.
  - apply flat_line_flips_NoDup; auto. apply vector_NoDup.
  - intros Hin.
    destruct (in_flat_line_flips b mk row col vector _ Hon (fun v H => H) Hin)
      as [_ [_ [_ [_ Hne]]]]. congruence.
  - apply (in_flat_line_flips b mk row col vector q Hon (fun v H => H) H).
  - apply (in_flat_line_flips b mk row col vector q Hon (fun v H => H) H).
Qed.

Lemma flips_opponent g p row col q :
  markers_ok g = true -> three_state g = true -> on_board row col = true ->
  In q (flips (board g) (marker (pdata g p)) row col) ->
  cell (board g) (fst q) (snd q) = marker (pdata g (opponent p)).
Proof.
  intros Hm Ht Hon Hq.
  destruct (flips_facts (board g) (marker (pdata g p)) row col Hon)
    as [Hall [_ [_ Hcells]]].
  apply (foreign_is_opponent g p); try assumption.
  - apply Hall. exact Hq.
  - apply Hcells. exact Hq.
Qed.

(** The board after a move that flips [fl]. *)
Lemma cell_after_move_changed b fl mk row col r c :
  board_shape b = true -> on_board row col = true -> all_on_board fl ->
  (r, c) = (row, col) \/ In (r, c) fl ->
  cell (set_cell (set_cells b fl mk) row col mk) r c = mk.
Proof.
  intros Hs Hon Hall Hrc. pose proof Hon as Hon'. apply on_board_spec in Hon'.
  destruct (decide ((r, c) = (row, col))) as [Heq | Hne].
  - injection Heq as -> ->.
    apply cell_set_cell_eq; try lia.
    apply board_shape_set_cells. exact Hs.
  - destruct Hrc as [Hrc | Hrc]; [contradiction |].
    assert (Hq : on_board r c = true) by (apply (Hall (r, c)); exact Hrc).
    apply on_board_spec in Hq.
    rewrite cell_set_cell_ne; try lia.
    + apply cell_set_cells_in; assumption.
    + intros Heq. apply Hne. symmetry. exact Heq.
Qed.

Lemma cell_after_move_same b fl mk row col r c :
  on_board row col = true -> all_on_board fl ->
  0 <= r -> 0 <= c -> (r, c) <> (row, col) -> ~ In (r, c) fl ->
  cell (set_cell (set_cells b fl mk) row col mk) r c = cell b r c.
Proof.
  intros Hon Hall Hr Hc Hne Hnin. apply on_board_spec in Hon.
  rewrite cell_set_cell_ne; try lia.
  - apply cell_set_cells_notin; assumption.
  - intros Heq. apply Hne. symmetry. exact Heq.
Qed.

Lemma marker_set_count g p n q :
  marker (pdata (set_count g p n) q) = marker (pdata g q).
Proof. destruct p, q; reflexivity. Qed.

Lemma board_set_count g p n : board (set_count g p n) = board g.
Proof. destruct p; reflexivity. Qed.

Lemma opponent_involutive p : opponent (opponent p) = p.
Proof. destruct p; reflexivity. Qed.

Lemma opponent_neq p : opponent p <> p.
Proof. destruct p; discriminate. Qed.

(** What [move_result] leaves when the move flips something. *)
Lemma move_result_flipping row col player g :
  flips (board g) (marker (pdata g player)) row col <> [] ->
  let mk := marker (pdata g player) in
  let fl := flips (board g) mk row col in
  let n := Z.of_nat (length fl) in
  let g' := snd (move_result row col player g) in
  fst (move_result row col player g)
  = {| heur := h_func row col + weight fl; changes := fl; num_changed := n |} /\
  board g' = set_cell (set_cells (board g) fl mk) row col mk /\
  (forall q, marker (pdata g' q) = marker (pdata g q)) /\
  (forall q, type (pdata g' q) = type (pdata g q)) /\
  count (pdata g' player) = u32 (count (pdata g player) + (n + 1)) /\
  count (pdata g' (opponent player))
  = u32 (count (pdata g (opponent player)) - n).
Proof.
  intros Hne. unfold move_result.
  destruct (flips (board g) (marker (pdata g player)) row col) as [| p fl] eqn:E;
    [contradiction |].
  cbv zeta. cbn [fst snd].
  split; [reflexivity |].
  destruct g as [b [mx cx tx] [mo co to]]. destruct player; cbn.
  - repeat split; intros []; reflexivity.
  - repeat split; intros []; reflexivity.
Qed.

Lemma move_result_idle row col player g :
  flips (board g) (marker (pdata g player)) row col = [] ->
  move_result row col player g
  = ({| heur := 0; changes := []; num_changed := 0 |}, g).
Proof. intros E. unfold move_result. rewrite E. reflexivity. Qed.

(** ** Taking a move back *)

Lemma game_ext g1 g2 :
  board g1 = board g2 ->
  (forall q, marker (pdata g1 q) = marker (pdata g2 q)) ->
  (forall q, count (pdata g1 q) = count (pdata g2 q)) ->
  (forall q, type (pdata g1 q) = type (pdata g2 q)) ->
  g1 = g2.
Proof.
  intros Hb Hm Hc Ht.
  destruct g1 as [b1 [m1 c1 t1] [m1' c1' t1']],
           g2 as [b2 [m2 c2 t2] [m2' c2' t2']].
  simpl in Hb.
  pose proof (Hm X_DATA) as Hmx. pose proof (Hm O_DATA) as Hmo.
  pose proof (Hc X_DATA) as Hcx. pose proof (Hc O_DATA) as Hco.
  pose proof (Ht X_DATA) as Htx. pose proof (Ht O_DATA) as Hto.
  simpl in *. congruence.
Qed.

Lemma undo_effect_fields i j player chg n g :
  let u := undo_effect i j player chg n g in
  board u
  = set_cells (set_cell (board g) i j " "%char) (firstn (Z.to_nat n) chg)
      (marker (pdata g (opponent player))) /\
  (forall q, marker (pdata u q) = marker (pdata g q)) /\
  (forall q, type (pdata u q) = type (pdata g q)) /\
  count (pdata u player) = u32 (count (pdata g player) - u32 (n + 1)) /\
  count (pdata u (opponent player))
  = u32 (count (pdata g (opponent player)) + n).
Proof.
  destruct g as [b [mx cx tx] [mo co to]].
  destruct player; cbn; repeat split; intros []; reflexivity.
Qed.

Lemma both_players (P : player_ref -> Prop) player :
  P player -> P (opponent player) -> forall q, P q.
Proof. intros H1 H2 q. destruct player, q; assumption. Qed.

(** The undo block of [best_move] after the move of the design
    document gives back the game. *)
Lemma undo_move_result row col player g :
  wf_game g = true -> on_board row col = true ->
  cell (board g) row col = " "%char ->
  flips (board g) (marker (pdata g player)) row col <> [] ->
  undo_effect row col player
    (changes (fst (move_result row col player g)))
    (num_changed (fst (move_result row col player g)))
    (snd (move_result row col player g))
  = g.
Proof.
  intros Hwf Hon Hempty Hne.
  apply wf_game_spec in Hwf as [Hs [Hm [Ht [Hcx Hco]]]].
  destruct (move_result_flipping row col player g Hne)
    as [Heff [Hb [Hmk [Hty [Hc1 Hc2]]]]].
  set (mk := marker (pdata g player)) in *.
  set (fl := flips (board g) mk row col) in *.
  set (g' := snd (move_result row col player g)) in *.
  rewrite Heff. cbn [changes num_changed].
  destruct (undo_effect_fields row col player fl (Z.of_nat (length fl)) g')
    as [Ub [Um [Ut [Uc1 Uc2]]]].
  destruct (flips_facts (board g) mk row col Hon) as [Hall [Hnd [Hstart Hcells]]].
  fold fl in Hall, Hnd, Hstart, Hcells.
  pose proof (flips_length (board g) mk row col Hon) as Hlen. fold fl in Hlen.
  assert (Hcount : forall q, 0 <= count (pdata g q) < 2 ^ 32).
  { intros []; simpl; apply is_u32_spec; assumption. }
  apply game_ext.
  - rewrite Ub, Hb, Hmk, Nat2Z.id, firstn_all.
    pose proof Hon as Hon'. apply on_board_spec in Hon'.
    apply board_ext; [| exact Hs |].
    { apply board_shape_set_cells, board_shape_set_cell,
        board_shape_set_cell, board_shape_set_cells. exact Hs. }
    intros r c Hr Hc.
    destruct (decide ((r, c) ∈ fl)) as [Hin | Hnin];
      rewrite list_elem_of_In in *.
    + rewrite cell_set_cells_in; try assumption.
      * symmetry. apply (flips_opponent g player row col (r, c)); assumption.
      * apply board_shape_set_cell, board_shape_set_cell,
          board_shape_set_cells. exact Hs.
    + rewrite cell_set_cells_notin; try assumption; try lia.
      destruct (decide ((r, c) = (row, col))) as [Heq | Hneq].
      * injection Heq as -> ->.
        rewrite cell_set_cell_eq; try lia; [symmetry; exact Hempty |].
        apply board_shape_set_cell, board_shape_set_cells. exact Hs.
      * rewrite cell_set_cell_ne; try lia.
        2:{ intros Heq. apply Hneq. symmetry. exact Heq. }
        apply cell_after_move_same; try assumption; lia.
  - intros q. rewrite Um. apply Hmk.
  - apply (both_players _ player).
    + rewrite Uc1, Hc1.
      rewrite (u32_small (Z.of_nat (length fl) + 1)) by lia.
      apply u32_add_sub. apply Hcount.
    + rewrite Uc2, Hc2. apply u32_sub_add. apply Hcount.
  - intros q. rewrite Ut. apply Hty.
Qed.

(** ** A move keeps the invariants of the data model *)

Lemma counts_consistent_spec g :
  counts_consistent g = true <->
  forall q, count (pdata g q) = count_cells (board g) (marker (pdata g q)).
Proof.
  unfold counts_consistent. rewrite andb_true_iff, !Z.eqb_eq. split.
  - intros [H1 H2] q. destruct q; [exact H1 | exact H2].
  - intros H. split; [exact (H X_DATA) | exact (H O_DATA)].
Qed.

Lemma count_cells_range b m : 0 <= count_cells b m <= 64.
Proof.
  unfold count_cells.
  pose proof (List.filter_length_le
    (fun p => Ascii.eqb (cell b (fst p) (snd p)) m) all_cells) as H.
  change (length all_cells) with 64%nat in H. lia.
Qed.

Lemma count_cells_after_move g player row col :
  wf_game g = true -> on_board row col = true ->
  cell (board g) row col = " "%char ->
  let mk := marker (pdata g player) in
  let opp := marker (pdata g (opponent player)) in
  let fl := flips (board g) mk row col in
  let b' := set_cell (set_cells (board g) fl mk) row col mk in
  count_cells b' mk = count_cells (board g) mk + Z.of_nat (length fl) + 1 /\
  count_cells b' opp = count_cells (board g) opp - Z.of_nat (length fl).
Proof.
  intros Hwf Hon Hempty mk opp fl b'.
  apply wf_game_spec in Hwf as [Hs [Hm [Ht _]]].
  destruct (markers_ok_player g player Hm) as [Hmk [Hopp Hdiff]].
  destruct (flips_facts (board g) mk row col Hon) as [Hall [Hnd [Hstart _]]].
  fold fl in Hall, Hnd, Hstart.
  destruct (count_cells_set_cells mk opp fl (board g)) as [H1 H2];
    try assumption.
  { intros q Hq. apply (flips_opponent g player row col q); assumption. }
  unfold b'.
  rewrite !count_cells_set_cell;
    try assumption; try (apply board_shape_set_cells; assumption).
  pose proof Hon as Hon'. apply on_board_spec in Hon'.
  rewrite cell_set_cells_notin; try assumption; try lia.
  rewrite Hempty, H1, H2, Ascii.eqb_refl.
  replace (Ascii.eqb " "%char mk) with false
    by (symmetry; apply Ascii.eqb_neq; fold mk in Hmk; congruence).
  replace (Ascii.eqb " "%char opp) with false
    by (symmetry; apply Ascii.eqb_neq; fold opp in Hopp; congruence).
  replace (Ascii.eqb mk opp) with false
    by (symmetry; apply Ascii.eqb_neq; exact Hdiff).
  simpl Z.b2z. lia.
Qed.

Lemma move_result_wf row col player g :
  wf_game g = true -> on_board row col = true ->
  wf_game (snd (move_result row col player g)) = true.
Proof.
  intros Hwf Hon.
  destruct (flips (board g) (marker (pdata g player)) row col) eqn:E.
  { rewrite move_result_idle by exact E. exact Hwf. }
  assert (Hne : flips (board g) (marker (pdata g player)) row col <> [])
    by (rewrite E; discriminate).
  clear E.
  destruct (move_result_flipping row col player g Hne)
    as [_ [Hb [Hmk [_ [Hc1 Hc2]]]]].
  set (g' := snd (move_result row col player g)) in *.
  set (mk := marker (pdata g player)) in *.
  set (fl := flips (board g) mk row col) in *.
  apply wf_game_spec in Hwf as [Hs [Hm [Ht _]]].
  destruct (flips_facts (board g) mk row col Hon) as [Hall _]. fold fl in Hall.
  assert (Hcnt : forall q, is_u32 (count (pdata g' q)) = true).
  { apply (both_players _ player); cbv beta;
      [rewrite Hc1 | rewrite Hc2]; apply is_u32_u32. }
  apply wf_game_spec. repeat split.
  - rewrite Hb. apply board_shape_set_cell, board_shape_set_cells. exact Hs.
  - unfold markers_ok in *.
    change (x_data g') with (pdata g' X_DATA).
    change (o_data g') with (pdata g' O_DATA).
    rewrite !Hmk. exact Hm.
  - unfold three_state. apply forallb_forall. intros [r c] Hrc. simpl.
    apply in_all_cells in Hrc. pose proof Hrc as Hrc'.
    apply on_board_spec in Hrc'.
    change (x_data g') with (pdata g' X_DATA).
    change (o_data g') with (pdata g' O_DATA).
    rewrite !Hmk, Hb.
    destruct (decide ((r, c) = (row, col))) as [Heq | Hneq].
    + rewrite cell_after_move_changed by auto.
      unfold mk. destruct player; simpl; rewrite Ascii.eqb_refl;
        rewrite ?orb_true_r; reflexivity.
    + destruct (decide ((r, c) ∈ fl)) as [Hin | Hnin];
        rewrite list_elem_of_In in *.
      * rewrite cell_after_move_changed by auto.
        unfold mk. destruct player; simpl; rewrite Ascii.eqb_refl;
          rewrite ?orb_true_r; reflexivity.
      * rewrite cell_after_move_same; try assumption; try lia.
        unfold three_state in Ht. rewrite forallb_forall in Ht.
        apply (Ht (r, c)). apply in_all_cells. exact Hrc.
  - exact (Hcnt X_DATA).
  - exact (Hcnt O_DATA).
Qed.

(** With consistent counts nothing wraps around: the counts after a
    move are the exact sums. *)
Lemma move_result_counts row col player g :
  wf_game g = true -> counts_consistent g = true ->
  on_board row col = true -> cell (board g) row col = " "%char ->
  flips (board g) (marker (pdata g player)) row col <> [] ->
  let n := Z.of_nat (length (flips (board g) (marker (pdata g player)) row col)) in
  let g' := snd (move_result row col player g) in
  count (pdata g' player) = count (pdata g player) + n + 1 /\
  count (pdata g' (opponent player)) = count (pdata g (opponent player)) - n /\
  counts_consistent g' = true.
Proof.
  intros Hwf Hcons Hon Hempty Hne n g'.
  destruct (move_result_flipping row col player g Hne)
    as [_ [Hb [Hmk [_ [Hc1 Hc2]]]]].
  destruct (count_cells_after_move g player row col Hwf Hon Hempty) as [K1 K2].
  fold g' in Hb, Hmk, Hc1, Hc2. fold n in Hc1, Hc2, K1, K2.
  rewrite <- Hb in K1, K2.
  pose proof (proj1 (counts_consistent_spec g) Hcons) as Hc.
  pose proof (count_cells_range (board g) (marker (pdata g player))).
  pose proof (count_cells_range (board g') (marker (pdata g (opponent player)))).
  pose proof (count_cells_range (board g) (marker (pdata g (opponent player)))).
  pose proof (count_cells_range (board g') (marker (pdata g player))).
  assert (0 <= n) by (unfold n; lia).
  assert (E1 : count (pdata g' player) = count (pdata g player) + n + 1).
  { rewrite Hc1, Hc, u32_small by lia. ring. }
  assert (E2 : count (pdata g' (opponent player))
               = count (pdata g (opponent player)) - n).
  { rewrite Hc2, Hc, u32_small by lia. ring. }
  split; [exact E1 |]. split; [exact E2 |].
  apply counts_consistent_spec.
  apply (both_players _ player).
  - rewrite E1, Hmk, K1, Hc. ring.
  - rewrite E2, Hmk, K2, Hc. ring.
Qed.

Lemma move_result_consistent row col player g :
  wf_game g = true -> counts_consistent g = true ->
  on_board row col = true -> cell (board g) row col = " "%char ->
  counts_consistent (snd (move_result row col player g)) = true.
Proof.
  intros Hwf Hcons Hon Hempty.
  destruct (flips (board g) (marker (pdata g player)) row col) eqn:E.
  - rewrite move_result_idle by exact E. exact Hcons.
  - apply move_result_counts; try assumption. rewrite E. discriminate.
Qed.

(** * The properties of the design document *)

(** ** Heuristic weights *)

(** C8.  The weight of a cell is the product of the weights of its row
    and column index, an index weighing 8 when it is 0 or 7 and 1
    otherwise; so the four corners weigh 64, the other edge cells 8
    and every other cell 1. *)
Theorem h_func_weights : forall r c : Z,
  h_func r c = idx_weight r * idx_weight c /\
  idx_weight r = (if is_end r then 8 else 1) /\
  idx_weight c = (if is_end c then 8 else 1) /\
  h_func r c = heuristic_weight r c /\
  h_func 0 0 = 64 /\ h_func 0 7 = 64 /\ h_func 7 0 = 64 /\ h_func 7 7 = 64.
Proof.
  intros r c. unfold h_func, heuristic_weight, idx_weight, is_end, BOARD_SIZE.
  change (8 - 1) with 7.
  repeat split;
    destruct ((r =? 0) || (r =? 7)), ((c =? 0) || (c =? 7)); reflexivity.
Qed.

(** ** The effect calculator *)

(** C4.  The eight directions are the unit vectors other than (0,0).
    The flips of [compute_effect] are, direction by direction, the
    cells collected on the board of entry: in a direction where a run
    of [n] opponent cells is closed by a cell of the mover, exactly
    that run (and it ends up owned by the mover); in a direction where
    no run is closed by a cell of the mover (the walk meets the edge
    or an empty cell), nothing; and never more than 6 cells. *)
Theorem directional_flips g player row col :
  wf_game g = true -> on_board row col = true ->
  cell (board g) row col = " "%char ->
  let mover := marker (pdata g player) in
  let opp := marker (pdata g (opponent player)) in
  (forall dr dc, In (dr, dc) vector <->
     (-1 <= dr <= 1 /\ -1 <= dc <= 1 /\ (dr, dc) <> (0, 0))) /\
  exists eff g',
    compute_effect row col player g = Some (eff, g') /\
    changes eff = flat_map (line_flips (board g) mover row col) vector /\
    forall v, In v vector ->
      (forall n, opponent_run (board g) opp row col (fst v) (snd v) n ->
                 mover_closes (board g) mover row col (fst v) (snd v) n ->
                 line_flips (board g) mover row col v
                 = ray row col (fst v) (snd v) n) /\
      ((forall n, ~ (opponent_run (board g) opp row col (fst v) (snd v) n /\
                     mover_closes (board g) mover row col (fst v) (snd v) n)) ->
       line_flips (board g) mover row col v = []) /\
      (forall q, In q (line_flips (board g) mover row col v) ->
                 cell (board g) (fst q) (snd q) = opp /\
                 cell (board g') (fst q) (snd q) = mover) /\
      (length (line_flips (board g) mover row col v) <= 6)%nat.
Proof.
  intros Hwf Hon Hempty mover opp.
  split; [apply vector_unit_vectors |].
  pose proof Hwf as Hwf'.
  apply wf_game_spec in Hwf' as [Hs [Hm [Ht _]]].
  exists (fst (move_result row col player g)),
         (snd (move_result row col player g)).
  split; [rewrite compute_effect_move_result by assumption;
          destruct (move_result row col player g); reflexivity |].
  assert (Hch : changes (fst (move_result row col player g))
                = flips (board g) mover row col).
  { destruct (flips (board g) mover row col) eqn:E.
    - rewrite move_result_idle by exact E. reflexivity.
    - destruct (move_result_flipping row col player g) as [Heff _].
      + fold mover. rewrite E. discriminate.
      + rewrite Heff. cbn [changes]. fold mover. exact E. }
  split; [exact Hch |].
  intros v Hv.
  destruct (markers_ok_player g player Hm) as [Hmk _].
  destruct (line_flips_cases (board g) mover row col v Hon Hv)
    as [[n [Hl Hbr]] | [Hl Hbr]].
  - repeat split.
    + intros n' Hrun Hcl.
      assert (Hbr' : bracket (board g) mover row col (fst v) (snd v) 0 n')
        by (apply (bracket_iff_run g player); auto).
      rewrite Hl. f_equal.
      (* a closed run has one length only *)
      destruct Hbr as [R1 [_ C1]], Hbr' as [R2 [_ C2]].
      destruct (Nat.lt_trichotomy n n') as [Hlt | [Heq | Hgt]]; [| exact Heq |].
      * destruct (R2 (0 + Z.of_nat n + 1)) as [_ [_ Hx]]; [lia | congruence].
      * destruct (R1 (0 + Z.of_nat n' + 1)) as [_ [_ Hx]]; [lia | congruence].
    + intros Hnone. exfalso. apply (Hnone n).
      apply (bracket_iff_run g player); auto.
    + apply (flips_opponent g player row col q); try assumption.
      unfold flips. apply in_flat_map. exists v. split; assumption.
    + assert (Hq : In q (flips (board g) mover row col)).
      { unfold flips. apply in_flat_map. exists v. split; assumption. }
      destruct (move_result_flipping row col player g) as [_ [Hb _]].
      { fold mover. intros E. rewrite E in Hq. destruct Hq. }
      rewrite Hb. fold mover. destruct q as [qr qc].
      apply cell_after_move_changed; try assumption.
      * apply (flips_facts (board g) mover row col Hon).
      * right. exact Hq.
    + pose proof (line_flips_room (board g) mover row col v Hon Hv).
      pose proof (room_le_6 row col v Hon Hv). lia.
  - rewrite Hl. split; [| split; [| split]].
    + intros n' Hrun Hcl. exfalso. apply (Hbr Hmk n').
      apply (bracket_iff_run g player); auto.
    + reflexivity.
    + intros q [].
    + simpl. lia.
Qed.

Lemma directional_flips_witness :
  exists eff g',
    compute_effect 2 4 X_DATA start_game = Some (eff, g') /\
    changes eff = flat_map (line_flips start_board "X"%char 2 4) vector.
Proof.
  destruct (directional_flips start_game X_DATA 2 4)
    as [_ [eff [g' [H1 [H2 _]]]]];
    [vm_compute; reflexivity | vm_compute; reflexivity
    | vm_compute; reflexivity |].
  exists eff, g'. split; [exact H1 | exact H2].
Defined.

Lemma compute_effect_inv row col player g eff g' :
  board_shape (board g) = true -> on_board row col = true ->
  compute_effect row col player g = Some (eff, g') ->
  eff = fst (move_result row col player g) /\
  g' = snd (move_result row col player g).
Proof.
  intros Hs Hon H. rewrite compute_effect_move_result in H by assumption.
  injection H as H. rewrite H. split; reflexivity.
Qed.

Lemma move_result_num_changed row col player g :
  changes (fst (move_result row col player g))
  = flips (board g) (marker (pdata g player)) row col /\
  num_changed (fst (move_result row col player g))
  = Z.of_nat (length (flips (board g) (marker (pdata g player)) row col)).
Proof.
  unfold move_result.
  destruct (flips (board g) (marker (pdata g player)) row col);
    split; reflexivity.
Qed.

(** C5 (amended).  A move that flips [n >= 1] cells leaves every
    flipped cell and the placed cell owned by the mover, adds [n + 1]
    to the mover's count, takes [n] from the opponent's count, so that
    the two counts together grow by exactly 1 (the placed marker), and
    returns the weight of the placed cell plus the weights of the
    flipped cells. *)
Theorem apply_flips_and_counts g player row col eff g' :
  wf_game g = true -> counts_consistent g = true ->
  on_board row col = true -> cell (board g) row col = " "%char ->
  compute_effect row col player g = Some (eff, g') ->
  1 <= num_changed eff ->
  let n := num_changed eff in
  n = Z.of_nat (length (changes eff)) /\
  (forall q, In q (changes eff) ->
     cell (board g') (fst q) (snd q) = marker (pdata g player)) /\
  cell (board g') row col = marker (pdata g player) /\
  count (pdata g' player) = count (pdata g player) + (n + 1) /\
  count (pdata g' (opponent player)) = count (pdata g (opponent player)) - n /\
  count (x_data g') + count (o_data g')
  = count (x_data g) + count (o_data g) + 1 /\
  heur eff = h_func row col + weight (changes eff).
Proof.
  intros Hwf Hcons Hon Hempty Hce Hn n.
  pose proof Hwf as Hwf'. apply wf_game_spec in Hwf' as [Hs _].
  destruct (compute_effect_inv row col player g eff g' Hs Hon Hce) as [-> ->].
  destruct (move_result_num_changed row col player g) as [Hch Hnum].
  subst n. rewrite Hnum in Hn.
  assert (Hne : flips (board g) (marker (pdata g player)) row col <> []).
  { intros E. rewrite E in Hn. simpl in Hn. lia. }
  destruct (move_result_flipping row col player g Hne)
    as [Heff [Hb _]].
  destruct (move_result_counts row col player g Hwf Hcons Hon Hempty Hne)
    as [C1 [C2 _]].
  destruct (flips_facts (board g) (marker (pdata g player)) row col Hon)
    as [Hall _].
  rewrite Hch, Hnum. repeat split.
  - intros [qr qc] Hq. rewrite Hb.
    apply cell_after_move_changed; auto.
  - rewrite Hb. apply cell_after_move_changed; auto.
  - rewrite C1. ring.
  - exact C2.
  - change (x_data (snd (move_result row col player g)))
      with (pdata (snd (move_result row col player g)) X_DATA).
    change (o_data (snd (move_result row col player g)))
      with (pdata (snd (move_result row col player g)) O_DATA).
    change (x_data g) with (pdata g X_DATA).
    change (o_data g) with (pdata g O_DATA).
    destruct player; simpl opponent in C2; rewrite C1, C2; ring.
  - rewrite Heff. reflexivity.
Qed.

Lemma apply_flips_and_counts_witness :
  count (pdata (snd (move_result 2 4 X_DATA start_game)) X_DATA) = 2 + (1 + 1) /\
  2 = h_func 2 4 + weight [(3, 4)].
Proof.
  destruct (apply_flips_and_counts start_game X_DATA 2 4
              {| heur := 2; changes := [(3, 4)]; num_changed := 1 |}
              (snd (move_result 2 4 X_DATA start_game)))
    as [_ [_ [_ [H1 [_ [_ H2]]]]]];
    [vm_compute; reflexivity | vm_compute; reflexivity
    | vm_compute; reflexivity | vm_compute; reflexivity
    | vm_compute; reflexivity | vm_compute; discriminate |].
  split; [exact H1 | exact H2].
Defined.

(** The claim as first stated has the two counts together grow by
    [n + 1]; at the first move of the game [n = 1] and they grow from
    4 to 5. *)
Lemma combined_count_counterexample :
  exists eff g',
    compute_effect 2 4 X_DATA start_game = Some (eff, g') /\
    num_changed eff = 1 /\
    count (x_data g') + count (o_data g')
    <> count (x_data start_game) + count (o_data start_game)
       + (num_changed eff + 1).
Proof.
  exists (fst (move_result 2 4 X_DATA start_game)),
         (snd (move_result 2 4 X_DATA start_game)).
  split; [vm_compute; reflexivity |].
  split; [vm_compute; reflexivity |].
  vm_compute. discriminate.
Qed.

(** C6.  A move on an empty cell that flips nothing in any direction
    changes neither the board nor the counts, has score 0, and comes
    back as an ordinary result with [num_changed = 0]; no assertion
    fails. *)
Theorem zero_yield_no_effect g player row col :
  board_shape (board g) = true -> on_board row col = true ->
  cell (board g) row col = " "%char ->
  (forall v, In v vector ->
     line_flips (board g) (marker (pdata g player)) row col v = []) ->
  compute_effect row col player g
  = Some ({| heur := 0; changes := []; num_changed := 0 |}, g).
Proof.
  intros Hs Hon _ Hnone.
  rewrite compute_effect_move_result by assumption.
  rewrite move_result_idle; [reflexivity |].
  unfold flips. induction vector as [| v vs IH]; [reflexivity |].
  simpl. rewrite (Hnone v (or_introl eq_refl)). simpl.
  apply IH. intros w Hw. apply Hnone. right. exact Hw.
Qed.

Lemma zero_yield_no_effect_witness :
  compute_effect 2 3 X_DATA start_game
  = Some ({| heur := 0; changes := []; num_changed := 0 |}, start_game).
Proof.
  apply (zero_yield_no_effect start_game X_DATA 2 3);
    [vm_compute; reflexivity | vm_compute; reflexivity
    | vm_compute; reflexivity |].
  intros v Hv. apply vector_cases in Hv.
  repeat (destruct Hv as [-> | Hv]); try subst v; vm_compute; reflexivity.
Defined.



(** C1.  On a board of the data model, applying a move that flips at
    least one cell and then running the undo block with the flips that
    the move returned gives back the board and both counts. *)
Theorem apply_undo_inverse g player row col eff g' :
  wf_game g = true -> on_board row col = true ->
  cell (board g) row col = " "%char ->
  compute_effect row col player g = Some (eff, g') ->
  1 <= num_changed eff ->
  undo_effect row col player (changes eff) (num_changed eff) g' = g.
Proof.
  intros Hwf Hon Hempty Hce Hn.
  pose proof Hwf as Hwf'. apply wf_game_spec in Hwf' as [Hs _].
  destruct (compute_effect_inv row col player g eff g' Hs Hon Hce) as [-> ->].
  apply undo_move_result; try assumption.
  destruct (move_result_num_changed row col player g) as [_ Hnum].
  rewrite Hnum in Hn. intros E. rewrite E in Hn. simpl in Hn. lia.
Qed.

Lemma apply_undo_inverse_witness :
  undo_effect 2 4 X_DATA [(3, 4)] 1 (snd (move_result 2 4 X_DATA start_game))
  = start_game.
Proof.
  apply (apply_undo_inverse start_game X_DATA 2 4
           {| heur := 2; changes := [(3, 4)]; num_changed := 1 |}
           (snd (move_result 2 4 X_DATA start_game)));
    [vm_compute; reflexivity | vm_compute; reflexivity
    | vm_compute; reflexivity | vm_compute; reflexivity
    | vm_compute; discriminate].
Defined.

(** * The search *)

(** ** The loops as one pass over the cells *)

Lemma run_list_done {A} (body : A -> loop_state -> outcome loop_state) l ls :
  done ls = true -> run_list body l ls = Done ls.
Proof. intros H. destruct l; simpl; [reflexivity | rewrite H; reflexivity]. Qed.

Lemma run_list_app {A} (body : A -> loop_state -> outcome loop_state) l1 l2 ls :
  run_list body (l1 ++ l2) ls
  = match run_list body l1 ls with
    | Done ls' => run_list body l2 ls'
    | AssertFail => AssertFail
    | OutOfFuel => OutOfFuel
    end.
Proof.
  revert ls. induction l1 as [| x l1 IH]; intros ls; [reflexivity |].
  simpl. destruct (done ls) eqn:E.
  - rewrite run_list_done by exact E. reflexivity.
  - destruct (body x ls); [apply IH | reflexivity | reflexivity].
Qed.

Lemma run_list_map {A B} (f : A -> B)
    (body : B -> loop_state -> outcome loop_state) l ls :
  run_list body (map f l) ls = run_list (fun x => body (f x)) l ls.
Proof.
  revert ls. induction l as [| x l IH]; intros ls; [reflexivity |].
  simpl. destruct (done ls); [reflexivity |].
  destruct (body (f x) ls); [apply IH | reflexivity | reflexivity].
Qed.

Lemma for_loop_run_list body : forall n i ls,
  for_loop n i body ls = run_list body (seqZ i (Z.of_nat n)) ls.
Proof.
  induction n as [| n IH]; intros i ls.
  - rewrite seqZ_nil by lia. reflexivity.
  - rewrite seqZ_cons by lia. cbn [for_loop run_list].
    destruct (done ls); [reflexivity |].
    destruct (body i ls); try reflexivity.
    rewrite IH. f_equal. f_equal; lia.
Qed.

Lemma run_list_rows (body : Z -> Z -> loop_state -> outcome loop_state)
    (cols : list Z) : forall rows ls,
  run_list (fun i => run_list (body i) cols) rows ls
  = run_list (fun p => body (fst p) (snd p))
      (flat_map (fun i => map (fun j => (i, j)) cols) rows) ls.
Proof.
  induction rows as [| i rows IH]; intros ls; [reflexivity |].
  cbn [flat_map]. rewrite run_list_app, run_list_map. cbn [run_list fst snd].
  destruct (done ls) eqn:E.
  - rewrite run_list_done by exact E. rewrite run_list_done by exact E.
    reflexivity.
  - destruct (run_list (body i) cols ls); try reflexivity. apply IH.
Qed.

(** The nested loops of [best_move] are a pass over [all_cells]. *)
Lemma loops_run_list (body : Z -> Z -> loop_state -> outcome loop_state) ls :
  for_loop (Z.to_nat BOARD_SIZE) 0
    (fun i => for_loop (Z.to_nat BOARD_SIZE) 0 (body i)) ls
  = run_list (fun p => body (fst p) (snd p)) all_cells ls.
Proof.
  rewrite for_loop_run_list.
  replace (fun i => for_loop (Z.to_nat BOARD_SIZE) 0 (body i))
    with (fun i => run_list (body i) (seqZ 0 (Z.of_nat (Z.to_nat BOARD_SIZE)))).
  - rewrite run_list_rows. reflexivity.
  - reflexivity.
Qed.

(** ** One trial *)

Lemma legal_spec g player i j :
  board_shape (board g) = true -> on_board i j = true ->
  legal g player (i, j) = true <->
  (cell (board g) i j = " "%char /\
   flips (board g) (marker (pdata g player)) i j <> []).
Proof.
  intros Hs Hon. unfold legal. cbn [fst snd].
  rewrite compute_effect_move_result by assumption.
  destruct (move_result_num_changed i j player g) as [_ Hnum].
  destruct (move_result i j player g) as [eff g'] eqn:E. cbn [fst] in Hnum.
  rewrite andb_true_iff, Ascii.eqb_eq, negb_true_iff, Z.eqb_neq, Hnum.
  split; intros [H1 H2]; (split; [exact H1 |]).
  - intros E0. rewrite E0 in H2. apply H2. reflexivity.
  - destruct (flips _ _ _ _); [contradiction | simpl; lia].
Qed.

Lemma loop_state_eta ls :
  {| ls_state := {| s_game := s_game (ls_state ls);
                    local_heap := local_heap (ls_state ls);
                    rand_calls := rand_calls (ls_state ls) |};
     done := done ls; max_effect := max_effect ls;
     best_moves := best_moves ls; chain_ptr := chain_ptr ls |} = ls.
Proof. destruct ls as [[g h r] d m b c]. reflexivity. Qed.

(** The three ways through the loop body: the cell is occupied, the
    move flips nothing (both leave every local and the state as they
    are), or the move is tried, judged and taken back. *)
Lemma try_cell_cases recurse player ply max_ply prev bs i j ls :
  board_shape (board (s_game (ls_state ls))) = true -> on_board i j = true ->
  try_cell recurse player ply max_ply prev bs i j ls
  = if legal (s_game (ls_state ls)) player (i, j) then
      match reply recurse player ply max_ply
              (fst (move_result i j player (s_game (ls_state ls))))
              (snd (move_result i j player (s_game (ls_state ls)))) ls with
      | Done t =>
          Done (select player ply prev bs i j
                  (fst (move_result i j player (s_game (ls_state ls)))) t ls)
      | AssertFail => AssertFail
      | OutOfFuel => OutOfFuel
      end
    else Done ls.
Proof.
  intros Hs Hon. unfold try_cell, legal. cbn [fst snd].
  rewrite compute_effect_move_result by assumption.
  destruct (Ascii.eqb (cell (board (s_game (ls_state ls))) i j) " "%char);
    cbn [negb andb]; [| reflexivity].
  destruct (move_result_num_changed i j player (s_game (ls_state ls)))
    as [_ Hnum].
  destruct (move_result i j player (s_game (ls_state ls))) as [eff g1] eqn:E.
  cbn [fst snd] in *.
  destruct (num_changed eff =? 0) eqn:E0; cbn [negb]; [| reflexivity].
  apply Z.eqb_eq in E0. rewrite Hnum in E0.
  assert (Hfl : flips (board (s_game (ls_state ls)))
                  (marker (pdata (s_game (ls_state ls)) player)) i j = []).
  { destruct (flips _ _ _ _); [reflexivity | simpl in E0; lia]. }
  rewrite move_result_idle in E by exact Hfl. injection E as _ <-.
  rewrite loop_state_eta. reflexivity.
Qed.

Lemma run_list_invariant {A} (P : loop_state -> Prop)
    (body : A -> loop_state -> outcome loop_state) : forall l ls ls',
  (forall x s s', In x l -> P s -> body x s = Done s' -> P s') ->
  P ls -> run_list body l ls = Done ls' -> P ls'.
Proof.
  induction l as [| x l IH]; intros ls ls' Hbody HP Hrun.
  - simpl in Hrun. injection Hrun as <-. exact HP.
  - simpl in Hrun. destruct (done ls).
    + injection Hrun as <-. exact HP.
    + destruct (body x ls) as [s1 | |] eqn:E; try discriminate.
      apply (IH s1 ls'); [| | exact Hrun].
      * intros y s s' Hy. apply Hbody. right. exact Hy.
      * apply (Hbody x ls s1); [left; reflexivity | exact HP | exact E].
Qed.

Lemma in_all_cells_pair p : In p all_cells -> on_board (fst p) (snd p) = true.
Proof. destruct p as [r c]. apply in_all_cells. Qed.

(** ** [best_move] gives the game back *)

Section Restore.

Variable rand : nat -> Z.
Variable recurse :
  player_ref -> Z -> Z -> Z -> Z -> search_state -> outcome search_result.
Hypothesis recurse_restores : forall q ply' mp pv bsib st res,
  wf_game (s_game st) = true ->
  recurse q ply' mp pv bsib st = Done res -> s_game (final res) = s_game st.

Lemma reply_state player ply max_ply eff g1 ls t :
  wf_game g1 = true ->
  reply recurse player ply max_ply eff g1 ls = Done t ->
  s_game (t_state t) = g1.
Proof using recurse_restores.
  intros Hwf. unfold reply.
  destruct ((ply <? max_ply) && _).
  - destruct (recurse _ _ _ _ _ _) as [res | |] eqn:E; try discriminate.
    destruct (INIT_MAX_EFFECT <? _); [| discriminate].
    intros H. injection H as <-. cbn [t_state].
    refine (recurse_restores _ _ _ _ _ _ _ _ E). exact Hwf.
  - intros H. injection H as <-. reflexivity.
Qed.

Lemma try_cell_restores player ply max_ply prev bs i j ls ls' :
  wf_game (s_game (ls_state ls)) = true -> on_board i j = true ->
  try_cell recurse player ply max_ply prev bs i j ls = Done ls' ->
  s_game (ls_state ls') = s_game (ls_state ls).
Proof using recurse_restores.
  intros Hwf Hon. pose proof Hwf as Hwf'.
  apply wf_game_spec in Hwf' as [Hs _].
  rewrite try_cell_cases by assumption.
  destruct (legal (s_game (ls_state ls)) player (i, j)) eqn:El.
  2:{ intros H. injection H as <-. reflexivity. }
  apply legal_spec in El as [Hempty Hne]; try assumption.
  destruct (reply _ _ _ _ _ _ _) as [t | |] eqn:Er; try discriminate.
  intros H. injection H as <-. unfold select. cbn [ls_state s_game].
  rewrite (reply_state _ _ _ _ _ _ _ (move_result_wf i j player _ Hwf Hon) Er).
  apply undo_move_result; assumption.
Qed.

Lemma best_move_body_restores player ply max_ply prev bs want st res :
  wf_game (s_game st) = true ->
  best_move_body rand recurse player ply max_ply prev bs want st = Done res ->
  s_game (final res) = s_game st.
Proof using recurse_restores.
  intros Hwf. unfold best_move_body. rewrite loops_run_list.
  fold (loop_start st).
  destruct (run_list _ all_cells (loop_start st)) as [ls | |] eqn:E;
    try discriminate.
  intros H. injection H as <-.
  assert (Hg : s_game (ls_state ls) = s_game st).
  { apply (run_list_invariant
             (fun s => s_game (ls_state s) = s_game st) _ _ _ _) in E;
      [exact E | | reflexivity].
    intros p s s' Hp Hs Hbody. rewrite <- Hs.
    apply (try_cell_restores player ply max_ply prev bs (fst p) (snd p));
      [rewrite Hs; exact Hwf | apply in_all_cells_pair; exact Hp | exact Hbody]. }
  unfold finish. destruct (negb want); [exact Hg |].
  destruct (_ =? _)%nat; exact Hg.
Qed.

End Restore.

Lemma best_move_rec_restores rand : forall fuel want player ply max_ply prev bs st res,
  wf_game (s_game st) = true ->
  best_move_rec rand fuel want player ply max_ply prev bs st = Done res ->
  s_game (final res) = s_game st.
Proof.
  induction fuel as [| fuel IH]; intros want player ply max_ply prev bs st res Hwf H;
    cbn [best_move_rec] in H.
  - apply (best_move_body_restores rand _) in H; [exact H | | exact Hwf].
    intros; discriminate.
  - apply (best_move_body_restores rand _) in H; [exact H | | exact Hwf].
    intros q ply' mp pv bsib st' res' Hwf' H'.
    refine (IH _ _ _ _ _ _ _ _ _ H'). exact Hwf'.
Qed.

(** ** The recursion never exceeds its bound *)

Lemma run_list_fuel {A} (body : A -> loop_state -> outcome loop_state) :
  forall l ls,
  (forall x s, body x s <> OutOfFuel) -> run_list body l ls <> OutOfFuel.
Proof.
  induction l as [| x l IH]; intros ls Hbody; [discriminate |].
  simpl. destruct (done ls); [discriminate |].
  destruct (body x ls) eqn:E; [apply IH; exact Hbody | discriminate |].
  exfalso. apply (Hbody x ls). exact E.
Qed.

Lemma best_move_body_fuel rand recurse player ply max_ply prev bs want st :
  (ply < max_ply ->
   forall pv bsib st',
     recurse (opponent player) (u32 (ply + 1)) max_ply pv bsib st'
     <> OutOfFuel) ->
  best_move_body rand recurse player ply max_ply prev bs want st <> OutOfFuel.
Proof.
  intros Hrec. unfold best_move_body. rewrite loops_run_list.
  destruct (run_list _ all_cells _) eqn:E; try discriminate.
  exfalso. revert E. apply run_list_fuel. intros p s.
  unfold try_cell.
  destruct (negb _); [discriminate |].
  destruct (compute_effect _ _ _ _) as [[eff g1] |]; [| discriminate].
  destruct (num_changed eff =? 0); [discriminate |].
  unfold reply. destruct (ply <? max_ply) eqn:Ep; cbn [andb].
  - apply Z.ltb_lt in Ep. destruct (_ <? BOARD_AREA).
    + destruct (recurse _ _ _ _ _ _) eqn:Er.
      * destruct (INIT_MAX_EFFECT <? _); discriminate.
      * discriminate.
      * exfalso. apply (Hrec Ep _ _ _ Er).
    + discriminate.
  - discriminate.
Qed.

Lemma best_move_rec_fuel rand : forall fuel want player ply max_ply prev bs st,
  0 <= ply -> max_ply < 2 ^ 32 -> max_ply - ply <= Z.of_nat fuel ->
  best_move_rec rand fuel want player ply max_ply prev bs st <> OutOfFuel.
Proof.
  induction fuel as [| fuel IH];
    intros want player ply max_ply prev bs st Hply Hmax Hfuel;
    cbn [best_move_rec]; apply best_move_body_fuel; intros Hlt.
  - lia.
  - intros pv bsib st'. rewrite u32_small by lia. apply IH; lia.
Qed.

(** ** The best of a list of scores *)

Lemma foldl_max_out a x xs :
  foldl Z.max (Z.max a x) xs = Z.max a (foldl Z.max x xs).
Proof.
  revert x. induction xs as [| y ys IH]; intros x; [reflexivity |].
  cbn [foldl]. rewrite <- Z.max_assoc. apply IH.
Qed.

Lemma foldl_max_best_of a l :
  l <> [] -> foldl Z.max a l = Z.max a (best_of l).
Proof.
  destruct l as [| x xs]; [contradiction |]. intros _.
  cbn [foldl best_of]. apply foldl_max_out.
Qed.

Lemma best_of_upper l x : In x l -> x <= best_of l.
Proof.
  destruct l as [| y ys]; [intros [] |]. cbn [best_of].
  revert y. induction ys as [| z zs IH]; intros y Hin.
  - destruct Hin as [-> | []]. simpl. lia.
  - cbn [foldl]. destruct Hin as [-> | Hin].
    + rewrite foldl_max_out. lia.
    + specialize (IH z Hin). rewrite foldl_max_out. lia.
Qed.

Lemma best_of_in l : l <> [] -> In (best_of l) l.
Proof.
  destruct l as [| y ys]; [contradiction |]. intros _. cbn [best_of].
  revert y. induction ys as [| z zs IH]; intros y; [left; reflexivity |].
  cbn [foldl].
  destruct (Z.max_spec y z) as [[_ ->] | [_ ->]].
  - destruct (IH z) as [H | H]; [right; left; exact H | right; right; exact H].
  - destruct (IH y) as [H | H]; [left; exact H | right; right; exact H].
Qed.

(** ** Full boards and the counts *)

Lemma existsb_filter_length {A} (f : A -> bool) l :
  existsb f l = negb (length (List.filter f l) =? 0)%nat.
Proof.
  induction l as [| x l IH]; [reflexivity |].
  simpl. destruct (f x); simpl; [reflexivity | exact IH].
Qed.

Lemma filter_three_way {A} (f1 f2 f3 : A -> bool) : forall l,
  (forall x, In x l -> Z.b2z (f1 x) + Z.b2z (f2 x) + Z.b2z (f3 x) = 1) ->
  Z.of_nat (length (List.filter f1 l)) + Z.of_nat (length (List.filter f2 l))
  + Z.of_nat (length (List.filter f3 l)) = Z.of_nat (length l).
Proof.
  induction l as [| x l IH]; intros H; [reflexivity |].
  specialize (IH (fun y Hy => H y (or_intror Hy))).
  specialize (H x (or_introl eq_refl)).
  simpl. destruct (f1 x), (f2 x), (f3 x); simpl in H; simpl length; lia.
Qed.

(** The cells of a board of the data model are the blanks and the
    markers of the two players. *)
Lemma count_cells_total g :
  wf_game g = true ->
  count_cells (board g) " "%char
  + count_cells (board g) (marker (x_data g))
  + count_cells (board g) (marker (o_data g)) = 64.
Proof.
  intros Hwf. apply wf_game_spec in Hwf as [_ [Hm [Ht _]]].
  apply markers_ok_spec in Hm as [Hx [Ho Hxo]].
  unfold count_cells.
  rewrite (filter_three_way _ _ _ all_cells); [reflexivity |].
  intros [r c] Hrc. cbn [fst snd]. apply in_all_cells in Hrc.
  destruct (three_state_cell g r c Ht Hrc) as [E | [E | E]]; rewrite E.
  - rewrite Ascii.eqb_refl.
    replace (Ascii.eqb " "%char (marker (x_data g))) with false
      by (symmetry; apply Ascii.eqb_neq; congruence).
    replace (Ascii.eqb " "%char (marker (o_data g))) with false
      by (symmetry; apply Ascii.eqb_neq; congruence).
    reflexivity.
  - rewrite Ascii.eqb_refl.
    replace (Ascii.eqb (marker (x_data g)) " "%char) with false
      by (symmetry; apply Ascii.eqb_neq; congruence).
    replace (Ascii.eqb (marker (x_data g)) (marker (o_data g))) with false
      by (symmetry; apply Ascii.eqb_neq; congruence).
    reflexivity.
  - rewrite Ascii.eqb_refl.
    replace (Ascii.eqb (marker (o_data g)) " "%char) with false
      by (symmetry; apply Ascii.eqb_neq; congruence).
    replace (Ascii.eqb (marker (o_data g)) (marker (x_data g))) with false
      by (symmetry; apply Ascii.eqb_neq; congruence).
    reflexivity.
Qed.

(** With consistent counts, the test
    [player->count + player->opponent->count < BOARD_AREA] of
    [best_move] says that an empty cell is left. *)
Lemma count_test_has_empty g p :
  wf_game g = true -> counts_consistent g = true ->
  (u32 (count (pdata g p) + count (pdata g (opponent p))) <? BOARD_AREA)
  = has_empty (board g).
Proof.
  intros Hwf Hcons. pose proof (count_cells_total g Hwf) as Htot.
  pose proof (proj1 (counts_consistent_spec g) Hcons) as Hc.
  pose proof (Hc X_DATA) as Hx. pose proof (Hc O_DATA) as Ho.
  cbn [pdata] in Hx, Ho.
  pose proof (count_cells_range (board g) " "%char) as R0.
  pose proof (count_cells_range (board g) (marker (x_data g))) as R1.
  pose proof (count_cells_range (board g) (marker (o_data g))) as R2.
  unfold has_empty. rewrite existsb_filter_length.
  unfold count_cells in Htot at 1.
  set (e := length (List.filter _ all_cells)) in *.
  assert (Hsum : count (pdata g p) + count (pdata g (opponent p))
                 = count (x_data g) + count (o_data g))
    by (destruct p; cbn [pdata opponent]; ring).
  rewrite Hsum, Hx, Ho. unfold BOARD_AREA, BOARD_SIZE.
  rewrite u32_small by lia.
  destruct (e =? 0)%nat eqn:E; cbn [negb].
  - apply Nat.eqb_eq in E. apply Z.ltb_ge. lia.
  - apply Nat.eqb_neq in E. apply Z.ltb_lt. lia.
Qed.

(** ** The unpruned search, unfolded *)

Lemma minimax_unfold depth player g :
  minimax depth player g = best_of (omap (move_net depth player g) all_cells).
Proof. destruct depth; reflexivity. Qed.

Lemma move_net_legal depth player g p :
  board_shape (board g) = true -> In p all_cells ->
  legal g player p = true ->
  move_net depth player g p
  = Some (heur (fst (move_result (fst p) (snd p) player g)) -
          match depth with
          | O => 0
          | S d =>
              if has_empty (board (snd (move_result (fst p) (snd p) player g)))
              then minimax d (opponent player)
                     (snd (move_result (fst p) (snd p) player g))
              else 0
          end).
Proof.
  intros Hs Hp. apply in_all_cells_pair in Hp.
  unfold legal, move_net.
  rewrite compute_effect_move_result by assumption.
  destruct (move_result (fst p) (snd p) player g) as [eff g'].
  cbn [fst snd].
  destruct (Ascii.eqb _ _); cbn [andb]; [| discriminate].
  destruct (num_changed eff =? 0); cbn [negb]; [discriminate | reflexivity].
Qed.

Lemma move_net_illegal depth player g p :
  board_shape (board g) = true -> In p all_cells ->
  legal g player p = false -> move_net depth player g p = None.
Proof.
  intros Hs Hp. apply in_all_cells_pair in Hp.
  unfold legal, move_net.
  rewrite compute_effect_move_result by assumption.
  destruct (move_result (fst p) (snd p) player g) as [eff g'].
  destruct (Ascii.eqb _ _); cbn [andb]; [| reflexivity].
  destruct (num_changed eff =? 0); cbn [negb]; [reflexivity | discriminate].
Qed.

Lemma move_net_some_legal depth player g p t :
  board_shape (board g) = true -> In p all_cells ->
  move_net depth player g p = Some t -> legal g player p = true.
Proof.
  intros Hs Hp H. destruct (legal g player p) eqn:E; [reflexivity |].
  rewrite move_net_illegal in H by assumption. discriminate.
Qed.

Lemma legal_heur g player i j :
  wf_game g = true -> on_board i j = true ->
  legal g player (i, j) = true ->
  2 <= heur (fst (move_result i j player g)).
Proof.
  intros Hwf Hon Hl. apply wf_game_spec in Hwf as [Hs _].
  apply legal_spec in Hl as [_ Hne]; try assumption.
  destruct (move_result_flipping i j player g Hne) as [Heff _].
  rewrite Heff. cbn [heur].
  pose proof (h_func_bounds i j).
  pose proof (weight_bounds (flips (board g) (marker (pdata g player)) i j)).
  destruct (flips (board g) (marker (pdata g player)) i j);
    [contradiction | rewrite length_cons in *; lia].
Qed.

(** ** The loops of [best_move] at one node *)

Section Node.

Variable rand : nat -> Z.
Variable recurse :
  player_ref -> Z -> Z -> Z -> Z -> search_state -> outcome search_result.
Variables (player : player_ref) (ply max_ply prev bs : Z).
Variables (g0 : game) (depth : nat).

Hypothesis Hwf : wf_game g0 = true.
Hypothesis Hcons : counts_consistent g0 = true.
Hypothesis Hply : 0 <= ply.
Hypothesis Hmax : max_ply < 2 ^ 32.
Hypothesis Hdepth : depth = Z.to_nat (max_ply - ply).
Hypothesis Hrec :
  ply < max_ply ->
  reply_sound recurse (Nat.pred depth) (opponent player) (ply + 1) max_ply.

Local Abbreviation net := (move_net depth player g0).

(** The effect that the code computes for a legal move is its net
    score in the unpruned search, or, when the reply was cut off, a
    score between that and the best found so far. *)
Lemma reply_value p ls :
  In p all_cells -> legal g0 player p = true ->
  match reply recurse player ply max_ply
          (fst (move_result (fst p) (snd p) player g0))
          (snd (move_result (fst p) (snd p) player g0)) ls with
  | Done t =>
      exists tnet,
        net p = Some tnet /\
        s_game (t_state t) = snd (move_result (fst p) (snd p) player g0) /\
        INIT_MAX_EFFECT < t_effect t /\
        (t_effect t = tnet \/
         (tnet <= t_effect t /\ t_effect t < max_effect ls))
  | AssertFail => True
  | OutOfFuel => False
  end.
Proof.
  intros Hp Hl. pose proof Hwf as Hwf'.
  apply wf_game_spec in Hwf' as [Hs _].
  pose proof (in_all_cells_pair p Hp) as Hon.
  destruct p as [i j]. cbn [fst snd] in *.
  pose proof (legal_heur g0 player i j Hwf Hon Hl) as Hheur.
  rewrite move_net_legal by assumption. cbn [fst snd].
  apply legal_spec in Hl as [Hempty Hne]; try assumption.
  pose proof (move_result_wf i j player g0 Hwf Hon) as Hwf1.
  pose proof (move_result_consistent i j player g0 Hwf Hcons Hon Hempty)
    as Hcons1.
  set (eff := fst (move_result i j player g0)) in *.
  set (g1 := snd (move_result i j player g0)) in *.
  unfold reply. rewrite (count_test_has_empty g1 player Hwf1 Hcons1).
  assert (Hini : INIT_MAX_EFFECT < heur eff) by (unfold INIT_MAX_EFFECT, BOARD_AREA, BOARD_SIZE; lia).
  destruct (ply <? max_ply) eqn:Ep; cbn [andb].
  - apply Z.ltb_lt in Ep.
    destruct depth as [| d] eqn:Ed; [lia |]. cbn [Nat.pred] in Hrec.
    destruct (has_empty (board g1)) eqn:Ee.
    + rewrite u32_small by lia.
      specialize (Hrec Ep g1 (heur eff) (max_effect ls)
                    (local_heap (ls_state ls)) (rand_calls (ls_state ls))
                    Hwf1 Hcons1).
      destruct (recurse _ _ _ _ _ _) as [res | |]; [| exact I | exact Hrec].
      destruct Hrec as [Hg Hv].
      destruct (INIT_MAX_EFFECT <? heur eff - score res) eqn:Ea; [| exact I].
      apply Z.ltb_lt in Ea.
      exists (heur eff - minimax d (opponent player) g1).
      cbn [t_effect t_state]. repeat split; try assumption.
      destruct Hv as [-> | [Hle Hlt]]; [left; reflexivity | right; lia].
    + exists (heur eff - 0). cbn [t_effect t_state s_game].
      repeat split; try assumption. left. lia.
  - apply Z.ltb_ge in Ep.
    assert (depth = 0%nat) as -> by lia.
    exists (heur eff - 0). cbn [t_effect t_state s_game].
    repeat split; try assumption. left. lia.
Qed.

Lemma node_inv_more seen x ls :
  done ls = true -> node_inv g0 net ply prev bs seen ls ->
  node_inv g0 net ply prev bs (seen ++ [x]) ls.
Proof.
  intros Hd [Hg [Hcand Hst]]. rewrite Hd in Hst.
  destruct Hst as [H1 [H2 [H3 H4]]].
  unfold node_inv. rewrite Hd. split; [exact Hg |]. split.
  - intros c Hc. destruct (Hcand c Hc) as [p [tl [E [Hin Hn]]]].
    exists p, tl. repeat split; try assumption.
    apply in_or_app. left. exact Hin.
  - repeat split; try assumption.
    rewrite omap_app. apply in_or_app. left. exact H2.
Qed.

(** The judgement of one tried move keeps the invariant. *)
Lemma select_inv p seen ls t tnet :
  In p all_cells -> legal g0 player p = true ->
  node_inv g0 net ply prev bs seen ls -> done ls = false ->
  net p = Some tnet ->
  s_game (t_state t) = snd (move_result (fst p) (snd p) player g0) ->
  INIT_MAX_EFFECT < t_effect t ->
  (t_effect t = tnet \/ (tnet <= t_effect t /\ t_effect t < max_effect ls)) ->
  node_inv g0 net ply prev bs (seen ++ [p])
    (select player ply prev bs (fst p) (snd p)
       (fst (move_result (fst p) (snd p) player g0)) t ls).
Proof.
  intros Hp Hl [Hg [Hcand Hst]] Hnd Hnet Hgt Hini Hval.
  rewrite Hnd in Hst. destruct Hst as [HM [Hnil Hsome]].
  pose proof Hwf as Hwf'. apply wf_game_spec in Hwf' as [Hs _].
  pose proof (in_all_cells_pair p Hp) as Hon.
  assert (Hp' : p = (fst p, snd p)) by (destruct p; reflexivity).
  rewrite Hp' in Hl. apply legal_spec in Hl as [Hempty Hne]; try assumption.
  assert (Homap : omap net (seen ++ [p]) = omap net seen ++ [tnet]).
  { rewrite omap_app. cbn [omap list_omap]. rewrite Hnet. reflexivity. }
  assert (Hfold : foldl Z.max INIT_MAX_EFFECT (omap net seen ++ [tnet])
                  = Z.max (max_effect ls) tnet).
  { rewrite foldl_app, <- HM. reflexivity. }
  assert (Hold : forall c, In c (best_moves ls) ->
            exists q tl, c = q :: tl /\ In q (seen ++ [p])
                         /\ net q = Some (max_effect ls)).
  { intros c Hc. destruct (Hcand c Hc) as [q [tl [E [Hin Hn]]]].
    exists q, tl. repeat split; try assumption.
    apply in_or_app. left. exact Hin. }
  assert (Hnew : In p (seen ++ [p])) by (apply in_or_app; right; left; reflexivity).
  unfold node_inv, select.
  cbn [ls_state s_game done max_effect best_moves].
  rewrite Homap, Hfold, Hnd, <- Hp'.
  split; [rewrite Hgt; apply undo_move_result; assumption |].
  set (e := t_effect t) in *. set (M := max_effect ls) in *.
  destruct (Z.ltb_spec M e) as [Hbetter | Hnot]; cbn [andb].
  - (* strictly better: the score is exact and replaces the candidates *)
    assert (He : e = tnet) by (destruct Hval as [H | [_ H]]; [exact H | lia]).
    rewrite Z.eqb_refl. cbn [app]. split.
    + intros c [<- | []]. exists p, (t_chain t).
      repeat split; [exact Hnew | rewrite Hnet, He; reflexivity].
    + destruct ((1 <? ply) && (prev - e <? bs)) eqn:Ecut.
      * apply andb_true_iff in Ecut as [E1 E2].
        apply Z.ltb_lt in E1, E2. repeat split; try assumption.
        -- apply in_or_app. right. left. symmetry. exact He.
        -- discriminate.
      * repeat split; try lia; try discriminate.
        intros Habs. destruct (omap net seen); discriminate.
  - (* not better *)
    assert (Hseen : omap net seen <> []).
    { intros E. rewrite E in HM. cbn in HM. lia. }
    destruct (Hsome Hseen) as [HiniM Hbest].
    assert (Hmax' : M = Z.max M tnet) by (destruct Hval; lia).
    destruct (Z.eqb_spec e M) as [Heq | Hneq].
    + assert (He : e = tnet) by (destruct Hval as [H | [_ H]]; [exact H | lia]).
      split.
      * intros c Hc. apply in_app_or in Hc as [Hc | [<- | []]].
        -- apply Hold. exact Hc.
        -- exists p, (t_chain t).
           repeat split; [exact Hnew | rewrite Hnet, <- He, Heq; reflexivity].
      * repeat split; try assumption.
        -- intros Habs. destruct (omap net seen); discriminate.
        -- intros Habs. destruct (best_moves ls); discriminate.
    + split; [exact Hold |].
      repeat split; try assumption.
      intros Habs. destruct (omap net seen); discriminate.
Qed.

(** One loop body keeps the invariant. *)
Lemma try_cell_inv p seen ls :
  In p all_cells -> node_inv g0 net ply prev bs seen ls -> done ls = false ->
  match try_cell recurse player ply max_ply prev bs (fst p) (snd p) ls with
  | Done ls' => node_inv g0 net ply prev bs (seen ++ [p]) ls'
  | AssertFail => True
  | OutOfFuel => False
  end.
Proof.
  intros Hp Hinv Hnd. pose proof Hinv as [Hg _].
  pose proof Hwf as Hwf'. apply wf_game_spec in Hwf' as [Hs _].
  pose proof (in_all_cells_pair p Hp) as Hon.
  rewrite try_cell_cases by (rewrite ?Hg; assumption).
  rewrite Hg.
  assert (Hp' : (fst p, snd p) = p) by (destruct p; reflexivity).
  rewrite Hp'.
  destruct (legal g0 player p) eqn:El.
  - pose proof (reply_value p ls Hp El) as Hr.
    destruct (reply _ _ _ _ _ _ _) as [t | |]; [| exact I | exact Hr].
    destruct Hr as [tnet [Hnet [Hgt [Hini Hval]]]].
    apply (select_inv p seen ls t tnet); assumption.
  - pose proof (move_net_illegal depth player g0 p Hs Hp El) as Hnone.
    destruct Hinv as [_ [Hcand Hst]]. unfold node_inv.
    assert (Homap : omap net (seen ++ [p]) = omap net seen).
    { rewrite omap_app. cbn [omap list_omap]. rewrite Hnone.
      apply app_nil_r. }
    rewrite Homap. split; [exact Hg |]. split; [| exact Hst].
    intros c Hc. destruct (Hcand c Hc) as [q [tl [E [Hin Hn]]]].
    exists q, tl. repeat split; try assumption.
    apply in_or_app. left. exact Hin.
Qed.

Lemma node_inv_skip cells : forall seen ls,
  done ls = true -> node_inv g0 net ply prev bs seen ls ->
  node_inv g0 net ply prev bs (seen ++ cells) ls.
Proof.
  induction cells as [| x cells IH]; intros seen ls Hd Hinv.
  - rewrite app_nil_r. exact Hinv.
  - replace (seen ++ x :: cells) with ((seen ++ [x]) ++ cells)
      by (rewrite <- app_assoc; reflexivity).
    apply IH; [exact Hd |]. apply node_inv_more; assumption.
Qed.

(** The invariant holds after the loops. *)
Lemma run_cells_inv : forall cells seen ls,
  (forall p, In p cells -> In p all_cells) ->
  node_inv g0 net ply prev bs seen ls ->
  match run_list
          (fun p => try_cell recurse player ply max_ply prev bs (fst p) (snd p))
          cells ls with
  | Done ls' => node_inv g0 net ply prev bs (seen ++ cells) ls'
  | AssertFail => True
  | OutOfFuel => False
  end.
Proof.
  induction cells as [| p cells IH]; intros seen ls Hcells Hinv.
  - cbn [run_list]. rewrite app_nil_r. exact Hinv.
  - cbn [run_list]. destruct (done ls) eqn:Hd.
    + apply node_inv_skip; assumption.
    + pose proof (try_cell_inv p seen ls (Hcells p (or_introl eq_refl))
                    Hinv Hd) as Hstep.
      destruct (try_cell _ _ _ _ _ _ _ _ ls) as [ls1 | |];
        [| exact I | exact Hstep].
      replace (seen ++ p :: cells) with ((seen ++ [p]) ++ cells)
        by (rewrite <- app_assoc; reflexivity).
      apply IH; [| exact Hstep].
      intros q Hq. apply Hcells. right. exact Hq.
Qed.

End Node.

Lemma omap_nil_none {A B} (f : A -> option B) l x :
  omap f l = [] -> In x l -> f x = None.
Proof.
  induction l as [| y l IH]; intros H Hin; [destruct Hin |].
  cbn [omap list_omap] in H. destruct (f y) eqn:E; [discriminate |].
  destruct Hin as [-> | Hin]; [exact E | apply IH; assumption].
Qed.

(** ** What a node of the search returns *)

Lemma best_move_body_sound rand recurse player ply max_ply prev bs st depth :
  wf_game (s_game st) = true -> counts_consistent (s_game st) = true ->
  0 <= ply -> max_ply < 2 ^ 32 -> depth = Z.to_nat (max_ply - ply) ->
  (ply < max_ply ->
   reply_sound recurse (Nat.pred depth) (opponent player) (ply + 1) max_ply) ->
  match best_move_body rand recurse player ply max_ply prev bs true st with
  | Done res => search_sound depth player ply prev bs (s_game st) res
  | AssertFail => True
  | OutOfFuel => False
  end.
Proof.
  intros Hwf Hcons Hply Hmax Hdepth Hrec.
  pose proof Hwf as Hwf'. apply wf_game_spec in Hwf' as [Hs _].
  unfold best_move_body. rewrite loops_run_list. fold (loop_start st).
  assert (Hinit : node_inv (s_game st) (move_net depth player (s_game st))
                    ply prev bs [] (loop_start st)).
  { unfold node_inv, loop_start. cbn.
    repeat split; try reflexivity; try contradiction. }
  pose proof (run_cells_inv recurse player ply max_ply prev bs (s_game st)
                depth Hwf Hcons Hply Hmax Hdepth Hrec all_cells []
                (loop_start st) (fun p H => H) Hinit) as Hrun.
  destruct (run_list _ all_cells (loop_start st)) as [ls | |];
    [| exact I | exact Hrun].
  cbn [app] in Hrun. pose proof Hrun as Hinv.
  clear Hrun. destruct Hinv as [Hg [Hcand Hst]].
  set (nets := omap (move_net depth player (s_game st)) all_cells) in *.
  unfold search_sound, finish. cbn [negb].
  rewrite minimax_unfold. fold nets.
  destruct (best_moves ls) as [| c0 cs] eqn:Eb.
  - (* no candidate *)
    cbn [length Nat.eqb score chain final].
    destruct (done ls).
    { destruct Hst as [_ [_ [_ Habs]]]. contradiction. }
    destruct Hst as [_ [_ Hsome]].
    assert (Hnets : nets = []).
    { destruct nets; [reflexivity |].
      destruct Hsome as [_ Habs]; [discriminate | contradiction]. }
    rewrite Hnets. cbn [best_of].
    split; [exact Hg |]. split; [left; reflexivity |]. split.
    + intros _. split; [reflexivity |]. intros p Hp.
      destruct (legal (s_game st) player p) eqn:El; [| reflexivity].
      pose proof (omap_nil_none _ _ p Hnets Hp) as Hnone.
      rewrite move_net_legal in Hnone by assumption. discriminate.
    + intros p tl Habs. discriminate.
  - (* a candidate is chosen *)
    set (best := c0 :: cs) in *.
    set (n := length best).
    assert (Hn : (0 < n)%nat) by (unfold n, best; simpl; lia).
    replace (n =? 0)%nat with false by (symmetry; apply Nat.eqb_neq; lia).
    cbn [score chain final s_game].
    set (chosen := Z.to_nat (u32 (rand (rand_calls (ls_state ls))) mod Z.of_nat n)).
    assert (Hchosen : (chosen < n)%nat).
    { unfold chosen.
      pose proof (Z.mod_pos_bound (u32 (rand (rand_calls (ls_state ls))))
                    (Z.of_nat n) ltac:(lia)). lia. }
    pose proof (nth_In best [] Hchosen) as Hin.
    destruct (Hcand _ Hin) as [p [tl [Ec [Hp Hnet]]]].
    split; [exact Hg |]. split; [| split].
    + destruct (done ls).
      * destruct Hst as [H1 [H2 [H3 _]]]. right.
        repeat split; try assumption. apply best_of_upper. exact H2.
      * destruct Hst as [HM [Hnil Hsome]]. left.
        assert (Hnets : nets <> []).
        { intros E. specialize (Hnil E). discriminate. }
        destruct (Hsome Hnets) as [Hini _].
        rewrite foldl_max_best_of in HM by exact Hnets. lia.
    + rewrite Ec. discriminate.
    + intros p' tl' E. rewrite Ec in E. injection E as <- <-.
      split; assumption.
Qed.

(** Every call of [best_move] with enough fuel for [max_ply - ply]
    levels is sound. *)
Lemma best_move_rec_sound rand : forall fuel player ply max_ply prev bs st,
  wf_game (s_game st) = true -> counts_consistent (s_game st) = true ->
  0 <= ply -> max_ply < 2 ^ 32 -> max_ply - ply <= Z.of_nat fuel ->
  match best_move_rec rand fuel true player ply max_ply prev bs st with
  | Done res =>
      search_sound (Z.to_nat (max_ply - ply)) player ply prev bs (s_game st) res
  | AssertFail => True
  | OutOfFuel => False
  end.
Proof.
  induction fuel as [| fuel IH];
    intros player ply max_ply prev bs st Hwf Hcons Hply Hmax Hfuel;
    cbn [best_move_rec];
    apply best_move_body_sound; try assumption; try reflexivity;
    intros Hlt; [lia |].
  intros g1 pv bsib heap rc Hwf1 Hcons1.
  specialize (IH (opponent player) (ply + 1) max_ply pv bsib
                {| s_game := g1; local_heap := heap; rand_calls := rc |}
                Hwf1 Hcons1 ltac:(lia) Hmax ltac:(lia)).
  destruct (best_move_rec rand fuel true _ _ _ _ _ _) as [res | |];
    [| exact I | exact IH].
  destruct IH as [Hg [Hv _]]. cbn [s_game] in Hg, Hv.
  replace (Nat.pred (Z.to_nat (max_ply - ply)))
    with (Z.to_nat (max_ply - (ply + 1))) by lia.
  split; [exact Hg |].
  destruct Hv as [Hv | [_ [H1 H2]]]; [left; exact Hv | right; split; assumption].
Qed.

(** ** A node without a legal move, and a node at the depth limit *)

Lemma run_list_total {A} (P : loop_state -> Prop)
    (body : A -> loop_state -> outcome loop_state) : forall l ls,
  (forall x s, In x l -> P s -> exists s', body x s = Done s' /\ P s') ->
  P ls -> exists ls', run_list body l ls = Done ls' /\ P ls'.
Proof.
  induction l as [| x l IH]; intros ls Hbody HP.
  - exists ls. split; [reflexivity | exact HP].
  - cbn [run_list]. destruct (done ls).
    + exists ls. split; [reflexivity | exact HP].
    + destruct (Hbody x ls (or_introl eq_refl) HP) as [s1 [E1 P1]].
      rewrite E1. apply IH; [| exact P1].
      intros y s Hy. apply Hbody. right. exact Hy.
Qed.

Lemma loops_no_legal_move recurse player ply max_ply prev bs st :
  board_shape (board (s_game st)) = true ->
  (forall p, In p all_cells -> legal (s_game st) player p = false) ->
  run_list (fun p => try_cell recurse player ply max_ply prev bs (fst p) (snd p))
    all_cells (loop_start st)
  = Done (loop_start st).
Proof.
  intros Hs Hnone.
  destruct (run_list_total (fun s => s = loop_start st)
              (fun p => try_cell recurse player ply max_ply prev bs (fst p) (snd p))
              all_cells (loop_start st)) as [ls [E ->]];
    [| reflexivity | exact E].
  intros p s Hp ->. exists (loop_start st). split; [| reflexivity].
  rewrite try_cell_cases;
    [| exact Hs | apply in_all_cells_pair; exact Hp].
  cbn [loop_start ls_state].
  replace (fst p, snd p) with p by (destruct p; reflexivity).
  rewrite (Hnone p Hp). reflexivity.
Qed.

Lemma reply_at_depth_limit recurse player ply max_ply eff g1 ls :
  max_ply <= ply ->
  reply recurse player ply max_ply eff g1 ls
  = Done {| t_effect := heur eff; t_chain := chain_ptr ls;
            t_state := {| s_game := g1;
                          local_heap := local_heap (ls_state ls);
                          rand_calls := rand_calls (ls_state ls) |} |}.
Proof.
  intros H. unfold reply.
  replace (ply <? max_ply) with false by (symmetry; apply Z.ltb_ge; exact H).
  reflexivity.
Qed.

Lemma loops_at_depth_limit recurse player ply max_ply prev bs st :
  wf_game (s_game st) = true -> max_ply <= ply ->
  exists ls,
    run_list (fun p => try_cell recurse player ply max_ply prev bs (fst p) (snd p))
      all_cells (loop_start st) = Done ls.
Proof.
  intros Hwf Hlimit.
  destruct (run_list_total (fun s => s_game (ls_state s) = s_game st)
              (fun p => try_cell recurse player ply max_ply prev bs (fst p) (snd p))
              all_cells (loop_start st)) as [ls [E _]];
    [| reflexivity | exists ls; exact E].
  intros p s Hp Hg. pose proof Hwf as Hwf'.
  apply wf_game_spec in Hwf' as [Hs _].
  pose proof (in_all_cells_pair p Hp) as Hon.
  rewrite try_cell_cases by (rewrite ?Hg; assumption).
  rewrite Hg. destruct (legal (s_game st) player (fst p, snd p)) eqn:El.
  - rewrite reply_at_depth_limit by exact Hlimit.
    eexists. split; [reflexivity |].
    unfold select. cbn [ls_state s_game t_state].
    apply legal_spec in El as [Hempty Hne]; try assumption.
    apply undo_move_result; assumption.
  - exists s. split; [reflexivity | exact Hg].
Qed.

(** * Further properties of the code *)

(** ** [compute_effect] *)

(** X1.  For a cell of the board, neither assertion of
    [compute_effect] fails, and what it returns and leaves is the move
    of the design document on the board of entry: the flips of all
    eight directions, their number, the weight of the placed cell plus
    theirs, the board with these cells and the placed cell set to the
    mover, and the two counts moved by [n + 1] and [n] in [unsigned]
    arithmetic; or, without a flip, score 0 and the untouched game. *)
Theorem compute_effect_refines_move row col player g :
  board_shape (board g) = true -> on_board row col = true ->
  exists eff g',
    compute_effect row col player g = Some (eff, g') /\
    (eff, g') = move_result row col player g /\
    changes eff = flips (board g) (marker (pdata g player)) row col.
Proof.
  intros Hs Hon.
  exists (fst (move_result row col player g)),
         (snd (move_result row col player g)).
  destruct (move_result_num_changed row col player g) as [Hch _].
  split; [| split].
  - rewrite compute_effect_move_result by assumption.
    destruct (move_result row col player g). reflexivity.
  - destruct (move_result row col player g). reflexivity.
  - exact Hch.
Qed.

Lemma compute_effect_refines_move_witness :
  exists eff g',
    compute_effect 2 4 X_DATA start_game = Some (eff, g') /\
    (eff, g') = move_result 2 4 X_DATA start_game /\
    changes eff = flips start_board "X"%char 2 4.
Proof.
  apply (compute_effect_refines_move 2 4 X_DATA start_game);
    vm_compute; reflexivity.
Defined.

(** X2.  A move flips at most 19 cells, so the 20 entries of
    [changes] are never exhausted and [num_changed] is the number of
    recorded flips. *)
Theorem compute_effect_flips_bounded row col player g eff g' :
  board_shape (board g) = true -> on_board row col = true ->
  compute_effect row col player g = Some (eff, g') ->
  num_changed eff = Z.of_nat (length (changes eff)) /\
  0 <= num_changed eff <= 19 /\ num_changed eff < MAX_CHANGES.
Proof.
  intros Hs Hon H.
  destruct (compute_effect_inv row col player g eff g' Hs Hon H) as [-> _].
  destruct (move_result_num_changed row col player g) as [Hch Hnum].
  pose proof (flips_length (board g) (marker (pdata g player)) row col Hon).
  rewrite Hch, Hnum. unfold MAX_CHANGES, BOARD_SIZE. lia.
Qed.

Lemma compute_effect_flips_bounded_witness :
  1 = Z.of_nat (length [(3, 4)]) /\ 0 <= 1 <= 19 /\ 1 < MAX_CHANGES.
Proof.
  apply (compute_effect_flips_bounded 2 4 X_DATA start_game
           {| heur := 2; changes := [(3, 4)]; num_changed := 1 |}
           (snd (move_result 2 4 X_DATA start_game)));
    vm_compute; reflexivity.
Defined.

(** X3.  The cells that a move flips are pairwise distinct cells of
    the board, none of them is the cell of the move, and on a board of
    the data model each of them held the opponent's marker. *)
Theorem compute_effect_flips_distinct_opponent row col player g eff g' :
  wf_game g = true -> on_board row col = true ->
  compute_effect row col player g = Some (eff, g') ->
  List.NoDup (changes eff) /\
  ~ In (row, col) (changes eff) /\
  forall q, In q (changes eff) ->
    on_board (fst q) (snd q) = true /\
    cell (board g) (fst q) (snd q) = marker (pdata g (opponent player)).
Proof.
  intros Hwf Hon H. pose proof Hwf as Hwf'.
  apply wf_game_spec in Hwf' as [Hs [Hm [Ht _]]].
  destruct (compute_effect_inv row col player g eff g' Hs Hon H) as [-> _].
  destruct (move_result_num_changed row col player g) as [Hch _].
  destruct (flips_facts (board g) (marker (pdata g player)) row col Hon)
    as [Hall [Hnd [Hstart _]]].
  rewrite Hch. split; [exact Hnd |]. split; [exact Hstart |].
  intros q Hq. split; [apply Hall; exact Hq |].
  apply (flips_opponent g player row col q); assumption.
Qed.

Lemma compute_effect_flips_distinct_opponent_witness :
  List.NoDup [(3, 4)] /\ ~ In (2, 4) [(3, 4)] /\
  forall q, In q [(3, 4)] ->
    on_board (fst q) (snd q) = true /\
    cell start_board (fst q) (snd q) = "O"%char.
Proof.
  apply (compute_effect_flips_distinct_opponent 2 4 X_DATA start_game
           {| heur := 2; changes := [(3, 4)]; num_changed := 1 |}
           (snd (move_result 2 4 X_DATA start_game)));
    vm_compute; reflexivity.
Defined.

(** X4.  A move touches nothing but the placed cell, the flipped cells
    and the two counts: every other cell of the array (the terminating
    column included) keeps its content, and the markers and types of
    both players are as before. *)
Theorem compute_effect_frame row col player g eff g' :
  board_shape (board g) = true -> on_board row col = true ->
  compute_effect row col player g = Some (eff, g') ->
  (forall r c, 0 <= r < 8 -> 0 <= c < 9 ->
     (r, c) <> (row, col) -> ~ In (r, c) (changes eff) ->
     cell (board g') r c = cell (board g) r c) /\
  board_shape (board g') = true /\
  (forall q, marker (pdata g' q) = marker (pdata g q)) /\
  (forall q, type (pdata g' q) = type (pdata g q)).
Proof.
  intros Hs Hon H.
  destruct (compute_effect_inv row col player g eff g' Hs Hon H) as [-> ->].
  destruct (move_result_num_changed row col player g) as [Hch _].
  destruct (flips_facts (board g) (marker (pdata g player)) row col Hon)
    as [Hall _].
  rewrite Hch.
  destruct (flips (board g) (marker (pdata g player)) row col) as [| p fl] eqn:E.
  - rewrite move_result_idle by exact E. cbn [snd]. auto.
  - destruct (move_result_flipping row col player g) as [_ [Hb [Hmk [Hty _]]]].
    { rewrite E. discriminate. }
    rewrite E in Hb. rewrite Hb. repeat split; try assumption.
    + intros r c Hr Hc Hne Hnin.
      apply cell_after_move_same; try assumption; lia.
    + apply board_shape_set_cell, board_shape_set_cells. exact Hs.
Qed.

Lemma compute_effect_frame_witness :
  cell (board (snd (move_result 2 4 X_DATA start_game))) 4 4
  = cell start_board 4 4.
Proof.
  destruct (compute_effect_frame 2 4 X_DATA start_game
              {| heur := 2; changes := [(3, 4)]; num_changed := 1 |}
              (snd (move_result 2 4 X_DATA start_game)))
    as [H _]; [vm_compute; reflexivity | vm_compute; reflexivity
              | vm_compute; reflexivity |].
  apply H; [lia | lia | discriminate |].
  intros [E | []]. discriminate.
Defined.

(** X5.  [compute_effect] keeps the invariants of the data model: the
    shape of the array, the three states of a cell and counts that
    are [unsigned int]s; and after a move on an empty cell each count
    is still the number of the player's markers on the board. *)
Theorem compute_effect_keeps_invariants row col player g eff g' :
  wf_game g = true -> on_board row col = true ->
  compute_effect row col player g = Some (eff, g') ->
  wf_game g' = true /\
  (cell (board g) row col = " "%char -> counts_consistent g = true ->
   counts_consistent g' = true).
Proof.
  intros Hwf Hon H. pose proof Hwf as Hwf'.
  apply wf_game_spec in Hwf' as [Hs _].
  destruct (compute_effect_inv row col player g eff g' Hs Hon H) as [_ ->].
  split; [apply move_result_wf; assumption |].
  intros Hempty Hcons. apply move_result_consistent; assumption.
Qed.

Lemma compute_effect_keeps_invariants_witness :
  wf_game (snd (move_result 2 4 X_DATA start_game)) = true /\
  (cell start_board 2 4 = " "%char -> counts_consistent start_game = true ->
   counts_consistent (snd (move_result 2 4 X_DATA start_game)) = true).
Proof.
  apply (compute_effect_keeps_invariants 2 4 X_DATA start_game
           {| heur := 2; changes := [(3, 4)]; num_changed := 1 |}
           (snd (move_result 2 4 X_DATA start_game)));
    vm_compute; reflexivity.
Defined.

(** X6.  The inner loop of [compute_effect], which steps with the
    direction converted to [unsigned int] and tests only
    [row2 >= BOARD_SIZE || col2 >= BOARD_SIZE], walks the same cells as
    a walk with signed steps that stops at all four edges: from a cell
    of the board it yields the flips of the direction, never needs an
    eighth entry of [line_change], and on a closed run its
    [line_heur_total] is the weight of the run. *)
Theorem scan_line_unsigned_walk b mk row col v :
  on_board row col = true -> In v vector ->
  exists lht,
    scan_line (Z.to_nat (BOARD_SIZE - 1)) b mk (u32 (fst v)) (u32 (snd v))
      row col 0 []
    = Some (lht, line_flips b mk row col v) /\
    (line_flips b mk row col v <> [] ->
     lht = weight (line_flips b mk row col v)) /\
    (length (line_flips b mk row col v) <= 6)%nat.
Proof.
  intros Hon Hv.
  destruct (scan_line_line_flips b mk row col v Hon Hv) as [lht [H1 H2]].
  exists lht. split; [exact H1 |]. split.
  - intros Hne. destruct H2 as [H2 | H2]; [contradiction | exact H2].
  - pose proof (line_flips_room b mk row col v Hon Hv).
    pose proof (room_le_6 row col v Hon Hv). lia.
Qed.

Lemma scan_line_unsigned_walk_witness :
  exists lht,
    scan_line (Z.to_nat (BOARD_SIZE - 1)) start_board "X"%char
      (u32 (-1)) (u32 (-1)) 0 0 0 []
    = Some (lht, line_flips start_board "X"%char 0 0 (-1, -1)).
Proof.
  destruct (scan_line_unsigned_walk start_board "X"%char 0 0 (-1, -1))
    as [lht [H _]]; [vm_compute; reflexivity | left; reflexivity |].
  exists lht. exact H.
Defined.

(** ** [best_move] *)

Lemma minimax_leaf_positive player g :
  wf_game g = true ->
  (0 < minimax 0 player g <->
   exists p, In p all_cells /\ legal g player p = true) /\
  (0 < minimax 0 player g -> 2 <= minimax 0 player g).
Proof.
  intros Hwf. pose proof Hwf as Hwf'. apply wf_game_spec in Hwf' as [Hs _].
  rewrite minimax_unfold.
  set (nets := omap (move_net 0 player g) all_cells).
  assert (Hall : forall t, In t nets -> 2 <= t).
  { intros t Ht. apply list_elem_of_In, list_elem_of_omap in Ht
      as [p [Hp Hnet]].
    apply list_elem_of_In in Hp.
    pose proof (move_net_some_legal 0 player g p t Hs Hp Hnet) as Hl.
    rewrite move_net_legal in Hnet by assumption.
    injection Hnet as <-.
    pose proof (legal_heur g player (fst p) (snd p) Hwf
                  (in_all_cells_pair p Hp)) as Hh.
    replace (fst p, snd p) with p in Hh by (destruct p; reflexivity).
    specialize (Hh Hl). lia. }
  destruct nets as [| t ts] eqn:En.
  - cbn [best_of]. split; [split; [lia |] | lia].
    intros [p [Hp Hl]]. exfalso.
    pose proof (omap_nil_none _ _ p En Hp) as Hnone.
    rewrite move_net_legal in Hnone by assumption. discriminate.
  - assert (Hin : In (best_of (t :: ts)) (t :: ts))
      by (apply best_of_in; discriminate).
    pose proof (Hall _ Hin) as Hge. split; [split | lia].
    + intros _.
      assert (Ht : In t nets) by (rewrite En; left; reflexivity).
      apply list_elem_of_In, list_elem_of_omap in Ht as [p [Hp Hnet]].
      apply list_elem_of_In in Hp. exists p. split; [exact Hp |].
      apply (move_net_some_legal 0 player g p t); assumption.
    + intros _. lia.
Qed.

(** The viability check of [main]. *)
Lemma viability_sound rand player prev bs st :
  wf_game (s_game st) = true -> counts_consistent (s_game st) = true ->
  exists v,
    best_move rand true player 1 1 prev bs st = Done v /\
    s_game (final v) = s_game st /\
    score v = minimax 0 player (s_game st).
Proof.
  intros Hwf Hcons. unfold best_move. change (Z.to_nat (1 - 1)) with 0%nat.
  pose proof (best_move_rec_sound rand 0 player 1 1 prev bs st Hwf Hcons
                ltac:(lia) ltac:(lia) ltac:(lia)) as Hsound.
  cbn [best_move_rec] in *. unfold best_move_body in *.
  rewrite loops_run_list in *. fold (loop_start st) in *.
  destruct (loops_at_depth_limit (fun _ _ _ _ _ _ => OutOfFuel)
              player 1 1 prev bs st Hwf ltac:(lia)) as [ls E].
  rewrite E in *. eexists. split; [reflexivity |].
  destruct Hsound as [Hg [[Hv | [Habs _]] _]]; [| lia].
  split; [exact Hg | exact Hv].
Qed.

Lemma can_move_spec g player :
  can_move g player = true <->
  exists p, In p all_cells /\ legal g player p = true.
Proof. unfold can_move. apply existsb_exists. Qed.

Lemma can_move_false g player :
  can_move g player = false <->
  forall p, In p all_cells -> legal g player p = false.
Proof.
  split.
  - intros H p Hp. destruct (legal g player p) eqn:E; [| reflexivity].
    assert (can_move g player = true) by (apply can_move_spec; eauto).
    congruence.
  - intros H. destruct (can_move g player) eqn:E; [| reflexivity].
    apply can_move_spec in E as [p [Hp Hl]]. rewrite (H p Hp) in Hl.
    discriminate.
Qed.

(** X7.  Whatever it tries and however it ends its loops, a call of
    [best_move] that returns leaves the board, both counts and both
    player records exactly as it found them. *)
Theorem best_move_restores_game rand want player ply max_ply prev bs st res :
  wf_game (s_game st) = true ->
  best_move rand want player ply max_ply prev bs st = Done res ->
  s_game (final res) = s_game st /\
  board (s_game (final res)) = board (s_game st) /\
  count (x_data (s_game (final res))) = count (x_data (s_game st)) /\
  count (o_data (s_game (final res))) = count (o_data (s_game st)).
Proof.
  intros Hwf H. unfold best_move in H.
  apply best_move_rec_restores in H; [| exact Hwf].
  rewrite H. repeat split.
Qed.

Lemma best_move_restores_game_witness :
  s_game (final start_search_result) = start_game /\
  board (s_game (final start_search_result)) = start_board /\
  count (x_data (s_game (final start_search_result))) = 2 /\
  count (o_data (s_game (final start_search_result))) = 2.
Proof.
  apply (best_move_restores_game (fun n => Z.of_nat n) true X_DATA 1 3 0 0
           start_state start_search_result);
    vm_compute; reflexivity.
Defined.

(** X8.  The search that [main] starts (ply 1, with a chain
    requested) never runs out of recursion depth, and when no
    assertion stops it, the score it returns is the value of the
    position in the unpruned search to the same depth: the cut-offs
    change no score at the root. *)
Theorem best_move_root_is_minimax rand player max_ply prev bs st :
  wf_game (s_game st) = true -> counts_consistent (s_game st) = true ->
  0 <= max_ply < 2 ^ 32 ->
  match best_move rand true player 1 max_ply prev bs st with
  | Done res => score res = minimax (Z.to_nat (max_ply - 1)) player (s_game st)
  | AssertFail => True
  | OutOfFuel => False
  end.
Proof.
  intros Hwf Hcons Hmax. unfold best_move.
  pose proof (best_move_rec_sound rand (Z.to_nat (max_ply - 1)) player 1
                max_ply prev bs st Hwf Hcons ltac:(lia) ltac:(lia)
                ltac:(lia)) as H.
  destruct (best_move_rec _ _ _ _ _ _ _ _ _) as [res | |];
    [| exact I | exact H].
  destruct H as [_ [[Hv | [Habs _]] _]]; [exact Hv | lia].
Qed.

Lemma best_move_root_is_minimax_witness :
  match best_move (fun n => Z.of_nat n) true X_DATA 1 3 0 0 start_state with
  | Done res => score res = minimax (Z.to_nat (3 - 1)) X_DATA start_game
  | AssertFail => True
  | OutOfFuel => False
  end.
Proof.
  apply (best_move_root_is_minimax (fun n => Z.of_nat n) X_DATA 3 0 0
           start_state);
    [vm_compute; reflexivity | vm_compute; reflexivity | lia].
Defined.

(** X9.  At any ply a returned score is never above the value of the
    node in the unpruned search, and it is below it only after a
    cut-off, at a ply above 1 and with
    [prev_move_val - score < best_sibling]: the caller's move, whose
    net score is [prev_move_val - score], then falls short of the
    caller's best and is dropped. *)
Theorem best_move_cutoff_is_sound rand player ply max_ply prev bs st :
  wf_game (s_game st) = true -> counts_consistent (s_game st) = true ->
  0 <= ply -> max_ply < 2 ^ 32 ->
  match best_move rand true player ply max_ply prev bs st with
  | Done res =>
      score res <= minimax (Z.to_nat (max_ply - ply)) player (s_game st) /\
      (score res <> minimax (Z.to_nat (max_ply - ply)) player (s_game st) ->
       1 < ply /\ prev - score res < bs)
  | AssertFail => True
  | OutOfFuel => False
  end.
Proof.
  intros Hwf Hcons Hply Hmax. unfold best_move.
  pose proof (best_move_rec_sound rand (Z.to_nat (max_ply - ply)) player ply
                max_ply prev bs st Hwf Hcons Hply Hmax ltac:(lia)) as H.
  destruct (best_move_rec _ _ _ _ _ _ _ _ _) as [res | |];
    [| exact I | exact H].
  destruct H as [_ [[Hv | [H1 [H2 H3]]] _]].
  - split; [lia | intros Hne; contradiction].
  - split; [exact H2 | intros _; split; assumption].
Qed.

Lemma best_move_cutoff_is_sound_witness :
  match best_move (fun n => Z.of_nat n) true O_DATA 2 3 2 5
          {| s_game := snd (move_result 2 4 X_DATA start_game);
             local_heap := []; rand_calls := 0 |} with
  | Done res =>
      score res <= minimax (Z.to_nat (3 - 2)) O_DATA
                     (snd (move_result 2 4 X_DATA start_game)) /\
      (score res <> minimax (Z.to_nat (3 - 2)) O_DATA
                      (snd (move_result 2 4 X_DATA start_game)) ->
       1 < 2 /\ 2 - score res < 5)
  | AssertFail => True
  | OutOfFuel => False
  end.
Proof.
  apply (best_move_cutoff_is_sound (fun n => Z.of_nat n) O_DATA 2 3 2 5
           {| s_game := snd (move_result 2 4 X_DATA start_game);
              local_heap := []; rand_calls := 0 |});
    [vm_compute; reflexivity | vm_compute; reflexivity | lia | lia].
Defined.

(** X10.  The chain that [best_move] stores is [NULL] exactly when the
    player has no legal move, and then the score is 0; otherwise its
    first record is a legal move of the player whose net score in the
    unpruned search is the returned score. *)
Theorem best_move_chain_head rand player ply max_ply prev bs st :
  wf_game (s_game st) = true -> counts_consistent (s_game st) = true ->
  0 <= ply -> max_ply < 2 ^ 32 ->
  match best_move rand true player ply max_ply prev bs st with
  | Done res =>
      match chain res with
      | [] => can_move (s_game st) player = false /\ score res = 0
      | p :: _ =>
          In p all_cells /\ legal (s_game st) player p = true /\
          move_net (Z.to_nat (max_ply - ply)) player (s_game st) p
          = Some (score res)
      end
  | AssertFail => True
  | OutOfFuel => False
  end.
Proof.
  intros Hwf Hcons Hply Hmax. unfold best_move.
  pose proof (best_move_rec_sound rand (Z.to_nat (max_ply - ply)) player ply
                max_ply prev bs st Hwf Hcons Hply Hmax ltac:(lia)) as H.
  destruct (best_move_rec _ _ _ _ _ _ _ _ _) as [res | |];
    [| exact I | exact H].
  destruct H as [_ [_ [Hnil Hhead]]].
  pose proof Hwf as Hwf'. apply wf_game_spec in Hwf' as [Hs _].
  destruct (chain res) as [| p tl].
  - destruct (Hnil eq_refl) as [H0 Hnone]. split; [| exact H0].
    apply can_move_false. exact Hnone.
  - destruct (Hhead p tl eq_refl) as [Hp Hnet].
    split; [exact Hp |]. split; [| exact Hnet].
    apply (move_net_some_legal (Z.to_nat (max_ply - ply)) player (s_game st)
             p (score res));
      assumption.
Qed.

Lemma best_move_chain_head_witness :
  match best_move (fun n => Z.of_nat n) true X_DATA 1 2 0 0 start_state with
  | Done res =>
      match chain res with
      | [] => can_move start_game X_DATA = false /\ score res = 0
      | p :: _ =>
          In p all_cells /\ legal start_game X_DATA p = true /\
          move_net (Z.to_nat (2 - 1)) X_DATA start_game p = Some (score res)
      end
  | AssertFail => True
  | OutOfFuel => False
  end.
Proof.
  apply (best_move_chain_head (fun n => Z.of_nat n) X_DATA 1 2 0 0
           start_state);
    [vm_compute; reflexivity | vm_compute; reflexivity | lia | lia].
Defined.

(** X11.  When the player has no legal move, [best_move] returns at
    once, at any ply and depth: with a chain requested the score is 0
    and the chain [NULL]; without one ([rtn_chain == NULL]) the score
    is [INIT_MAX_EFFECT]; the game, the pool and the state of [rand]
    are untouched. *)
Theorem best_move_without_move rand fuel want player ply max_ply prev bs st :
  board_shape (board (s_game st)) = true ->
  can_move (s_game st) player = false ->
  best_move_rec rand fuel want player ply max_ply prev bs st
  = Done {| score := if want then 0 else INIT_MAX_EFFECT;
            chain := []; final := st |}.
Proof.
  intros Hs Hnone. rewrite can_move_false in Hnone.
  assert (Hbody : forall recurse,
            best_move_body rand recurse player ply max_ply prev bs want st
            = Done {| score := if want then 0 else INIT_MAX_EFFECT;
                      chain := []; final := st |}).
  { intros recurse. unfold best_move_body.
    rewrite loops_run_list. fold (loop_start st).
    rewrite loops_no_legal_move by assumption.
    unfold finish, loop_start. cbn. destruct want; reflexivity. }
  destruct fuel; cbn [best_move_rec]; apply Hbody.
Qed.

Lemma best_move_without_move_witness :
  best_move_rec (fun n => Z.of_nat n) 3 true X_DATA 1 4 0 0
    {| s_game := blank_game; local_heap := [(0, 0)]; rand_calls := 7 |}
  = Done {| score := 0; chain := [];
            final := {| s_game := blank_game; local_heap := [(0, 0)];
                        rand_calls := 7 |} |}.
Proof.
  apply (best_move_without_move (fun n => Z.of_nat n) 3 true X_DATA 1 4 0 0
           {| s_game := blank_game; local_heap := [(0, 0)]; rand_calls := 7 |});
    vm_compute; reflexivity.
Defined.

Lemma viability_returns rand player st :
  wf_game (s_game st) = true -> counts_consistent (s_game st) = true ->
  exists v,
    best_move rand true player 1 1 0 0 st = Done v /\
    s_game (final v) = s_game st /\
    (0 <? score v) = can_move (s_game st) player /\
    (score v = 0 \/ 2 <= score v).
Proof.
  intros Hwf Hcons.
  destruct (viability_sound rand player 0 0 st Hwf Hcons) as [v [E [Hg Hv]]].
  exists v. split; [exact E |]. split; [exact Hg |].
  destruct (minimax_leaf_positive player (s_game st) Hwf) as [Hiff Hge].
  rewrite Hv. split.
  - destruct (can_move (s_game st) player) eqn:Ec.
    + apply Z.ltb_lt, Hiff, can_move_spec. exact Ec.
    + apply Z.ltb_ge. destruct (Z_lt_dec 0 (minimax 0 player (s_game st)))
        as [Hpos | Hnpos]; [| lia].
      apply Hiff, can_move_spec in Hpos. congruence.
  - destruct (Z_lt_dec 0 (minimax 0 player (s_game st))) as [Hpos | Hnpos].
    + right. apply Hge. exact Hpos.
    + left. destruct (can_move (s_game st) player) eqn:Ec.
      * apply can_move_spec, Hiff in Ec. lia.
      * rewrite can_move_false in Ec. rewrite minimax_unfold.
        pose proof Hwf as Hwf'. apply wf_game_spec in Hwf' as [Hs _].
        assert (Hn : omap (move_net 0 player (s_game st)) all_cells = []).
        { destruct (omap _ all_cells) as [| t ts] eqn:En; [reflexivity |].
          assert (Ht : In t (omap (move_net 0 player (s_game st)) all_cells))
            by (rewrite En; left; reflexivity).
          apply list_elem_of_In, list_elem_of_omap in Ht as [p [Hp Hnet]].
          apply list_elem_of_In in Hp.
          pose proof (move_net_some_legal 0 player (s_game st) p t Hs Hp Hnet).
          rewrite (Ec p Hp) in *. discriminate. }
        rewrite Hn. reflexivity.
Qed.

(** X12.  The viability check of [main],
    [best_move( &chain_ptr, player, 1, 1, 0, 0 ) > 0], always returns
    (no assertion is in reach at depth 1), gives the game back, and is
    positive exactly when the player has a legal move; a positive
    score is at least 2. *)
Theorem viability_check rand player st :
  wf_game (s_game st) = true -> counts_consistent (s_game st) = true ->
  exists v,
    best_move rand true player 1 1 0 0 st = Done v /\
    s_game (final v) = s_game st /\
    (0 <? score v) = can_move (s_game st) player /\
    (score v = 0 \/ 2 <= score v).
Proof. exact (viability_returns rand player st). Qed.

Lemma viability_check_witness :
  exists v,
    best_move (fun n => Z.of_nat n) true X_DATA 1 1 0 0 start_state = Done v /\
    s_game (final v) = start_game /\
    (0 <? score v) = can_move start_game X_DATA /\
    (score v = 0 \/ 2 <= score v).
Proof.
  apply (viability_check (fun n => Z.of_nat n) X_DATA start_state);
    vm_compute; reflexivity.
Defined.

(** ** Fragments of [main] *)

Lemma human_move_cases row col player g :
  wf_game g = true -> 0 <= row -> 0 <= col ->
  human_move row col player g
  = Some (if negb (on_board row col) then (InvalidCoordinates, g)
          else if negb (Ascii.eqb (cell (board g) row col) " "%char)
          then (Occupied, g)
          else if legal g player (row, col)
          then (MoveOK, snd (move_result row col player g))
          else (ZeroYield, g)).
Proof.
  intros Hwf Hrow Hcol. pose proof Hwf as Hwf'.
  apply wf_game_spec in Hwf' as [Hs _].
  unfold human_move, BOARD_SIZE.
  destruct (on_board row col) eqn:Hon; cbn [negb].
  - pose proof Hon as Hon'. apply on_board_spec in Hon'.
    replace (8 <=? row) with false by (symmetry; apply Z.leb_gt; lia).
    replace (8 <=? col) with false by (symmetry; apply Z.leb_gt; lia).
    destruct (Ascii.eqb_spec (cell (board g) row col) " "%char) as [He | He];
      cbn [negb]; [| reflexivity].
    rewrite compute_effect_move_result by assumption.
    destruct (move_result_num_changed row col player g) as [_ Hnum].
    destruct (legal g player (row, col)) eqn:El.
    + pose proof (legal_heur g player row col Hwf Hon El) as Hh.
      destruct (move_result row col player g) as [eff g'].
      cbn [fst snd] in *.
      replace (heur eff =? 0) with false by (symmetry; apply Z.eqb_neq; lia).
      reflexivity.
    + assert (Hfl : flips (board g) (marker (pdata g player)) row col = []).
      { destruct (flips (board g) (marker (pdata g player)) row col) eqn:E;
          [reflexivity |].
        assert (legal g player (row, col) = true).
        { apply legal_spec; try assumption. split; [exact He |].
          rewrite E. discriminate. }
        congruence. }
      rewrite move_result_idle by exact Hfl. reflexivity.
  - assert (Hcond : (if 8 <=? row then true else 8 <=? col) = true).
    { destruct (8 <=? row) eqn:E1; [reflexivity |].
      apply Z.leb_gt in E1. apply Z.leb_le.
      destruct (Z_le_dec 8 col) as [H | H]; [exact H |].
      assert (on_board row col = true) by (apply on_board_spec; lia).
      congruence. }
    rewrite Hcond. reflexivity.
Qed.

(** X13.  The checks of [main] on a human move accept exactly the legal
    moves: with [unsigned] coordinates the single test
    [row >= BOARD_SIZE || col >= BOARD_SIZE] rejects everything off
    the board; an occupied cell is rejected before [compute_effect]
    is called; [effect == 0] rejects exactly the moves that flip
    nothing; every rejected input leaves the game as it was, and an
    accepted one has been played. *)
Theorem human_move_accepts_legal row col player g :
  wf_game g = true -> 0 <= row -> 0 <= col ->
  human_move row col player g
  = Some (if negb (on_board row col) then (InvalidCoordinates, g)
          else if negb (Ascii.eqb (cell (board g) row col) " "%char)
          then (Occupied, g)
          else if legal g player (row, col)
          then (MoveOK, snd (move_result row col player g))
          else (ZeroYield, g)).
Proof. exact (human_move_cases row col player g). Qed.

Lemma human_move_accepts_legal_witness :
  human_move (2 ^ 32 - 1) 4 X_DATA start_game
  = Some (if negb (on_board (2 ^ 32 - 1) 4) then (InvalidCoordinates, start_game)
          else if negb (Ascii.eqb (cell start_board (2 ^ 32 - 1) 4) " "%char)
          then (Occupied, start_game)
          else if legal start_game X_DATA (2 ^ 32 - 1, 4)
          then (MoveOK, snd (move_result (2 ^ 32 - 1) 4 X_DATA start_game))
          else (ZeroYield, start_game)).
Proof.
  apply (human_move_accepts_legal (2 ^ 32 - 1) 4 X_DATA start_game);
    [vm_compute; reflexivity | lia | lia].
Defined.

Lemma computer_turn_facts rand max_ply player st :
  wf_game (s_game st) = true -> counts_consistent (s_game st) = true ->
  0 <= max_ply < 2 ^ 32 ->
  match computer_turn rand max_ply player st with
  | Done (Moved p effect st') =>
      In p all_cells /\
      legal (s_game st) player p = true /\
      s_game st' = snd (move_result (fst p) (snd p) player (s_game st)) /\
      effect = minimax (Z.to_nat (max_ply - 1)) player (s_game st) /\
      wf_game (s_game st') = true /\ counts_consistent (s_game st') = true
  | Done (CannotMove st') =>
      can_move (s_game st) player = false /\ s_game st' = s_game st
  | Done NullChain => False
  | AssertFail => True
  | OutOfFuel => False
  end.
Proof.
  intros Hwf Hcons Hmax. unfold computer_turn.
  destruct (viability_returns rand player st Hwf Hcons)
    as [v [Ev [Hgv [Hpos _]]]].
  rewrite Ev, Hpos.
  destruct (can_move (s_game st) player) eqn:Ec;
    [| split; [reflexivity | exact Hgv]].
  pose proof (best_move_rec_sound rand (Z.to_nat (max_ply - 1)) player 1
                max_ply 0 0 (final v)) as Hsound.
  rewrite Hgv in Hsound.
  specialize (Hsound Hwf Hcons ltac:(lia) ltac:(lia) ltac:(lia)).
  unfold best_move.
  destruct (best_move_rec _ _ _ _ _ _ _ _ _) as [r | |];
    [| exact I | exact Hsound].
  destruct Hsound as [Hgr [Hval [Hnil Hhead]]].
  pose proof Hwf as Hwf'. apply wf_game_spec in Hwf' as [Hs _].
  destruct (chain r) as [| p tl] eqn:Echain.
  - destruct (Hnil eq_refl) as [_ Hnone].
    apply can_move_false in Hnone. congruence.
  - destruct (Hhead p tl eq_refl) as [Hp Hnet].
    pose proof (in_all_cells_pair p Hp) as Hon.
    pose proof (move_net_some_legal _ player (s_game st) p (score r)
                  Hs Hp Hnet) as Hl.
    rewrite Hgr, compute_effect_move_result by assumption.
    destruct (move_result (fst p) (snd p) player (s_game st)) as [eff g']
      eqn:Emr.
    cbn [s_game snd].
    assert (Hg' : g' = snd (move_result (fst p) (snd p) player (s_game st)))
      by (rewrite Emr; reflexivity).
    split; [exact Hp |]. split; [exact Hl |]. split; [exact Hg' |]. split.
    + destruct Hval as [Hv | [Habs _]]; [exact Hv | lia].
    + rewrite Hg'. split.
      * apply move_result_wf; assumption.
      * apply move_result_consistent; try assumption.
        replace p with (fst p, snd p) in Hl by (destruct p; reflexivity).
        apply legal_spec in Hl as [He _]; assumption.
Qed.

Lemma computer_turn_sound rand max_ply player st :
  wf_game (s_game st) = true -> counts_consistent (s_game st) = true ->
  0 <= max_ply < 2 ^ 32 ->
  match computer_turn rand max_ply player st with
  | Done (Moved p effect st') =>
      legal (s_game st) player p = true /\
      s_game st' = snd (move_result (fst p) (snd p) player (s_game st)) /\
      effect = minimax (Z.to_nat (max_ply - 1)) player (s_game st) /\
      wf_game (s_game st') = true /\ counts_consistent (s_game st') = true
  | Done (CannotMove st') =>
      can_move (s_game st) player = false /\ s_game st' = s_game st
  | Done NullChain => False
  | AssertFail => True
  | OutOfFuel => False
  end.
Proof.
  intros Hwf Hcons Hmax.
  pose proof (computer_turn_facts rand max_ply player st Hwf Hcons Hmax) as H.
  destruct (computer_turn rand max_ply player st) as [[st' | p e st' |] | |];
    try exact H.
  destruct H as [_ H]. exact H.
Qed.

(** X14.  A turn of the computer in [main] never reads through a
    [NULL] chain: when the viability check is positive, the search
    returns a chain whose head is a legal move, that move is the one
    played, the score reported is the value of the position in the
    unpruned search, and the game after the turn satisfies the
    invariants of the data model; when the check is not positive the
    player has no legal move and the game is as before. *)
Theorem computer_turn_is_safe rand max_ply player st :
  wf_game (s_game st) = true -> counts_consistent (s_game st) = true ->
  0 <= max_ply < 2 ^ 32 ->
  match computer_turn rand max_ply player st with
  | Done (Moved p effect st') =>
      legal (s_game st) player p = true /\
      s_game st' = snd (move_result (fst p) (snd p) player (s_game st)) /\
      effect = minimax (Z.to_nat (max_ply - 1)) player (s_game st) /\
      wf_game (s_game st') = true /\ counts_consistent (s_game st') = true
  | Done (CannotMove st') =>
      can_move (s_game st) player = false /\ s_game st' = s_game st
  | Done NullChain => False
  | AssertFail => True
  | OutOfFuel => False
  end.
Proof. exact (computer_turn_sound rand max_ply player st). Qed.

Lemma computer_turn_is_safe_witness :
  match computer_turn (fun n => Z.of_nat n) 2 X_DATA start_state with
  | Done (Moved p effect st') =>
      legal start_game X_DATA p = true /\
      s_game st' = snd (move_result (fst p) (snd p) X_DATA start_game) /\
      effect = minimax (Z.to_nat (2 - 1)) X_DATA start_game /\
      wf_game (s_game st') = true /\ counts_consistent (s_game st') = true
  | Done (CannotMove st') =>
      can_move start_game X_DATA = false /\ s_game st' = start_game
  | Done NullChain => False
  | AssertFail => True
  | OutOfFuel => False
  end.
Proof.
  apply (computer_turn_is_safe (fun n => Z.of_nat n) 2 X_DATA start_state);
    [vm_compute; reflexivity | vm_compute; reflexivity | lia].
Defined.

(** ** The chain of [best_move] is a line of play *)

Section Chain.

Variable rand : nat -> Z.
Variable recurse :
  player_ref -> Z -> Z -> Z -> Z -> search_state -> outcome search_result.
Variables (player : player_ref) (ply max_ply prev bs : Z).
Variables (g0 : game) (depth : nat).

Hypothesis Hwf : wf_game g0 = true.
Hypothesis Hcons : counts_consistent g0 = true.
Hypothesis Hply : 0 <= ply.
Hypothesis Hmax : max_ply < 2 ^ 32.
Hypothesis Hrec : forall g1 pv bsib heap rc res,
  ply < max_ply ->
  wf_game g1 = true -> counts_consistent g1 = true ->
  recurse (opponent player) (ply + 1) max_ply pv bsib
    {| s_game := g1; local_heap := heap; rand_calls := rc |} = Done res ->
  s_game (final res) = g1 /\
  playable g1 (opponent player) (chain res) = true /\
  (length (chain res) <= depth)%nat.

Local Abbreviation deeper :=
  ((ply <? max_ply)
   && (count (pdata g0 player) + count (pdata g0 (opponent player)) + 1
       <? BOARD_AREA)).

Lemma reply_chain p ls t :
  In p all_cells -> legal g0 player p = true ->
  (deeper = false -> chain_ptr ls = []) ->
  reply recurse player ply max_ply
    (fst (move_result (fst p) (snd p) player g0))
    (snd (move_result (fst p) (snd p) player g0)) ls = Done t ->
  s_game (t_state t) = snd (move_result (fst p) (snd p) player g0) /\
  (deeper = false -> t_chain t = []) /\
  playable (snd (move_result (fst p) (snd p) player g0)) (opponent player)
    (t_chain t) = true /\
  (length (t_chain t) <= depth)%nat.
Proof.
  intros Hp Hl Hptr. pose proof Hwf as Hwf'.
  apply wf_game_spec in Hwf' as [Hs _].
  pose proof (in_all_cells_pair p Hp) as Hon.
  destruct p as [i j]. cbn [fst snd] in *.
  apply legal_spec in Hl as [Hempty Hne]; try assumption.
  pose proof (move_result_wf i j player g0 Hwf Hon) as Hwf1.
  pose proof (move_result_consistent i j player g0 Hwf Hcons Hon Hempty)
    as Hcons1.
  destruct (move_result_counts i j player g0 Hwf Hcons Hon Hempty Hne)
    as [C1 [C2 _]].
  set (eff := fst (move_result i j player g0)) in *.
  set (g1 := snd (move_result i j player g0)) in *.
  pose proof (proj1 (counts_consistent_spec g0) Hcons) as Hc.
  pose proof (count_cells_range (board g0) (marker (pdata g0 player))) as R1.
  pose proof (count_cells_range (board g0)
                (marker (pdata g0 (opponent player)))) as R2.
  pose proof (Hc player) as Hcp. pose proof (Hc (opponent player)) as Hco.
  assert (Hsum : u32 (count (pdata g1 player) + count (pdata g1 (opponent player)))
                 = count (pdata g0 player) + count (pdata g0 (opponent player)) + 1).
  { rewrite C1, C2. rewrite u32_small by lia. ring. }
  unfold reply. rewrite Hsum.
  destruct deeper eqn:Ed.
  - apply andb_true_iff in Ed as [Ep _]. apply Z.ltb_lt in Ep.
    rewrite u32_small by lia.
    destruct (recurse _ _ _ _ _ _) as [res | |] eqn:Er; try discriminate.
    destruct (INIT_MAX_EFFECT <? _); [| discriminate].
    intros H. injection H as <-. cbn [t_state t_chain].
    destruct (Hrec g1 _ _ _ _ res Ep Hwf1 Hcons1 Er) as [Hg [Hpl Hlen]].
    repeat split; try assumption. intros Habs. discriminate.
  - intros H. injection H as <-. cbn [t_state t_chain s_game].
    rewrite (Hptr eq_refl). repeat split; try reflexivity. simpl. lia.
Qed.

Lemma try_cell_chain_inv p ls ls' :
  In p all_cells -> chain_inv g0 player deeper depth ls ->
  try_cell recurse player ply max_ply prev bs (fst p) (snd p) ls = Done ls' ->
  chain_inv g0 player deeper depth ls'.
Proof.
  intros Hp [Hg [Hptr Hcand]]. pose proof Hwf as Hwf'.
  apply wf_game_spec in Hwf' as [Hs _].
  pose proof (in_all_cells_pair p Hp) as Hon.
  rewrite try_cell_cases by (rewrite ?Hg; assumption).
  rewrite Hg.
  replace (fst p, snd p) with p by (destruct p; reflexivity).
  destruct (legal g0 player p) eqn:El.
  2:{ intros H. injection H as <-.
      split; [exact Hg | split; [exact Hptr | exact Hcand]]. }
  destruct (reply _ _ _ _ _ _ _) as [t | |] eqn:Er; try discriminate.
  intros H. injection H as <-.
  destruct (reply_chain p ls t Hp El Hptr Er) as [Hgt [Hnil [Hpl Hlen]]].
  assert (Hnew : (fst p, snd p) :: t_chain t <> [] /\
                 playable g0 player ((fst p, snd p) :: t_chain t) = true /\
                 (length ((fst p, snd p) :: t_chain t) <= S depth)%nat).
  { split; [discriminate |]. split.
    - cbn [playable fst snd]. rewrite Hon, Hpl.
      replace (fst p, snd p) with p by (destruct p; reflexivity).
      rewrite El. reflexivity.
    - simpl. lia. }
  unfold chain_inv, select.
  cbn [ls_state s_game chain_ptr best_moves].
  split; [| split; [exact Hnil |]].
  - rewrite Hgt. apply undo_move_result; try assumption.
    + replace p with (fst p, snd p) in El by (destruct p; reflexivity).
      apply legal_spec in El as [He _]; assumption.
    + replace p with (fst p, snd p) in El by (destruct p; reflexivity).
      apply legal_spec in El as [_ Hne]; assumption.
  - intros c Hc.
    destruct (max_effect ls <? t_effect t);
      destruct (t_effect t =? _); cbn [app] in Hc.
    + destruct Hc as [<- | []]. exact Hnew.
    + destruct Hc.
    + apply in_app_or in Hc as [Hc | [<- | []]];
        [apply Hcand; exact Hc | exact Hnew].
    + apply Hcand. exact Hc.
Qed.

Lemma best_move_body_chain st res :
  s_game st = g0 ->
  best_move_body rand recurse player ply max_ply prev bs true st = Done res ->
  playable g0 player (chain res) = true /\
  (length (chain res) <= S depth)%nat.
Proof.
  intros Hst. unfold best_move_body. rewrite loops_run_list.
  fold (loop_start st).
  destruct (run_list _ all_cells (loop_start st)) as [ls | |] eqn:E;
    try discriminate.
  intros H. injection H as <-.
  assert (Hinv : chain_inv g0 player deeper depth ls).
  { apply (run_list_invariant (chain_inv g0 player deeper depth) _ _ _ _)
      in E; [exact E | |].
    - intros p s s' Hp Hs Hbody. apply (try_cell_chain_inv p s s' Hp Hs Hbody).
    - unfold chain_inv, loop_start. cbn.
      split; [exact Hst |]. split; [reflexivity |]. intros c []. }
  destruct Hinv as [_ [_ Hcand]].
  unfold finish. cbn [negb].
  destruct (length (best_moves ls) =? 0)%nat eqn:En;
    cbn [chain]; [split; [reflexivity | simpl; lia] |].
  apply Nat.eqb_neq in En.
  set (chosen := Z.to_nat _).
  assert (Hchosen : (chosen < length (best_moves ls))%nat).
  { unfold chosen.
    pose proof (Z.mod_pos_bound (u32 (rand (rand_calls (ls_state ls))))
                  (Z.of_nat (length (best_moves ls))) ltac:(lia)). lia. }
  destruct (Hcand _ (nth_In (best_moves ls) [] Hchosen)) as [_ [H1 H2]].
  split; assumption.
Qed.

End Chain.

Lemma best_move_rec_chain rand : forall fuel player ply max_ply prev bs st res,
  wf_game (s_game st) = true -> counts_consistent (s_game st) = true ->
  0 <= ply -> max_ply < 2 ^ 32 ->
  best_move_rec rand fuel true player ply max_ply prev bs st = Done res ->
  playable (s_game st) player (chain res) = true /\
  (length (chain res) <= S (Z.to_nat (max_ply - ply)))%nat.
Proof.
  induction fuel as [| fuel IH];
    intros player ply max_ply prev bs st res Hwf Hcons Hply Hmax H;
    cbn [best_move_rec] in H.
  - apply (best_move_body_chain rand _ player ply max_ply prev bs (s_game st)
             (Z.to_nat (max_ply - ply)) Hwf Hcons Hply Hmax) in H;
      [exact H | | reflexivity].
    intros; discriminate.
  - apply (best_move_body_chain rand _ player ply max_ply prev bs (s_game st)
             (Z.to_nat (max_ply - ply)) Hwf Hcons Hply Hmax) in H;
      [exact H | | reflexivity].
    intros g1 pv bsib heap rc res' Hlt Hwf1 Hcons1 Hr.
    pose proof Hr as Hr'.
    apply best_move_rec_restores in Hr'; [| exact Hwf1].
    apply IH in Hr as [Hpl Hlen];
      [| exact Hwf1 | exact Hcons1 | lia | exact Hmax].
    cbn [s_game] in *. split; [exact Hr' | split; [exact Hpl | lia]].
Qed.

(** X15.  The chain that [best_move] stores (the "optimal chain" that
    [main] prints with the players alternating) is a line of play: its
    first record is a legal move of the player on the current board,
    the next a legal move of the opponent on the board after that
    move, and so on; and it has at most [max_ply - ply + 1] records. *)
Theorem best_move_chain_is_line_of_play rand player ply max_ply prev bs st res :
  wf_game (s_game st) = true -> counts_consistent (s_game st) = true ->
  0 <= ply -> max_ply < 2 ^ 32 ->
  best_move rand true player ply max_ply prev bs st = Done res ->
  playable (s_game st) player (chain res) = true /\
  Z.of_nat (length (chain res)) <= Z.max 0 (max_ply - ply) + 1.
Proof.
  intros Hwf Hcons Hply Hmax H. unfold best_move in H.
  destruct (best_move_rec_chain rand _ _ _ _ _ _ _ _ Hwf Hcons Hply Hmax H)
    as [H1 H2].
  split; [exact H1 | lia].
Qed.

Lemma best_move_chain_is_line_of_play_witness :
  playable start_game X_DATA (chain start_search_result) = true /\
  Z.of_nat (length (chain start_search_result)) <= Z.max 0 (3 - 1) + 1.
Proof.
  apply (best_move_chain_is_line_of_play (fun n => Z.of_nat n) X_DATA 1 3 0 0
           start_state start_search_result);
    [vm_compute; reflexivity | vm_compute; reflexivity | lia | lia
    | vm_compute; reflexivity].
Defined.

(** ** The candidates of [best_move] *)

Lemma foldl_max_upper a l x : In x l -> x <= foldl Z.max a l.
Proof.
  intros Hin. assert (Hne : l <> []) by (intros ->; destruct Hin).
  rewrite foldl_max_best_of by exact Hne.
  pose proof (best_of_upper l x Hin). lia.
Qed.

Lemma filter_none {A} (f : A -> bool) l :
  (forall x, In x l -> f x = false) -> List.filter f l = [].
Proof.
  induction l as [| y l IH]; intros H; [reflexivity |].
  simpl. rewrite (H y (or_introl eq_refl)).
  apply IH. intros x Hx. apply H. right. exact Hx.
Qed.

Section Ties.

Variable recurse :
  player_ref -> Z -> Z -> Z -> Z -> search_state -> outcome search_result.
Variables (player : player_ref) (ply max_ply prev bs : Z).
Variables (g0 : game) (depth : nat).

Hypothesis Hwf : wf_game g0 = true.
Hypothesis Hcons : counts_consistent g0 = true.
Hypothesis Hply : 0 <= ply.
Hypothesis Hmax : max_ply < 2 ^ 32.
Hypothesis Hdepth : depth = Z.to_nat (max_ply - ply).
Hypothesis Hrec :
  ply < max_ply ->
  reply_sound recurse (Nat.pred depth) (opponent player) (ply + 1) max_ply.

Local Abbreviation net := (move_net depth player g0).

Lemma select_heads p seen ls t tnet :
  node_inv g0 net ply prev bs seen ls -> heads_inv net seen ls ->
  done ls = false -> net p = Some tnet ->
  INIT_MAX_EFFECT < t_effect t ->
  (t_effect t = tnet \/ (tnet <= t_effect t /\ t_effect t < max_effect ls)) ->
  heads_inv net (seen ++ [p])
    (select player ply prev bs (fst p) (snd p)
       (fst (move_result (fst p) (snd p) player g0)) t ls).
Proof.
  intros [_ [_ Hst]] Hheads Hnd Hnet Hini Hval.
  rewrite Hnd in Hst. destruct Hst as [HM _].
  specialize (Hheads Hnd).
  assert (Hle : forall q, In q seen ->
            is_best net (max_effect ls) q = true \/
            exists tq, net q = Some tq /\ tq < max_effect ls \/ net q = None).
  { intros q Hq. unfold is_best. destruct (net q) as [tq |] eqn:Eq.
    - assert (tq <= max_effect ls).
      { rewrite HM. apply foldl_max_upper.
        apply list_elem_of_In, list_elem_of_omap. exists q.
        split; [apply list_elem_of_In; exact Hq | exact Eq]. }
      destruct (Z.eqb_spec tq (max_effect ls)) as [-> | Hneq];
        [left; reflexivity | right; exists tq; left; split; [reflexivity | lia]].
    - right. exists 0. right. reflexivity. }
  unfold heads_inv, select. cbn [done max_effect best_moves].
  intros _. rewrite List.filter_app. cbn [List.filter].
  set (e := t_effect t) in *. set (M := max_effect ls) in *.
  replace ((fst p, snd p)) with p by (destruct p; reflexivity).
  destruct (Z.ltb_spec M e) as [Hbetter | Hnot].
  - assert (He : e = tnet) by (destruct Hval as [H | [_ H]]; [exact H | lia]).
    rewrite Z.eqb_refl. cbn [app omap list_omap head].
    rewrite filter_none.
    + unfold is_best. rewrite Hnet, He, Z.eqb_refl. reflexivity.
    + intros q Hq. unfold is_best.
      destruct (Hle q Hq) as [Hb | [tq [[Eq Hlt] | Eq]]].
      * unfold is_best in Hb. destruct (net q) as [tq |]; [| discriminate].
        apply Z.eqb_eq in Hb. apply Z.eqb_neq. lia.
      * rewrite Eq. apply Z.eqb_neq. lia.
      * rewrite Eq. reflexivity.
  - destruct (Z.eqb_spec e M) as [Heq | Hneq].
    + assert (He : e = tnet) by (destruct Hval as [H | [_ H]]; [exact H | lia]).
      rewrite omap_app. cbn [omap list_omap head]. rewrite Hheads.
      assert (Hb : is_best net M p = true)
        by (unfold is_best; rewrite Hnet; apply Z.eqb_eq; lia).
      rewrite Hb. reflexivity.
    + assert (Hb : is_best net M p = false)
        by (unfold is_best; rewrite Hnet; apply Z.eqb_neq; destruct Hval; lia).
      rewrite Hheads, Hb, app_nil_r. reflexivity.
Qed.

Lemma try_cell_heads p seen ls :
  In p all_cells -> node_inv g0 net ply prev bs seen ls ->
  heads_inv net seen ls -> done ls = false ->
  match try_cell recurse player ply max_ply prev bs (fst p) (snd p) ls with
  | Done ls' => heads_inv net (seen ++ [p]) ls'
  | AssertFail => True
  | OutOfFuel => True
  end.
Proof.
  intros Hp Hinv Hheads Hnd. pose proof Hinv as [Hg _].
  pose proof Hwf as Hwf'. apply wf_game_spec in Hwf' as [Hs _].
  pose proof (in_all_cells_pair p Hp) as Hon.
  rewrite try_cell_cases by (rewrite ?Hg; assumption).
  rewrite Hg.
  replace (fst p, snd p) with p by (destruct p; reflexivity).
  destruct (legal g0 player p) eqn:El.
  - pose proof (reply_value recurse player ply max_ply g0 depth Hwf Hcons
                  Hply Hmax Hdepth Hrec p ls Hp El) as Hr.
    destruct (reply _ _ _ _ _ _ _) as [t | |]; [| exact I | exact I].
    destruct Hr as [tnet [Hnet [_ [Hini Hval]]]].
    apply (select_heads p seen ls t tnet); assumption.
  - pose proof (move_net_illegal depth player g0 p Hs Hp El) as Hnone.
    intros Hd. rewrite List.filter_app. cbn [List.filter].
    unfold is_best at 2. rewrite Hnone, app_nil_r. apply Hheads. exact Hd.
Qed.

Lemma run_cells_heads : forall cells seen ls,
  (forall p, In p cells -> In p all_cells) ->
  node_inv g0 net ply prev bs seen ls -> heads_inv net seen ls ->
  match run_list
          (fun p => try_cell recurse player ply max_ply prev bs (fst p) (snd p))
          cells ls with
  | Done ls' => heads_inv net (seen ++ cells) ls'
  | AssertFail => True
  | OutOfFuel => True
  end.
Proof.
  induction cells as [| p cells IH]; intros seen ls Hcells Hinv Hheads.
  - cbn [run_list]. rewrite app_nil_r. exact Hheads.
  - cbn [run_list]. destruct (done ls) eqn:Hd.
    + intros Habs. congruence.
    + pose proof (try_cell_inv recurse player ply max_ply prev bs g0 depth
                    Hwf Hcons Hply Hmax Hdepth Hrec p seen ls
                    (Hcells p (or_introl eq_refl)) Hinv Hd) as Hstep.
      pose proof (try_cell_heads p seen ls (Hcells p (or_introl eq_refl))
                    Hinv Hheads Hd) as Hstep'.
      destruct (try_cell _ _ _ _ _ _ _ _ ls) as [ls1 | |];
        [| exact I | exact I].
      replace (seen ++ p :: cells) with ((seen ++ [p]) ++ cells)
        by (rewrite <- app_assoc; reflexivity).
      apply IH; [| exact Hstep | exact Hstep'].
      intros q Hq. apply Hcells. right. exact Hq.
Qed.

End Ties.

Lemma omap_head_length {A} (l : list (list A)) :
  (forall c, In c l -> c <> []) -> length (omap head l) = length l.
Proof.
  induction l as [| c l IH]; intros H; [reflexivity |].
  destruct c as [| x tl]; [destruct (H [] (or_introl eq_refl) eq_refl) |].
  cbn [omap list_omap head length]. f_equal.
  apply IH. intros c Hc. apply H. right. exact Hc.
Qed.

Lemma omap_head_lookup {A} (l : list (list A)) :
  (forall c, In c l -> c <> []) ->
  forall i, (i < length l)%nat -> omap head l !! i = head (nth i l []).
Proof.
  induction l as [| c l IH]; intros H i Hi; [simpl in Hi; lia |].
  destruct c as [| x tl]; [destruct (H [] (or_introl eq_refl) eq_refl) |].
  cbn [omap list_omap head]. destruct i as [| i]; [reflexivity |].
  cbn [nth]. change ((x :: omap head l) !! S i) with (omap head l !! i).
  apply IH; [| simpl in Hi; lia].
  intros c Hc. apply H. right. exact Hc.
Qed.

(** The recursive call that [best_move_rec] passes to the body is
    sound when the fuel covers the levels left. *)
Lemma recurse_reply_sound rand fuel player ply max_ply :
  0 <= ply -> max_ply < 2 ^ 32 -> max_ply - ply <= Z.of_nat fuel ->
  ply < max_ply ->
  reply_sound
    (match fuel with
     | O => fun _ _ _ _ _ _ => OutOfFuel
     | S fuel' => best_move_rec rand fuel' true
     end)
    (Nat.pred (Z.to_nat (max_ply - ply))) (opponent player) (ply + 1) max_ply.
Proof.
  intros Hply Hmax Hfuel Hlt. destruct fuel as [| fuel]; [lia |].
  intros g1 pv bsib heap rc Hwf1 Hcons1.
  pose proof (best_move_rec_sound rand fuel (opponent player) (ply + 1)
                max_ply pv bsib
                {| s_game := g1; local_heap := heap; rand_calls := rc |}
                Hwf1 Hcons1 ltac:(lia) Hmax ltac:(lia)) as IH.
  destruct (best_move_rec rand fuel true _ _ _ _ _ _) as [res | |];
    [| exact I | exact IH].
  destruct IH as [Hg [Hv _]]. cbn [s_game] in Hg, Hv.
  replace (Nat.pred (Z.to_nat (max_ply - ply)))
    with (Z.to_nat (max_ply - (ply + 1))) by lia.
  split; [exact Hg |].
  destruct Hv as [Hv | [_ [H1 H2]]]; [left; exact Hv | right; split; assumption].
Qed.

Lemma best_move_body_ties rand recurse player ply max_ply prev bs st depth :
  wf_game (s_game st) = true -> counts_consistent (s_game st) = true ->
  0 <= ply <= 1 -> max_ply < 2 ^ 32 -> depth = Z.to_nat (max_ply - ply) ->
  (ply < max_ply ->
   reply_sound recurse (Nat.pred depth) (opponent player) (ply + 1) max_ply) ->
  match best_move_body rand recurse player ply max_ply prev bs true st with
  | Done res => tie_break rand (move_net depth player (s_game st)) res
  | AssertFail => True
  | OutOfFuel => True
  end.
Proof.
  intros Hwf Hcons Hply Hmax Hdepth Hrec.
  unfold best_move_body. rewrite loops_run_list. fold (loop_start st).
  set (net := move_net depth player (s_game st)).
  assert (Hinit : node_inv (s_game st) net ply prev bs [] (loop_start st)).
  { unfold node_inv, loop_start. cbn.
    repeat split; try reflexivity; try contradiction. }
  assert (Hinit' : heads_inv net [] (loop_start st)).
  { intros _. reflexivity. }
  pose proof (run_cells_inv recurse player ply max_ply prev bs (s_game st)
                depth Hwf Hcons ltac:(lia) Hmax Hdepth Hrec all_cells []
                (loop_start st) (fun p H => H) Hinit) as Hrun.
  pose proof (run_cells_heads recurse player ply max_ply prev bs (s_game st)
                depth Hwf Hcons ltac:(lia) Hmax Hdepth Hrec all_cells []
                (loop_start st) (fun p H => H) Hinit Hinit') as Hrun'.
  destruct (run_list _ all_cells (loop_start st)) as [ls | |];
    [| exact I | exact I].
  cbn [app] in Hrun, Hrun'. destruct Hrun as [_ [Hcand Hst]].
  destruct (done ls) eqn:Hd; [destruct Hst as [Habs _]; lia |].
  specialize (Hrun' Hd). destruct Hst as [HM [Hnil Hsome]].
  fold net in Hcand, HM, Hnil, Hsome, Hrun'.
  assert (Hne : forall c, In c (best_moves ls) -> c <> []).
  { intros c Hc. destruct (Hcand c Hc) as [p [tl [-> _]]]. discriminate. }
  pose proof (omap_head_length _ Hne) as Hlen.
  unfold tie_break, finish. cbn [negb].
  destruct (length (best_moves ls) =? 0)%nat eqn:En;
    cbn [score chain final rand_calls].
  - apply Nat.eqb_eq in En.
    assert (Hb : best_moves ls = []) by (destruct (best_moves ls); [reflexivity | discriminate]).
    assert (Hnets : omap net all_cells = []).
    { destruct (omap net all_cells) as [| z zs]; [reflexivity |].
      assert (Hx : z :: zs <> []) by discriminate.
      destruct (Hsome Hx) as [_ Habs]. contradiction. }
    rewrite filter_none.
    + split; [reflexivity | intros Habs; contradiction].
    + intros p Hp. unfold is_best.
      rewrite (omap_nil_none _ _ p Hnets Hp). reflexivity.
  - apply Nat.eqb_neq in En. rewrite <- Hrun'. rewrite Hlen.
    split; [intros E; rewrite E in Hlen; simpl in Hlen; lia |].
    intros _. split; [lia |]. cbn [Nat.pred].
    symmetry. apply omap_head_lookup; [exact Hne |].
    pose proof (Z.mod_pos_bound (u32 (rand (rand_calls (ls_state ls))))
                  (Z.of_nat (length (best_moves ls))) ltac:(lia)). lia.
Qed.

Lemma best_move_rec_ties rand fuel player ply max_ply prev bs st :
  wf_game (s_game st) = true -> counts_consistent (s_game st) = true ->
  0 <= ply <= 1 -> max_ply < 2 ^ 32 -> max_ply - ply <= Z.of_nat fuel ->
  match best_move_rec rand fuel true player ply max_ply prev bs st with
  | Done res =>
      tie_break rand
        (move_net (Z.to_nat (max_ply - ply)) player (s_game st)) res
  | AssertFail => True
  | OutOfFuel => True
  end.
Proof.
  intros Hwf Hcons Hply Hmax Hfuel.
  destruct fuel as [| fuel]; cbn [best_move_rec];
    apply best_move_body_ties; try assumption; try reflexivity; intros Hlt.
  - lia.
  - apply (recurse_reply_sound rand (S fuel) player ply max_ply);
      [lia | exact Hmax | exact Hfuel | exact Hlt].
Qed.

(** X16.  At ply 0 or 1 no cut-off happens, and the move that
    [best_move] returns is drawn from all the best moves: the cells, in
    the order of the loops (row by row), whose net score in the
    unpruned search equals the returned score.  With [n] such cells the
    first record of the chain is the cell number [rand() % n] of that
    list, for the last value that [rand()] gave; with none the chain
    is [NULL]. *)
Theorem best_move_tie_break rand player ply max_ply prev bs st :
  wf_game (s_game st) = true -> counts_consistent (s_game st) = true ->
  0 <= ply <= 1 -> max_ply < 2 ^ 32 ->
  match best_move rand true player ply max_ply prev bs st with
  | Done res =>
      tie_break rand
        (move_net (Z.to_nat (max_ply - ply)) player (s_game st)) res
  | AssertFail => True
  | OutOfFuel => True
  end.
Proof.
  intros Hwf Hcons Hply Hmax. unfold best_move.
  apply best_move_rec_ties; try assumption. lia.
Qed.

Lemma best_move_tie_break_witness :
  match best_move (fun n => Z.of_nat n + 2) true X_DATA 1 3 0 0 start_state with
  | Done res =>
      tie_break (fun n => Z.of_nat n + 2)
        (move_net (Z.to_nat (3 - 1)) X_DATA (s_game start_state)) res
  | AssertFail => True
  | OutOfFuel => True
  end.
Proof.
  apply (best_move_tie_break (fun n => Z.of_nat n + 2) X_DATA 1 3 0 0
           start_state);
    [vm_compute; reflexivity | vm_compute; reflexivity | lia | lia].
Defined.

(** ** The largest score of a move, and the assertion of [best_move] *)

Lemma weight_nonneg l : 0 <= weight l.
Proof. pose proof (weight_bounds l). lia. Qed.

Lemma ray_split row col dr dc (n m : nat) :
  (n <= m)%nat ->
  exists rest, ray row col dr dc m = ray row col dr dc n ++ rest.
Proof.
  intros Hnm. unfold ray.
  exists (map (pos row col dr dc) (seqZ (1 + Z.of_nat n) (Z.of_nat (m - n)))).
  rewrite <- map_app. f_equal.
  replace (Z.of_nat m) with (Z.of_nat n + Z.of_nat (m - n)) by lia.
  apply seqZ_app; lia.
Qed.

Lemma line_flips_weight b mk row col v :
  on_board row col = true -> In v vector ->
  weight (line_flips b mk row col v)
  <= weight (ray row col (fst v) (snd v) (Z.to_nat (room row col v))).
Proof.
  intros Hon Hv.
  pose proof (line_flips_room b mk row col v Hon Hv) as Hroom.
  destruct (line_flips_cases b mk row col v Hon Hv) as [[n [E _]] | [E _]].
  - rewrite E in *. rewrite length_ray in Hroom.
    destruct (ray_split row col (fst v) (snd v) n (Z.to_nat (room row col v))
                ltac:(lia)) as [rest ->].
    rewrite weight_app. pose proof (weight_nonneg rest). lia.
  - rewrite E. apply weight_nonneg.
Qed.

Lemma flips_weight b mk row col :
  on_board row col = true ->
  h_func row col + weight (flips b mk row col) <= max_gain row col.
Proof.
  intros Hon. unfold max_gain, flips.
  assert (H : forall vs, (forall v, In v vs -> In v vector) ->
            weight (flat_map (line_flips b mk row col) vs)
            <= fold_right
                 (fun v s =>
                    weight (ray row col (fst v) (snd v)
                              (Z.to_nat (room row col v))) + s) 0 vs).
  { induction vs as [| v vs IH]; intros Hvs; [simpl; lia |].
    cbn [flat_map fold_right]. rewrite weight_app.
    pose proof (line_flips_weight b mk row col v Hon
                  (Hvs v (or_introl eq_refl))).
    assert (forall w, In w vs -> In w vector)
      by (intros w Hw; apply Hvs; right; exact Hw).
    specialize (IH H0). lia. }
  specialize (H vector (fun v Hv => Hv)). lia.
Qed.

Lemma max_gain_le row col :
  on_board row col = true -> max_gain row col <= MAX_HEUR.
Proof.
  intros Hon. apply in_all_cells in Hon.
  assert (H : forallb (fun p => max_gain (fst p) (snd p) <=? MAX_HEUR)
                all_cells = true) by (vm_compute; reflexivity).
  rewrite forallb_forall in H. specialize (H _ Hon).
  apply Z.leb_le in H. exact H.
Qed.

Lemma move_result_heur row col player g :
  on_board row col = true ->
  0 <= heur (fst (move_result row col player g)) <= MAX_HEUR.
Proof.
  intros Hon.
  destruct (flips (board g) (marker (pdata g player)) row col) eqn:E.
  - rewrite move_result_idle by exact E. cbn [fst heur]. unfold MAX_HEUR. lia.
  - assert (Hne : flips (board g) (marker (pdata g player)) row col <> [])
      by (rewrite E; discriminate).
    destruct (move_result_flipping row col player g Hne) as [Heff _].
    rewrite Heff. cbn [heur].
    pose proof (flips_weight (board g) (marker (pdata g player)) row col Hon).
    pose proof (max_gain_le row col Hon).
    pose proof (h_func_bounds row col).
    pose proof (weight_nonneg
                  (flips (board g) (marker (pdata g player)) row col)).
    lia.
Qed.

(** X17.  The score that [compute_effect] returns for a cell of the
    board is at most 166, on any board, and a board exists on which a
    move scores 166 (a corner, with both edges and the diagonal
    flipped). *)
Theorem compute_effect_heur_bound row col player g eff g' :
  board_shape (board g) = true -> on_board row col = true ->
  compute_effect row col player g = Some (eff, g') ->
  0 <= heur eff <= MAX_HEUR /\
  exists eff0 g0',
    compute_effect 0 0 X_DATA corner_game = Some (eff0, g0') /\
    heur eff0 = MAX_HEUR.
Proof.
  intros Hs Hon H.
  rewrite compute_effect_move_result in H by assumption.
  split.
  - pose proof (move_result_heur row col player g Hon) as Hb.
    destruct (move_result row col player g) as [e1 g1].
    injection H as <- <-. exact Hb.
  - destruct (compute_effect 0 0 X_DATA corner_game) as [[eff0 g0'] |] eqn:E.
    + exists eff0, g0'. split; [reflexivity |].
      assert (Hh : option_map (fun r => heur (fst r))
                     (compute_effect 0 0 X_DATA corner_game)
                   = Some MAX_HEUR) by (vm_compute; reflexivity).
      rewrite E in Hh. cbn in Hh. injection Hh as Hh. exact Hh.
    + assert (Hh : compute_effect 0 0 X_DATA corner_game <> None)
        by (vm_compute; discriminate).
      contradiction.
Qed.

Lemma compute_effect_heur_bound_witness :
  0 <= heur (fst (move_result 2 4 X_DATA start_game)) <= MAX_HEUR /\
  exists eff0 g0',
    compute_effect 0 0 X_DATA corner_game = Some (eff0, g0') /\
    heur eff0 = MAX_HEUR.
Proof.
  apply (compute_effect_heur_bound 2 4 X_DATA start_game
           (fst (move_result 2 4 X_DATA start_game))
           (snd (move_result 2 4 X_DATA start_game)));
    vm_compute; reflexivity.
Defined.

Section NoAbort.

Variable recurse :
  player_ref -> Z -> Z -> Z -> Z -> search_state -> outcome search_result.
Variables (player : player_ref) (ply max_ply prev bs : Z).
Variables (g0 : game) (k : Z).

Hypothesis Hwf : wf_game g0 = true.
Hypothesis Hcons : counts_consistent g0 = true.
Hypothesis Hply : 0 <= ply.
Hypothesis Hmax : max_ply < 2 ^ 32.
Hypothesis Hk : k = Z.max 0 (max_ply - ply).
Hypothesis Hk6 : k <= 6.
Hypothesis Hrec :
  ply < max_ply ->
  reply_total recurse (k - 1) (opponent player) (ply + 1) max_ply.

Lemma reply_returns p ls :
  In p all_cells -> legal g0 player p = true ->
  exists t,
    reply recurse player ply max_ply
      (fst (move_result (fst p) (snd p) player g0))
      (snd (move_result (fst p) (snd p) player g0)) ls = Done t /\
    s_game (t_state t) = snd (move_result (fst p) (snd p) player g0) /\
    score_low k <= t_effect t <= score_high k.
Proof.
  intros Hp Hl. pose proof Hwf as Hwf'.
  apply wf_game_spec in Hwf' as [Hs _].
  pose proof (in_all_cells_pair p Hp) as Hon.
  pose proof (legal_heur g0 player (fst p) (snd p) Hwf Hon) as Hlow.
  replace (fst p, snd p) with p in Hlow by (destruct p; reflexivity).
  specialize (Hlow Hl).
  pose proof (move_result_heur (fst p) (snd p) player g0 Hon) as [_ Hhigh].
  replace p with (fst p, snd p) in Hl by (destruct p; reflexivity).
  apply legal_spec in Hl as [Hempty Hne]; try assumption.
  pose proof (move_result_wf (fst p) (snd p) player g0 Hwf Hon) as Hwf1.
  pose proof (move_result_consistent (fst p) (snd p) player g0 Hwf Hcons Hon
                Hempty) as Hcons1.
  set (eff := fst (move_result (fst p) (snd p) player g0)) in *.
  set (g1 := snd (move_result (fst p) (snd p) player g0)) in *.
  unfold reply, score_low, score_high, MAX_HEUR in *.
  destruct ((ply <? max_ply) && _) eqn:Ed.
  - apply andb_true_iff in Ed as [Ep _]. apply Z.ltb_lt in Ep.
    rewrite u32_small by lia.
    destruct (Hrec Ep g1 (heur eff) (max_effect ls) (local_heap (ls_state ls))
                (rand_calls (ls_state ls)) Hwf1 Hcons1)
      as [res [Er [Hg [Hlo Hhi]]]].
    unfold score_low, score_high, MAX_HEUR in Hlo, Hhi.
    rewrite Er.
    replace (INIT_MAX_EFFECT <? heur eff - score res) with true
      by (symmetry; apply Z.ltb_lt;
          change INIT_MAX_EFFECT with (-576); lia).
    eexists. split; [reflexivity |]. cbn [t_state t_effect].
    split; [exact Hg | lia].
  - eexists. split; [reflexivity |]. cbn [t_state t_effect s_game].
    split; [reflexivity | lia].
Qed.

Lemma try_cell_returns p ls :
  In p all_cells -> bound_inv g0 k ls ->
  exists ls',
    try_cell recurse player ply max_ply prev bs (fst p) (snd p) ls = Done ls' /\
    bound_inv g0 k ls'.
Proof.
  intros Hp [Hg Hb]. pose proof Hwf as Hwf'.
  apply wf_game_spec in Hwf' as [Hs _].
  pose proof (in_all_cells_pair p Hp) as Hon.
  rewrite try_cell_cases by (rewrite ?Hg; assumption).
  rewrite Hg.
  replace (fst p, snd p) with p by (destruct p; reflexivity).
  destruct (legal g0 player p) eqn:El.
  2:{ exists ls. split; [reflexivity | split; assumption]. }
  destruct (reply_returns p ls Hp El) as [t [Er [Hgt Ht]]].
  rewrite Er. eexists. split; [reflexivity |].
  replace p with (fst p, snd p) in El by (destruct p; reflexivity).
  apply legal_spec in El as [Hempty Hne]; try assumption.
  unfold bound_inv, select. cbn [ls_state s_game best_moves max_effect].
  split.
  - rewrite Hgt. apply undo_move_result; assumption.
  - destruct (Z.ltb_spec (max_effect ls) (t_effect t)) as [Hlt | Hge].
    + right. exact Ht.
    + destruct (Z.eqb_spec (t_effect t) (max_effect ls)) as [Heq | Hneq].
      * right. rewrite <- Heq. exact Ht.
      * exact Hb.
Qed.

Lemma best_move_body_returns rand st :
  s_game st = g0 ->
  exists res,
    best_move_body rand recurse player ply max_ply prev bs true st = Done res /\
    s_game (final res) = g0 /\
    score_low k <= score res <= score_high k.
Proof.
  intros Hst. unfold best_move_body. rewrite loops_run_list.
  fold (loop_start st).
  destruct (run_list_total (bound_inv g0 k)
              (fun p => try_cell recurse player ply max_ply prev bs
                          (fst p) (snd p))
              all_cells (loop_start st)) as [ls [E [Hg Hb]]].
  - intros p s Hp Hs. apply try_cell_returns; assumption.
  - split; [exact Hst | left; reflexivity].
  - rewrite E. eexists. split; [reflexivity |].
    unfold finish. cbn [negb].
    destruct (length (best_moves ls) =? 0)%nat eqn:En;
      cbn [score final s_game].
    + split; [exact Hg |]. unfold score_low, score_high, MAX_HEUR. lia.
    + split; [exact Hg |]. apply Nat.eqb_neq in En.
      destruct Hb as [Hb | Hb]; [rewrite Hb in En; simpl in En; lia | exact Hb].
Qed.

End NoAbort.

Lemma best_move_rec_returns rand : forall fuel player ply max_ply prev bs st,
  wf_game (s_game st) = true -> counts_consistent (s_game st) = true ->
  0 <= ply -> max_ply < 2 ^ 32 -> max_ply - ply <= Z.of_nat fuel ->
  max_ply - ply <= 6 ->
  exists res,
    best_move_rec rand fuel true player ply max_ply prev bs st = Done res /\
    s_game (final res) = s_game st /\
    score_low (Z.max 0 (max_ply - ply)) <= score res
      <= score_high (Z.max 0 (max_ply - ply)).
Proof.
  induction fuel as [| fuel IH];
    intros player ply max_ply prev bs st Hwf Hcons Hply Hmax Hfuel H6;
    cbn [best_move_rec];
    (apply (best_move_body_returns _ player ply max_ply prev bs (s_game st)
              (Z.max 0 (max_ply - ply)) Hwf Hcons Hply Hmax eq_refl);
     [lia | | reflexivity]);
    intros Hlt; [lia |].
  intros g1 pv bsib heap rc Hwf1 Hcons1.
  destruct (IH (opponent player) (ply + 1) max_ply pv bsib
              {| s_game := g1; local_heap := heap; rand_calls := rc |}
              Hwf1 Hcons1 ltac:(lia) Hmax ltac:(lia) ltac:(lia))
    as [res [Er [Hg Hb]]].
  exists res. split; [exact Er |]. split; [exact Hg |].
  replace (Z.max 0 (max_ply - ply) - 1)
    with (Z.max 0 (max_ply - (ply + 1))) by lia.
  exact Hb.
Qed.

(** X18.  With at most six levels below the node ([max_ply - ply <= 6];
    for the search of [main], which starts at ply 1, skill levels 1 to
    7) a call of [best_move] always returns: neither the assertion on
    [effect] nor the one of [compute_effect] fails, and the recursion
    ends.  The score it returns lies between [-82 * (k + 1)] and
    [166 + 82 * k], for [k] the number of levels below the node. *)
Theorem best_move_returns rand player ply max_ply prev bs st :
  wf_game (s_game st) = true -> counts_consistent (s_game st) = true ->
  0 <= ply -> max_ply < 2 ^ 32 -> max_ply - ply <= 6 ->
  exists res,
    best_move rand true player ply max_ply prev bs st = Done res /\
    s_game (final res) = s_game st /\
    - (82 * (Z.max 0 (max_ply - ply) + 1)) <= score res
      <= 166 + 82 * Z.max 0 (max_ply - ply).
Proof.
  intros Hwf Hcons Hply Hmax H6. unfold best_move.
  apply best_move_rec_returns; try assumption. lia.
Qed.

Lemma best_move_returns_witness :
  exists res,
    best_move (fun n => Z.of_nat n) true X_DATA 1 3 0 0 start_state = Done res /\
    s_game (final res) = s_game start_state /\
    - (82 * (Z.max 0 (3 - 1) + 1)) <= score res <= 166 + 82 * Z.max 0 (3 - 1).
Proof.
  apply (best_move_returns (fun n => Z.of_nat n) X_DATA 1 3 0 0 start_state);
    [vm_compute; reflexivity | vm_compute; reflexivity | lia | lia | lia].
Defined.

(** ** A game between two computer players *)

Lemma markers_bounds g :
  wf_game g = true -> counts_consistent g = true ->
  0 <= count (x_data g) /\ 0 <= count (o_data g) /\ markers g <= BOARD_AREA.
Proof.
  intros Hwf Hcons.
  pose proof (count_cells_total g Hwf) as Htot.
  pose proof (proj1 (counts_consistent_spec g) Hcons) as Hc.
  pose proof (Hc X_DATA) as Hx. pose proof (Hc O_DATA) as Ho.
  cbn [pdata] in Hx, Ho.
  pose proof (count_cells_range (board g) " "%char).
  pose proof (count_cells_range (board g) (marker (x_data g))).
  pose proof (count_cells_range (board g) (marker (o_data g))).
  unfold markers. change BOARD_AREA with 64. lia.
Qed.

Lemma keep_playing_false g :
  wf_game g = true -> counts_consistent g = true ->
  keep_playing g = false ->
  count (x_data g) = 0 \/ count (o_data g) = 0 \/ markers g = BOARD_AREA.
Proof.
  intros Hwf Hcons Hk.
  destruct (markers_bounds g Hwf Hcons) as [Hx [Ho Hm]].
  unfold keep_playing in Hk. unfold markers in *.
  change BOARD_AREA with 64 in *.
  rewrite u32_small in Hk by lia.
  destruct (Z.ltb_spec 0 (count (x_data g))); [| left; lia].
  destruct (Z.ltb_spec 0 (count (o_data g))); [| right; left; lia].
  destruct (Z.ltb_spec (count (x_data g) + count (o_data g)) 64);
    [discriminate | right; right; lia].
Qed.

Lemma computer_turn_no_abort rand max_ply player st :
  wf_game (s_game st) = true -> counts_consistent (s_game st) = true ->
  1 <= max_ply <= 7 ->
  computer_turn rand max_ply player st <> AssertFail.
Proof.
  intros Hwf Hcons Hmax. unfold computer_turn.
  destruct (viability_returns rand player st Hwf Hcons)
    as [v [Ev [Hgv _]]].
  rewrite Ev. destruct (0 <? score v); [| discriminate].
  assert (Hwfv : wf_game (s_game (final v)) = true)
    by (rewrite Hgv; exact Hwf).
  assert (Hconsv : counts_consistent (s_game (final v)) = true)
    by (rewrite Hgv; exact Hcons).
  unfold best_move.
  destruct (best_move_rec_returns rand (Z.to_nat (max_ply - 1)) player 1
              max_ply 0 0 (final v) Hwfv Hconsv ltac:(lia) ltac:(lia)
              ltac:(lia) ltac:(lia)) as [r [Er [Hgr _]]].
  pose proof (best_move_rec_sound rand (Z.to_nat (max_ply - 1)) player 1
                max_ply 0 0 (final v) Hwfv Hconsv ltac:(lia) ltac:(lia)
                ltac:(lia)) as Hsound.
  rewrite Er in *. destruct Hsound as [_ [_ [_ Hhead]]].
  destruct (chain r) as [| p tl]; [discriminate |].
  destruct (Hhead p tl eq_refl) as [Hp _].
  apply in_all_cells_pair in Hp.
  apply wf_game_spec in Hwfv as [Hs _].
  rewrite compute_effect_move_result by (rewrite ?Hgr; assumption).
  destruct (move_result _ _ _ _). discriminate.
Qed.

Lemma move_result_types row col player g q :
  type (pdata (snd (move_result row col player g)) q) = type (pdata g q).
Proof.
  destruct (flips (board g) (marker (pdata g player)) row col) eqn:E.
  - rewrite move_result_idle by exact E. reflexivity.
  - assert (Hne : flips (board g) (marker (pdata g player)) row col <> [])
      by (rewrite E; discriminate).
    destruct (move_result_flipping row col player g Hne)
      as [_ [_ [_ [Ht _]]]].
    apply Ht.
Qed.

Lemma move_result_markers row col player g :
  wf_game g = true -> counts_consistent g = true ->
  on_board row col = true -> legal g player (row, col) = true ->
  markers (snd (move_result row col player g)) = markers g + 1.
Proof.
  intros Hwf Hcons Hon Hl. pose proof Hwf as Hwf'.
  apply wf_game_spec in Hwf' as [Hs _].
  apply legal_spec in Hl as [Hempty Hne]; try assumption.
  destruct (move_result_counts row col player g Hwf Hcons Hon Hempty Hne)
    as [H1 [H2 _]].
  unfold markers. destruct player; cbn [pdata opponent] in H1, H2; lia.
Qed.

Lemma main_loop_ends_from rand max_ply : forall fuel player can_go st,
  wf_game (s_game st) = true -> counts_consistent (s_game st) = true ->
  type (x_data (s_game st)) = PT_COMP -> type (o_data (s_game st)) = PT_COMP ->
  1 <= max_ply <= 7 ->
  (can_go = false -> can_move (s_game st) (opponent player) = false) ->
  turns_left (s_game st) can_go < Z.of_nat fuel ->
  exists e, main_loop fuel rand max_ply player can_go st = Done e /\ ended e.
Proof.
  induction fuel as [| fuel IH];
    intros player can_go st Hwf Hcons Htx Hto Hmax Hprev Hfuel.
  { destruct (markers_bounds _ Hwf Hcons) as [_ [_ Hm]].
    unfold turns_left in Hfuel. destruct can_go; lia. }
  cbn [main_loop].
  replace (type (pdata (s_game st) player)) with PT_COMP
    by (destruct player; symmetry; assumption).
  pose proof (computer_turn_facts rand max_ply player st Hwf Hcons
                ltac:(lia)) as Hsound.
  pose proof (computer_turn_no_abort rand max_ply player st Hwf Hcons Hmax)
    as Hna.
  destruct (computer_turn rand max_ply player st) as [[st' | p e st' |] | |];
    try contradiction.
  - (* the player cannot move *)
    destruct Hsound as [Hcan Hg].
    destruct can_go; cbn [negb].
    + destruct (keep_playing (s_game st')) eqn:Ek.
      * apply IH; try assumption; try (rewrite Hg; assumption).
        -- intros _. rewrite Hg, opponent_involutive. exact Hcan.
        -- unfold turns_left in *. rewrite Hg. lia.
      * eexists. split; [reflexivity |]. cbn [ended].
        apply keep_playing_false; try (rewrite Hg; assumption). exact Ek.
    + eexists. split; [reflexivity |]. cbn [ended]. rewrite Hg.
      specialize (Hprev eq_refl).
      destruct player; cbn [opponent] in Hprev; split; assumption.
  - (* a move was made *)
    destruct Hsound as [Hp [Hl [Hg [_ [Hwf' Hcons']]]]].
    destruct (keep_playing (s_game st')) eqn:Ek.
    + apply IH; try assumption.
      * rewrite Hg. change (x_data ?g) with (pdata g X_DATA).
        rewrite move_result_types. exact Htx.
      * rewrite Hg. change (o_data ?g) with (pdata g O_DATA).
        rewrite move_result_types. exact Hto.
      * intros Habs. discriminate.
      * unfold turns_left in *. rewrite Hg.
        replace p with (fst p, snd p) in Hl by (destruct p; reflexivity).
        rewrite (move_result_markers (fst p) (snd p) player (s_game st) Hwf
                   Hcons (in_all_cells_pair p Hp) Hl).
        destruct can_go; lia.
    + eexists. split; [reflexivity |]. cbn [ended].
      apply keep_playing_false; assumption.
Qed.

(** X19.  A game between two computer players at skill levels 1 to 7
    always ends: from the top of any iteration of the loop of [main],
    the loop is left after at most [2 * (64 - markers) + 2]
    iterations, without a failed assertion and without a read through
    a [NULL] chain, either by the "Deadlock" [break], and then neither
    player has a legal move, or by its condition, and then a player
    has no marker left or the board is full.  From the start position
    that is at most 122 iterations. *)
Theorem main_loop_ends rand max_ply fuel player can_go st :
  wf_game (s_game st) = true -> counts_consistent (s_game st) = true ->
  type (x_data (s_game st)) = PT_COMP -> type (o_data (s_game st)) = PT_COMP ->
  1 <= max_ply <= 7 ->
  (can_go = false -> can_move (s_game st) (opponent player) = false) ->
  turns_left (s_game st) can_go < Z.of_nat fuel ->
  exists e, main_loop fuel rand max_ply player can_go st = Done e /\ ended e.
Proof. apply main_loop_ends_from. Qed.

Lemma main_loop_ends_witness :
  exists e,
    main_loop 122 (fun n => Z.of_nat n) 2 X_DATA true start_state = Done e /\
    ended e.
Proof.
  apply (main_loop_ends (fun n => Z.of_nat n) 2 122 X_DATA true start_state);
    [vm_compute; reflexivity | vm_compute; reflexivity | reflexivity
    | reflexivity | lia | intros H; discriminate H | vm_compute; reflexivity].
Defined.

(** ** The pool of move records *)

Lemma length_enqueue c h : length (enqueue c h) = (length c + length h)%nat.
Proof. destruct c; [reflexivity |]. unfold enqueue. apply length_app. Qed.

Lemma length_dequeue h : (length h <= S (length (dequeue h)))%nat.
Proof. destruct h; simpl; lia. Qed.

Lemma records_app l1 l2 : records (l1 ++ l2) = (records l1 + records l2)%nat.
Proof. unfold records. rewrite concat_app, length_app. reflexivity. Qed.

Lemma length_enqueue_all l : forall h,
  length (foldl (fun h c => enqueue c h) h l) = (length h + records l)%nat.
Proof.
  induction l as [| c l IH]; intros h; [unfold records; simpl; lia |].
  cbn [foldl]. rewrite IH, length_enqueue.
  change (c :: l) with ([c] ++ l). rewrite records_app.
  unfold records at 2. simpl. rewrite app_nil_r. lia.
Qed.

Lemma length_enqueue_others chosen : forall l s h,
  (length (foldl (fun h kc =>
                    if (fst kc =? chosen)%nat then h else enqueue (snd kc) h)
             h (zip (seq s (length l)) l))
   + (if (s <=? chosen)%nat then length (nth (chosen - s) l []) else 0)
   = length h + records l)%nat.
Proof.
  induction l as [| c l IH]; intros s h.
  - cbn. destruct (s <=? chosen)%nat; [destruct (chosen - s)%nat |];
      unfold records; simpl; lia.
  - cbn [length seq zip zip_with foldl fst snd].
    change (zip_with pair (seq (S s) (length l)) l)
      with (zip (seq (S s) (length l)) l).
    change (c :: l) with ([c] ++ l). rewrite records_app.
    assert (Hc : records [c] = length c)
      by (unfold records; simpl; rewrite app_nil_r; reflexivity).
    rewrite Hc. specialize (IH (S s)).
    destruct (Nat.eqb_spec s chosen) as [-> | Hne].
    + specialize (IH h). rewrite Nat.leb_refl, Nat.sub_diag. cbn [nth app].
      replace (S chosen <=? chosen)%nat with false in IH
        by (symmetry; apply Nat.leb_gt; lia).
      lia.
    + specialize (IH (enqueue c h)). rewrite length_enqueue in IH.
      destruct (Nat.leb_spec s chosen) as [Hle | Hgt].
      * replace (S s <=? chosen)%nat with true in IH
          by (symmetry; apply Nat.leb_le; lia).
        replace (chosen - s)%nat with (S (chosen - S s)) by lia.
        cbn [nth app]. lia.
      * replace (S s <=? chosen)%nat with false in IH
          by (symmetry; apply Nat.leb_gt; lia).
        lia.
Qed.

Section Pool.

Variable rand : nat -> Z.
Variable recurse :
  player_ref -> Z -> Z -> Z -> Z -> search_state -> outcome search_result.
Variables (player : player_ref) (ply max_ply prev bs : Z).

Hypothesis recurse_keeps : forall q ply' mp pv bsib st res,
  recurse q ply' mp pv bsib st = Done res -> pool_kept st res.

Lemma reply_pool eff g1 ls t :
  reply recurse player ply max_ply eff g1 ls = Done t ->
  (length (local_heap (ls_state ls))
   <= length (local_heap (t_state t)) + length (t_chain t))%nat.
Proof.
  unfold reply. destruct ((ply <? max_ply) && _).
  - destruct (recurse _ _ _ _ _ _) as [res | |] eqn:E; try discriminate.
    destruct (INIT_MAX_EFFECT <? _); [| discriminate].
    intros H. injection H as <-. cbn [t_state t_chain].
    apply recurse_keeps in E. exact E.
  - intros H. injection H as <-. cbn [t_state t_chain local_heap]. lia.
Qed.

Lemma select_pool i j eff t ls :
  (length (local_heap (t_state t)) + length (t_chain t)
   + records (best_moves ls)
   <= length (local_heap (ls_state (select player ply prev bs i j eff t ls)))
      + records (best_moves (select player ply prev bs i j eff t ls)))%nat.
Proof.
  unfold select. cbn [ls_state local_heap best_moves].
  assert (Hc : forall c : list coord, records [c] = length c)
    by (intros c; unfold records; simpl; rewrite app_nil_r; reflexivity).
  destruct (max_effect ls <? t_effect t).
  - rewrite Z.eqb_refl. cbn [app]. rewrite Hc. cbn [length].
    pose proof (length_dequeue
                  (foldl (fun h c => enqueue c h) (local_heap (t_state t))
                     (best_moves ls))) as Hd.
    rewrite length_enqueue_all in Hd. lia.
  - destruct (t_effect t =? max_effect ls).
    + rewrite records_app, Hc. cbn [length].
      pose proof (length_dequeue (local_heap (t_state t))). lia.
    + rewrite length_enqueue. lia.
Qed.

Lemma try_cell_pool n0 i j ls ls' :
  pool_inv n0 ls ->
  try_cell recurse player ply max_ply prev bs i j ls = Done ls' ->
  pool_inv n0 ls'.
Proof.
  unfold pool_inv, try_cell. intros Hinv.
  destruct (negb _); [intros H; injection H as <-; exact Hinv |].
  destruct (compute_effect i j player _) as [[eff g1] |]; [| discriminate].
  destruct (num_changed eff =? 0);
    [intros H; injection H as <-; exact Hinv |].
  destruct (reply _ _ _ _ _ _ _) as [t | |] eqn:Er; try discriminate.
  intros H. injection H as <-.
  pose proof (reply_pool _ _ _ _ Er).
  pose proof (select_pool i j eff t ls). lia.
Qed.

Lemma best_move_body_pool st res :
  best_move_body rand recurse player ply max_ply prev bs true st = Done res ->
  pool_kept st res.
Proof.
  unfold best_move_body. rewrite loops_run_list. fold (loop_start st).
  destruct (run_list _ all_cells (loop_start st)) as [ls | |] eqn:E;
    try discriminate.
  intros H. injection H as <-.
  assert (Hinv : pool_inv (length (local_heap st)) ls).
  { apply (run_list_invariant (pool_inv (length (local_heap st))) _ _ _ _)
      in E; [exact E | |].
    - intros p s s' _ Hs Hbody.
      apply (try_cell_pool _ (fst p) (snd p) s s' Hs Hbody).
    - unfold pool_inv, loop_start, records. simpl. lia. }
  unfold pool_inv in Hinv. unfold pool_kept, finish. cbn [negb].
  destruct (length (best_moves ls) =? 0)%nat eqn:En;
    cbn [final chain local_heap].
  - apply Nat.eqb_eq in En.
    destruct (best_moves ls); [| discriminate].
    unfold records in Hinv. simpl in *. lia.
  - set (chosen := Z.to_nat _).
    pose proof (length_enqueue_others chosen (best_moves ls) 0
                  (local_heap (ls_state ls))) as Hl.
    cbn [Nat.leb] in Hl. rewrite Nat.sub_0_r in Hl. lia.
Qed.

End Pool.

Lemma best_move_rec_pool rand : forall fuel player ply max_ply prev bs st res,
  best_move_rec rand fuel true player ply max_ply prev bs st = Done res ->
  pool_kept st res.
Proof.
  induction fuel as [| fuel IH]; intros player ply max_ply prev bs st res H;
    cbn [best_move_rec] in H;
    apply (best_move_body_pool rand _ player ply max_ply prev bs) in H;
    try exact H.
  - intros; discriminate.
  - intros q ply' mp pv bsib st' res' H'. apply IH in H'. exact H'.
Qed.

(** X20.  A call of [best_move] with a chain requested loses no move
    record: the records that were in the pool at entry are, at the
    return, in the pool or in the chain that was stored (the difference
    are the records that [dequeue] took from [malloc]). *)
Theorem best_move_keeps_records rand player ply max_ply prev bs st res :
  best_move rand true player ply max_ply prev bs st = Done res ->
  (length (local_heap st)
   <= length (local_heap (final res)) + length (chain res))%nat.
Proof.
  unfold best_move. intros H. apply best_move_rec_pool in H. exact H.
Qed.

Lemma best_move_keeps_records_witness :
  (length (local_heap pool_state)
   <= length (local_heap (final pool_search_result))
      + length (chain pool_search_result))%nat.
Proof.
  apply (best_move_keeps_records (fun n => Z.of_nat n) X_DATA 1 2 0 0
           pool_state pool_search_result).
  vm_compute; reflexivity.
Defined.

(** X21.  A turn of the computer in [main] gives all records back to
    the pool but one at most: the chain of the search is enqueued
    after the move, while the one-record chain of the viability check
    is overwritten by the search.  A turn without a legal move loses
    none. *)
Theorem computer_turn_keeps_records rand max_ply player st t :
  wf_game (s_game st) = true -> counts_consistent (s_game st) = true ->
  computer_turn rand max_ply player st = Done t ->
  match t with
  | Moved _ _ st' => (length (local_heap st) <= S (length (local_heap st')))%nat
  | CannotMove st' => (length (local_heap st) <= length (local_heap st'))%nat
  | NullChain => True
  end.
Proof.
  intros Hwf Hcons. unfold computer_turn.
  destruct (viability_returns rand player st Hwf Hcons)
    as [v [Ev [Hgv [Hpos _]]]].
  rewrite Ev.
  pose proof Ev as Hpool. unfold best_move in Hpool.
  apply best_move_rec_pool in Hpool. unfold pool_kept in Hpool.
  pose proof Ev as Hlen. unfold best_move in Hlen.
  apply best_move_rec_chain in Hlen as [Hplay Hlen];
    [| exact Hwf | exact Hcons | lia | lia].
  change (Z.to_nat (1 - 1)) with 0%nat in Hlen.
  destruct (0 <? score v) eqn:Es.
  - destruct (best_move rand true player 1 max_ply 0 0 (final v))
      as [r | |] eqn:Er; try discriminate.
    unfold best_move in Er. apply best_move_rec_pool in Er.
    unfold pool_kept in Er.
    destruct (chain r) as [| p tl] eqn:Ec;
      [intros H; injection H as <-; exact I |].
    destruct (compute_effect _ _ _ _) as [[eff g'] |]; [| discriminate].
    intros H. injection H as <-. cbn [local_heap enqueue].
    cbn [length] in *. rewrite length_app. lia.
  - intros H. injection H as <-.
    destruct (chain v) as [| p tl] eqn:Ec; [simpl in Hpool; lia |].
    exfalso.
    pose proof Ev as Hs. unfold best_move in Hs.
    pose proof (best_move_rec_sound rand (Z.to_nat (1 - 1)) player 1 1 0 0 st
                  Hwf Hcons ltac:(lia) ltac:(lia) ltac:(lia)) as Hsound.
    rewrite Hs in Hsound. destruct Hsound as [_ [_ [_ Hhead]]].
    destruct (Hhead p tl Ec) as [Hp Hnet].
    apply wf_game_spec in Hwf as [Hshape _].
    pose proof (move_net_some_legal _ player (s_game st) p (score v)
                  Hshape Hp Hnet) as Hl.
    assert (Hcan : can_move (s_game st) player = true)
      by (apply can_move_spec; exists p; split; assumption).
    congruence.
Qed.

Lemma computer_turn_keeps_records_witness :
  match pool_turn with
  | Moved _ _ st' =>
      (length (local_heap pool_state) <= S (length (local_heap st')))%nat
  | CannotMove st' =>
      (length (local_heap pool_state) <= length (local_heap st'))%nat
  | NullChain => True
  end.
Proof.
  apply (computer_turn_keeps_records (fun n => Z.of_nat n) 2 X_DATA
           pool_state pool_turn);
    vm_compute; reflexivity.
Defined.

(** ** The array [best_moves] *)

Lemma best_move_rec_loop_after rand fuel player ply max_ply prev bs st :
  best_move_rec rand fuel true player ply max_ply prev bs st
  = match loop_after rand fuel player ply max_ply prev bs st all_cells with
    | Done ls => Done (finish rand true ls)
    | AssertFail => AssertFail
    | OutOfFuel => OutOfFuel
    end.
Proof.
  destruct fuel; cbn [best_move_rec]; unfold best_move_body, loop_after;
    rewrite loops_run_list; reflexivity.
Qed.

Lemma select_length player ply prev bs i j eff t ls :
  (length (best_moves (select player ply prev bs i j eff t ls))
   <= S (length (best_moves ls)))%nat.
Proof.
  unfold select. cbn [best_moves].
  destruct (max_effect ls <? t_effect t).
  - rewrite Z.eqb_refl. simpl. lia.
  - destruct (t_effect t =? max_effect ls);
      [rewrite length_app; simpl; lia | lia].
Qed.

Section Fit.

Variable recurse :
  player_ref -> Z -> Z -> Z -> Z -> search_state -> outcome search_result.
Hypothesis recurse_restores : forall q ply' mp pv bsib st res,
  wf_game (s_game st) = true ->
  recurse q ply' mp pv bsib st = Done res -> s_game (final res) = s_game st.

Variables (player : player_ref) (ply max_ply prev bs : Z) (g0 : game).
Hypothesis Hwf : wf_game g0 = true.

Local Abbreviation empty :=
  (fun p : coord => Ascii.eqb (cell (board g0) (fst p) (snd p)) " "%char).

Lemma try_cell_fit p seen ls ls' :
  In p all_cells -> s_game (ls_state ls) = g0 ->
  (length (best_moves ls) <= length (List.filter empty seen))%nat ->
  try_cell recurse player ply max_ply prev bs (fst p) (snd p) ls = Done ls' ->
  s_game (ls_state ls') = g0 /\
  (length (best_moves ls') <= length (List.filter empty (seen ++ [p])))%nat.
Proof.
  intros Hp Hg Hlen Hbody. split.
  - rewrite <- Hg.
    apply (try_cell_restores recurse recurse_restores player ply max_ply
             prev bs (fst p) (snd p));
      [rewrite Hg; exact Hwf | apply in_all_cells_pair; exact Hp | exact Hbody].
  - rewrite List.filter_app, length_app. cbn [List.filter].
    unfold try_cell in Hbody. rewrite Hg in Hbody.
    destruct (Ascii.eqb (cell (board g0) (fst p) (snd p)) " "%char);
      cbn [negb] in Hbody.
    2:{ injection Hbody as <-. lia. }
    cbn [length].
    destruct (compute_effect _ _ _ _) as [[eff g1] |]; [| discriminate].
    destruct (num_changed eff =? 0).
    { injection Hbody as <-. cbn [best_moves]. lia. }
    destruct (reply _ _ _ _ _ _ _) as [t | |]; try discriminate.
    injection Hbody as <-.
    pose proof (select_length player ply prev bs (fst p) (snd p) eff t ls).
    lia.
Qed.

Lemma run_cells_fit : forall cells seen ls ls',
  (forall p, In p cells -> In p all_cells) ->
  s_game (ls_state ls) = g0 ->
  (length (best_moves ls) <= length (List.filter empty seen))%nat ->
  run_list
    (fun p => try_cell recurse player ply max_ply prev bs (fst p) (snd p))
    cells ls = Done ls' ->
  (length (best_moves ls') <= length (List.filter empty (seen ++ cells)))%nat.
Proof.
  induction cells as [| p cells IH]; intros seen ls ls' Hcells Hg Hlen Hrun.
  - cbn [run_list] in Hrun. injection Hrun as <-. rewrite app_nil_r.
    exact Hlen.
  - cbn [run_list] in Hrun. destruct (done ls).
    + injection Hrun as <-. rewrite List.filter_app, length_app. lia.
    + destruct (try_cell _ _ _ _ _ _ _ _ ls) as [ls1 | |] eqn:E;
        try discriminate.
      destruct (try_cell_fit p seen ls ls1 (Hcells p (or_introl eq_refl))
                  Hg Hlen E) as [Hg1 Hlen1].
      replace (seen ++ p :: cells) with ((seen ++ [p]) ++ cells)
        by (rewrite <- app_assoc; reflexivity).
      apply (IH (seen ++ [p]) ls1 ls'); try assumption.
      intros q Hq. apply Hcells. right. exact Hq.
Qed.

End Fit.

(** X22.  The array [best_moves] of [MAX_NUM_MOVES] (60) pointers
    never overflows: on a board with at least four markers, as in
    every position of a game, [num_best_moves] is at most the number
    of empty cells, hence at most 60, in every state of the loops of
    every call of [best_move]. *)
Theorem best_moves_fit rand fuel player ply max_ply prev bs st cells rest ls :
  wf_game (s_game st) = true -> counts_consistent (s_game st) = true ->
  4 <= markers (s_game st) ->
  all_cells = cells ++ rest ->
  loop_after rand fuel player ply max_ply prev bs st cells = Done ls ->
  Z.of_nat (length (best_moves ls)) <= BOARD_AREA - markers (s_game st)
  /\ Z.of_nat (length (best_moves ls)) <= MAX_NUM_MOVES.
Proof.
  intros Hwf Hcons H4 Hcells Hrun. unfold loop_after in Hrun.
  apply (run_cells_fit _) with (g0 := s_game st) (seen := []) in Hrun.
  - cbn [app] in Hrun.
    pose proof (count_cells_total (s_game st) Hwf) as Htot.
    pose proof (proj1 (counts_consistent_spec (s_game st)) Hcons) as Hc.
    pose proof (Hc X_DATA) as Hx. pose proof (Hc O_DATA) as Ho.
    cbn [pdata] in Hx, Ho. unfold count_cells in Htot at 1.
    rewrite Hcells, List.filter_app, length_app in Htot.
    unfold markers in *. change MAX_NUM_MOVES with 60.
    change BOARD_AREA with 64. lia.
  - destruct fuel; [intros; discriminate |].
    intros q ply' mp pv bsib st' res' Hwf' H'.
    refine (best_move_rec_restores rand fuel true _ _ _ _ _ _ _ _ H').
    exact Hwf'.
  - exact Hwf.
  - intros p Hp. rewrite Hcells. apply in_or_app. left. exact Hp.
  - reflexivity.
  - simpl. lia.
Qed.

Lemma best_moves_fit_witness :
  Z.of_nat (length (best_moves fit_loop_state))
    <= BOARD_AREA - markers (s_game start_state)
  /\ Z.of_nat (length (best_moves fit_loop_state)) <= MAX_NUM_MOVES.
Proof.
  apply (best_moves_fit (fun n => Z.of_nat n) 1 X_DATA 1 2 0 0 start_state
           (firstn 30 all_cells) (skipn 30 all_cells) fit_loop_state);
    vm_compute; first [reflexivity | discriminate].
Defined.

(** ** The cut-off *)

(** X23.  When the move on a cell sets [done] (the alpha-beta
    cut-off), the ply is above 1, the move's net score is above the
    best so far and [prev_move_val - effect < best_sibling]; the old
    candidates are dropped, no further cell is tried, and [best_move]
    returns that score with the chain that starts with that move,
    after one call of [rand()] and with the pool as the loops left
    it. *)
Theorem best_move_cut_off rand fuel player ply max_ply prev bs st
    cells p rest ls ls' :
  all_cells = cells ++ p :: rest ->
  loop_after rand fuel player ply max_ply prev bs st cells = Done ls ->
  done ls = false ->
  loop_after rand fuel player ply max_ply prev bs st (cells ++ [p])
  = Done ls' ->
  done ls' = true ->
  1 < ply /\ max_effect ls < max_effect ls' /\
  prev - max_effect ls' < bs /\
  exists tl,
    best_moves ls' = [p :: tl] /\
    best_move_rec rand fuel true player ply max_ply prev bs st
    = Done {| score := max_effect ls'; chain := p :: tl;
              final := {| s_game := s_game (ls_state ls');
                          local_heap := local_heap (ls_state ls');
                          rand_calls := S (rand_calls (ls_state ls')) |} |}.
Proof.
  intros Hcells Hrun Hd Hrun' Hd'.
  assert (Hall : loop_after rand fuel player ply max_ply prev bs st all_cells
                 = Done ls').
  { rewrite Hcells.
    replace (cells ++ p :: rest) with ((cells ++ [p]) ++ rest)
      by (rewrite <- app_assoc; reflexivity).
    unfold loop_after in *. rewrite run_list_app, Hrun'.
    apply run_list_done. exact Hd'. }
  rewrite best_move_rec_loop_after, Hall.
  unfold loop_after in Hrun, Hrun'.
  rewrite run_list_app, Hrun in Hrun'. cbn [run_list] in Hrun'.
  rewrite Hd in Hrun'.
  destruct (try_cell _ _ _ _ _ _ _ _ ls) as [ls1 | |] eqn:E;
    try discriminate.
  injection Hrun' as ->. unfold try_cell in E.
  destruct (negb _); [injection E as <-; congruence |].
  destruct (compute_effect _ _ _ _) as [[eff g1] |]; [| discriminate].
  destruct (num_changed eff =? 0);
    [injection E as <-; cbn [done] in Hd'; congruence |].
  destruct (reply _ _ _ _ _ _ _) as [t | |]; try discriminate.
  injection E as <-. unfold select in *. cbn [done] in Hd'.
  cbn [max_effect best_moves ls_state s_game local_heap rand_calls].
  destruct (Z.ltb_spec (max_effect ls) (t_effect t)) as [Hlt | Hge];
    cbn [andb] in Hd'; [| congruence].
  destruct (Z.ltb_spec 1 ply) as [Hply | Hply];
    cbn [andb] in Hd'; [| congruence].
  destruct (Z.ltb_spec (prev - t_effect t) bs) as [Hcut | Hcut];
    [| congruence].
  rewrite Z.eqb_refl. cbn [app].
  replace (fst p, snd p) with p by (destruct p; reflexivity).
  split; [exact Hply |]. split; [exact Hlt |]. split; [exact Hcut |].
  exists (t_chain t). split; [reflexivity |].
  unfold finish. cbn [negb best_moves length Nat.eqb max_effect ls_state].
  rewrite Z.mod_1_r. reflexivity.
Qed.

Lemma best_move_cut_off_witness :
  1 < 2 /\ max_effect cut_before < max_effect cut_after /\
  2 - max_effect cut_after < 5 /\
  exists tl,
    best_moves cut_after = [(2, 3) :: tl] /\
    best_move_rec (fun n => Z.of_nat n) 0 true O_DATA 2 2 2 5 cut_state
    = Done {| score := max_effect cut_after; chain := (2, 3) :: tl;
              final := {| s_game := s_game (ls_state cut_after);
                          local_heap := local_heap (ls_state cut_after);
                          rand_calls := S (rand_calls (ls_state cut_after)) |} |}.
Proof.
  apply (best_move_cut_off (fun n => Z.of_nat n) 0 O_DATA 2 2 2 5 cut_state
           (firstn 19 all_cells) (2, 3) (skipn 20 all_cells)
           cut_before cut_after);
    vm_compute; reflexivity.
Defined.

(** ** A turn of a human player *)

Lemma human_turn_sound rand max_ply player : forall inputs st,
  wf_game (s_game st) = true -> counts_consistent (s_game st) = true ->
  0 <= max_ply < 2 ^ 32 -> can_move (s_game st) player = true ->
  match human_turn inputs rand max_ply player st with
  | Done (Played row col st') =>
      on_board row col = true /\
      legal (s_game st) player (row, col) = true /\
      s_game st' = snd (move_result row col player (s_game st)) /\
      wf_game (s_game st') = true /\ counts_consistent (s_game st') = true
  | Done (Quitted st') => s_game st' = s_game st
  | Done (InputEnded st') => s_game st' = s_game st
  | Done NullHint => False
  | AssertFail => True
  | OutOfFuel => False
  end.
Proof.
  induction inputs as [| c rest IH]; intros st Hwf Hcons Hmax Hcan;
    [reflexivity |].
  pose proof Hwf as Hwf'. apply wf_game_spec in Hwf' as [Hs _].
  destruct c as [| | row col]; cbn [human_turn]; [reflexivity | |].
  - (* a hint *)
    pose proof (best_move_rec_sound rand (Z.to_nat (max_ply - 1)) player 1
                  max_ply 0 0 st Hwf Hcons ltac:(lia) ltac:(lia) ltac:(lia))
      as Hsound.
    unfold best_move.
    destruct (best_move_rec _ _ _ _ _ _ _ _ _) as [r | |];
      [| exact I | exact Hsound].
    destruct Hsound as [Hgr [_ [Hnil _]]].
    destruct (chain r) as [| p tl] eqn:Ec.
    + destruct (Hnil eq_refl) as [_ Hnone].
      apply can_move_false in Hnone. congruence.
    + specialize (IH {| s_game := s_game (final r);
                        local_heap := enqueue (p :: tl) (local_heap (final r));
                        rand_calls := rand_calls (final r) |}).
      cbn [s_game] in IH. rewrite Hgr in IH. rewrite Hgr.
      exact (IH Hwf Hcons Hmax Hcan).
  - (* coordinates *)
    pose proof (u32_range row) as Hr. pose proof (u32_range col) as Hc.
    rewrite (human_move_cases (u32 row) (u32 col) player (s_game st) Hwf)
      by lia.
    assert (Hsame : forall g, g = s_game st ->
              match human_turn rest rand max_ply player
                      {| s_game := g; local_heap := local_heap st;
                         rand_calls := rand_calls st |} with
              | Done (Played row0 col0 st') =>
                  on_board row0 col0 = true /\
                  legal (s_game st) player (row0, col0) = true /\
                  s_game st' = snd (move_result row0 col0 player (s_game st)) /\
                  wf_game (s_game st') = true /\
                  counts_consistent (s_game st') = true
              | Done (Quitted st') => s_game st' = s_game st
              | Done (InputEnded st') => s_game st' = s_game st
              | Done NullHint => False
              | AssertFail => True
              | OutOfFuel => False
              end).
    { intros g ->.
      exact (IH {| s_game := s_game st; local_heap := local_heap st;
                   rand_calls := rand_calls st |} Hwf Hcons Hmax Hcan). }
    destruct (on_board (u32 row) (u32 col)) eqn:Hon; cbn [negb];
      [| apply Hsame; reflexivity].
    destruct (Ascii.eqb_spec (cell (board (s_game st)) (u32 row) (u32 col))
                " "%char) as [He | He]; cbn [negb];
      [| apply Hsame; reflexivity].
    destruct (legal (s_game st) player (u32 row, u32 col)) eqn:El;
      [| apply Hsame; reflexivity].
    cbn [s_game]. split; [exact Hon |]. split; [exact El |].
    split; [reflexivity |]. split.
    + apply move_result_wf; assumption.
    + apply move_result_consistent; assumption.
Qed.

(** X24.  A turn of a human player in [main], entered after a positive
    viability check, changes the game only by a legal move: lines with
    coordinates off the board, on an occupied cell or of a move that
    flips nothing are rejected and leave the game as it was, as do Q
    and H; an accepted move is a legal move on the board, it has been
    played, and the game after it satisfies the invariants of the data
    model; and H never reads through a [NULL] chain. *)
Theorem human_turn_is_safe rand max_ply player inputs st :
  wf_game (s_game st) = true -> counts_consistent (s_game st) = true ->
  0 <= max_ply < 2 ^ 32 -> can_move (s_game st) player = true ->
  match human_turn inputs rand max_ply player st with
  | Done (Played row col st') =>
      on_board row col = true /\
      legal (s_game st) player (row, col) = true /\
      s_game st' = snd (move_result row col player (s_game st)) /\
      wf_game (s_game st') = true /\ counts_consistent (s_game st') = true
  | Done (Quitted st') => s_game st' = s_game st
  | Done (InputEnded st') => s_game st' = s_game st
  | Done NullHint => False
  | AssertFail => True
  | OutOfFuel => False
  end.
Proof. apply human_turn_sound. Qed.

Lemma human_turn_is_safe_witness :
  match human_turn [Coords (-1) 4; Coords 3 3; Hint; Coords 0 0; Coords 2 4]
          (fun n => Z.of_nat n) 2 X_DATA start_state with
  | Done (Played row col st') =>
      on_board row col = true /\
      legal (s_game start_state) X_DATA (row, col) = true /\
      s_game st' = snd (move_result row col X_DATA (s_game start_state)) /\
      wf_game (s_game st') = true /\ counts_consistent (s_game st') = true
  | Done (Quitted st') => s_game st' = s_game start_state
  | Done (InputEnded st') => s_game st' = s_game start_state
  | Done NullHint => False
  | AssertFail => True
  | OutOfFuel => False
  end.
Proof.
  apply (human_turn_is_safe (fun n => Z.of_nat n) 2 X_DATA
           [Coords (-1) 4; Coords 3 3; Hint; Coords 0 0; Coords 2 4]
           start_state);
    [vm_compute; reflexivity | vm_compute; reflexivity | lia
    | vm_compute; reflexivity].
Defined.

(** ** The move records in memory *)

Lemma is_list_frame (m m' : gmap Mem.addr Mem.coord_type) : forall l a,
  (forall x, x ∈ l -> m' !! x = m !! x) ->
  Mem.is_list m a l -> Mem.is_list m' a l.
Proof.
  induction l as [| x l IH]; intros a Hsame Hl; [exact Hl |].
  destruct Hl as [Ha [rec [Hx Hl]]]. split; [exact Ha |].
  exists rec. split.
  - rewrite Hsame by (apply list_elem_of_here). exact Hx.
  - apply IH; [| exact Hl]. intros y Hy. apply Hsame.
    apply list_elem_of_further. exact Hy.
Qed.

Lemma is_list_allocated (m : gmap Mem.addr Mem.coord_type) : forall l a x,
  Mem.is_list m a l -> x ∈ l -> is_Some (m !! x).
Proof.
  induction l as [| y l IH]; intros a x Hl Hx.
  - apply elem_of_nil in Hx. destruct Hx.
  - destruct Hl as [_ [rec [Hy Hl]]].
    apply elem_of_cons in Hx as [-> | Hx]; [exists rec; exact Hy |].
    apply (IH _ _ Hl Hx).
Qed.

Lemma is_list_head (m : gmap Mem.addr Mem.coord_type) l x :
  Mem.is_list m (Some x) l -> exists l', l = x :: l'.
Proof.
  destruct l as [| y l]; [discriminate |].
  intros [Ha _]. injection Ha as <-. exists l. reflexivity.
Qed.

Lemma is_chain_frame (m m' : gmap Mem.addr Mem.coord_type) a l :
  (forall x, x ∈ l -> m' !! x = m !! x) ->
  Mem.is_chain m a l -> Mem.is_chain m' a l.
Proof.
  intros Hsame [Hl [Hnd Ht]]. split; [| split; [exact Hnd |]].
  - apply (is_list_frame m m' l a Hsame Hl).
  - destruct a as [x |]; [| exact I].
    destruct Ht as [rec [Hx Hlast]]. exists rec. split; [| exact Hlast].
    destruct (is_list_head m l x Hl) as [l' ->].
    rewrite Hsame by (apply list_elem_of_here). exact Hx.
Qed.

Lemma coords_frame (m m' : gmap Mem.addr Mem.coord_type) l :
  (forall x, x ∈ l ->
     option_map (fun rec => (Mem.r rec, Mem.c rec)) (m' !! x)
     = option_map (fun rec => (Mem.r rec, Mem.c rec)) (m !! x)) ->
  Mem.coords m' l = Mem.coords m l.
Proof.
  induction l as [| x l IH]; intros Hsame; [reflexivity |].
  unfold Mem.coords in *. cbn [omap list_omap].
  rewrite Hsame by (apply list_elem_of_here).
  rewrite IH; [reflexivity |].
  intros y Hy. apply Hsame. apply list_elem_of_further. exact Hy.
Qed.

Lemma coords_app (m : gmap Mem.addr Mem.coord_type) l k :
  Mem.coords m (l ++ k) = Mem.coords m l ++ Mem.coords m k.
Proof. unfold Mem.coords. apply omap_app. Qed.

Lemma enqueue_app (a b : list coord) : enqueue a b = a ++ b.
Proof. destruct a; reflexivity. Qed.

Lemma is_list_splice (m : gmap Mem.addr Mem.coord_type) t trec h lh :
  m !! t = Some trec -> t ∉ lh -> Mem.is_list m h lh ->
  forall l a,
    Mem.is_list m a l -> NoDup l -> last l = Some t ->
    Mem.is_list
      (<[t := {| Mem.r := Mem.r trec; Mem.c := Mem.c trec; Mem.next := h;
                 Mem.tail := Mem.tail trec |}]> m)
      a (l ++ lh).
Proof.
  intros Ht Hnin Hh. induction l as [| x l IH]; intros a Hl Hnd Hlast;
    [discriminate |].
  destruct Hl as [Ha [rec [Hx Hl]]].
  apply NoDup_cons in Hnd as [Hxl Hnd].
  cbn [app]. split; [exact Ha |].
  destruct l as [| y l].
  - injection Hlast as <-. eexists. split; [apply lookup_insert_eq |].
    cbn [Mem.next app].
    apply (is_list_frame m _ lh h); [| exact Hh].
    intros z Hz. apply lookup_insert_ne. intros ->. contradiction.
  - assert (Hlast' : last (y :: l) = Some t) by exact Hlast.
    assert (Hne : t <> x).
    { intros ->. apply Hxl. apply last_Some_elem_of. exact Hlast'. }
    exists rec. split; [rewrite lookup_insert_ne by exact Hne; exact Hx |].
    apply IH; assumption.
Qed.

(** X25.  [enqueue] splices in constant time and the list model of the
    pool is right: for a chain whose first record points through
    [tail] to the [next] field of its last record, and a pool that
    shares no record with it, [enqueue] makes no invalid access, and
    afterwards [local_heap] heads the records of the chain followed by
    those of the old pool, with the coordinates they had; the records
    of the old pool are untouched. *)
Theorem enqueue_splices s p l lh :
  Mem.is_chain (Mem.mem s) p l ->
  Mem.is_list (Mem.mem s) (Mem.local_heap s) lh ->
  NoDup (l ++ lh) ->
  exists s',
    Mem.enqueue p s = Some s' /\
    Mem.is_list (Mem.mem s') (Mem.local_heap s') (l ++ lh) /\
    Mem.coords (Mem.mem s') (l ++ lh)
    = enqueue (Mem.coords (Mem.mem s) l) (Mem.coords (Mem.mem s) lh) /\
    forall x, x ∈ lh -> Mem.mem s' !! x = Mem.mem s !! x.
Proof.
  intros [Hl [Hnd Ht]] Hh Hdis. unfold Mem.enqueue.
  destruct p as [p |].
  - destruct Ht as [rec [Hp Hlast]]. rewrite Hp.
    pose proof (last_Some_elem_of _ _ Hlast) as Hin.
    destruct (is_list_allocated _ _ _ _ Hl Hin) as [trec Htrec].
    unfold Mem.set_next. rewrite Htrec.
    apply NoDup_app in Hdis as [_ [Hdis _]].
    eexists. split; [reflexivity |]. cbn [Mem.mem Mem.local_heap].
    split; [| split].
    + apply is_list_splice; try assumption. apply Hdis. exact Hin.
    + rewrite coords_app, enqueue_app.
      f_equal; apply coords_frame; intros x _;
        (destruct (decide (Mem.tail rec = x)) as [<- | Hne];
         [rewrite lookup_insert_eq, Htrec; reflexivity
         | rewrite lookup_insert_ne by exact Hne; reflexivity]).
    + intros x Hx. apply lookup_insert_ne. intros <-.
      apply (Hdis _ Hin). exact Hx.
  - destruct l as [| x l]; [| destruct Hl as [Habs _]; discriminate].
    exists s. split; [reflexivity |]. cbn [app].
    split; [exact Hh |]. split; [reflexivity |]. intros; reflexivity.
Qed.

Lemma enqueue_splices_witness :
  exists s',
    Mem.enqueue (Some 1%positive) example_store = Some s' /\
    Mem.is_list (Mem.mem s') (Mem.local_heap s')
      ([1%positive; 2%positive] ++ [3%positive]) /\
    Mem.coords (Mem.mem s') ([1%positive; 2%positive] ++ [3%positive])
    = enqueue (Mem.coords (Mem.mem example_store) [1%positive; 2%positive])
        (Mem.coords (Mem.mem example_store) [3%positive]) /\
    forall x, x ∈ [3%positive] ->
      Mem.mem s' !! x = Mem.mem example_store !! x.
Proof.
  apply (enqueue_splices example_store (Some 1%positive)
           [1%positive; 2%positive] [3%positive]).
  - split; [| split].
    + split; [reflexivity |]. eexists. split; [vm_compute; reflexivity |].
      split; [reflexivity |]. eexists. split; [vm_compute; reflexivity |].
      reflexivity.
    + apply NoDup_ListNoDup; repeat constructor; simpl; intuition discriminate.
    + eexists. split; [vm_compute; reflexivity | reflexivity].
  - split; [reflexivity |]. eexists. split; [vm_compute; reflexivity |].
    reflexivity.
  - apply NoDup_ListNoDup; repeat constructor; simpl; intuition discriminate.
Defined.

Lemma new_move_write i j chain_ptr l (mb : gmap Mem.addr Mem.coord_type)
    m rec0 heap' lh' :
  mb !! m = Some rec0 -> m ∉ l -> m ∉ lh' ->
  Mem.is_chain mb chain_ptr l -> Mem.is_list mb heap' lh' ->
  NoDup (l ++ lh') ->
  exists t,
    match chain_ptr with
    | Some cp =>
        option_map Mem.tail
          (<[m := {| Mem.r := i; Mem.c := j; Mem.next := chain_ptr;
                     Mem.tail := Mem.tail rec0 |}]> mb !! cp)
    | None => Some m
    end = Some t /\
    let mem' :=
      <[m := {| Mem.r := i; Mem.c := j; Mem.next := chain_ptr;
                Mem.tail := t |}]>
        (<[m := {| Mem.r := i; Mem.c := j; Mem.next := chain_ptr;
                   Mem.tail := Mem.tail rec0 |}]> mb) in
    Mem.is_chain mem' (Some m) (m :: l) /\
    Mem.is_list mem' heap' lh' /\
    Mem.coords mem' (m :: l) = (i, j) :: Mem.coords mb l /\
    Mem.coords mem' lh' = Mem.coords mb lh' /\
    NoDup ((m :: l) ++ lh').
Proof.
  intros Hm Hml Hmh [Hl [Hnd Ht]] Hh Hdis.
  assert (Hframe : forall t x, x <> m ->
            <[m := {| Mem.r := i; Mem.c := j; Mem.next := chain_ptr;
                      Mem.tail := t |}]>
              (<[m := {| Mem.r := i; Mem.c := j; Mem.next := chain_ptr;
                         Mem.tail := Mem.tail rec0 |}]> mb) !! x
            = mb !! x).
  { intros t x Hx. rewrite !lookup_insert_ne by (intros E; apply Hx; symmetry; exact E).
    reflexivity. }
  assert (Hrest : forall t,
    last (m :: l) = Some t ->
    let mem' :=
      <[m := {| Mem.r := i; Mem.c := j; Mem.next := chain_ptr;
                Mem.tail := t |}]>
        (<[m := {| Mem.r := i; Mem.c := j; Mem.next := chain_ptr;
                   Mem.tail := Mem.tail rec0 |}]> mb) in
    Mem.is_chain mem' (Some m) (m :: l) /\
    Mem.is_list mem' heap' lh' /\
    Mem.coords mem' (m :: l) = (i, j) :: Mem.coords mb l /\
    Mem.coords mem' lh' = Mem.coords mb lh' /\
    NoDup ((m :: l) ++ lh')).
  { intros t Hlast mem'.
    assert (Hfl : forall x, x ∈ l -> mem' !! x = mb !! x).
    { intros x Hx. apply Hframe. intros ->. contradiction. }
    assert (Hfh : forall x, x ∈ lh' -> mem' !! x = mb !! x).
    { intros x Hx. apply Hframe. intros ->. contradiction. }
    assert (Hlook : mem' !! m
                    = Some {| Mem.r := i; Mem.c := j; Mem.next := chain_ptr;
                              Mem.tail := t |})
      by apply lookup_insert_eq.
    split; [| split; [| split; [| split]]].
    - split; [| split].
      + split; [reflexivity |]. eexists. split; [exact Hlook |].
        cbn [Mem.next]. apply (is_list_frame mb mem' l chain_ptr Hfl Hl).
      + apply NoDup_cons_2; assumption.
      + eexists. split; [exact Hlook |]. exact Hlast.
    - apply (is_list_frame mb mem' lh' heap' Hfh Hh).
    - unfold Mem.coords at 1. cbn [omap list_omap]. rewrite Hlook.
      cbn [option_map Mem.r Mem.c]. f_equal.
      apply coords_frame. intros x Hx. rewrite Hfl by exact Hx. reflexivity.
    - apply coords_frame. intros x Hx. rewrite Hfh by exact Hx. reflexivity.
    - cbn [app]. apply NoDup_cons_2; [| exact Hdis].
      intros Hin. apply elem_of_app in Hin as [Hin | Hin]; contradiction. }
  destruct chain_ptr as [cp |].
  - destruct Ht as [rec [Hcp Hlast]].
    destruct (is_list_head mb l cp Hl) as [l' ->].
    assert (Hne : m <> cp).
    { intros ->. apply Hml. apply list_elem_of_here. }
    exists (Mem.tail rec). split.
    + rewrite lookup_insert_ne by exact Hne. rewrite Hcp. reflexivity.
    + apply Hrest. rewrite last_cons, Hlast. reflexivity.
  - destruct l as [| x l]; [| destruct Hl as [Habs _]; discriminate].
    exists m. split; [reflexivity |]. apply Hrest. reflexivity.
Qed.

(** X26.  The record that [best_move] puts in front of a chain keeps
    the chain well formed: taken from the pool, or from [malloc] when
    the pool is empty, it is not a record of the chain; after the four
    assignments it heads the chain, with the move [(i, j)] in front of
    the coordinates the chain had, and its [tail] points to the [next]
    field of the last record, as [enqueue] needs it; the pool is the
    old pool without its first record.  No invalid access is made. *)
Theorem new_move_builds_chain i j chain_ptr l lh s :
  Mem.is_chain (Mem.mem s) chain_ptr l ->
  Mem.is_list (Mem.mem s) (Mem.local_heap s) lh ->
  NoDup (l ++ lh) ->
  exists m s',
    Mem.new_move i j chain_ptr s = Some (m, s') /\
    Mem.is_chain (Mem.mem s') (Some m) (m :: l) /\
    Mem.is_list (Mem.mem s') (Mem.local_heap s') (tail lh) /\
    Mem.coords (Mem.mem s') (m :: l) = (i, j) :: Mem.coords (Mem.mem s) l /\
    Mem.coords (Mem.mem s') (tail lh) = dequeue (Mem.coords (Mem.mem s) lh) /\
    NoDup ((m :: l) ++ tail lh).
Proof.
  intros Hc Hh Hdis. unfold Mem.new_move, Mem.dequeue.
  destruct (Mem.local_heap s) as [a |] eqn:Eh.
  - (* a record of the pool *)
    destruct lh as [| a' lh']; [discriminate |].
    destruct Hh as [Ha [rec_a [Hrec Hh]]]. injection Ha as <-.
    rewrite Hrec. cbn [Mem.mem Mem.local_heap]. rewrite Hrec.
    apply NoDup_app in Hdis as [Hndl [Hdisj Hndh]].
    apply NoDup_cons in Hndh as [Hah Hndh].
    assert (Hal : a ∉ l).
    { intros Hin. apply (Hdisj a Hin). apply list_elem_of_here. }
    assert (Hdis' : NoDup (l ++ lh')).
    { apply NoDup_app. split; [exact Hndl |]. split; [| exact Hndh].
      intros x Hx Hx'. apply (Hdisj x Hx). apply list_elem_of_further.
      exact Hx'. }
    destruct (new_move_write i j chain_ptr l (Mem.mem s) a rec_a
                (Mem.next rec_a) lh' Hrec Hal Hah Hc Hh Hdis')
      as [t [Et [H1 [H2 [H3 [H4 H5]]]]]].
    rewrite Et. eexists _, _. split; [reflexivity |].
    cbn [Mem.mem Mem.local_heap tail].
    split; [exact H1 |]. split; [exact H2 |]. split; [exact H3 |].
    split; [| exact H5].
    rewrite H4. unfold Mem.coords at 2. cbn [omap list_omap].
    rewrite Hrec. reflexivity.
  - (* a record from malloc *)
    destruct lh as [| a' lh']; [| destruct Hh as [Habs _]; discriminate].
    set (a := fresh (dom (Mem.mem s))).
    cbn [Mem.mem Mem.local_heap]. rewrite lookup_insert_eq.
    cbv beta iota zeta. cbn [Mem.tail].
    assert (Hfresh : Mem.mem s !! a = None)
      by (apply not_elem_of_dom; apply is_fresh).
    assert (Hal : a ∉ l).
    { intros Hin. destruct Hc as [Hl _].
      destruct (is_list_allocated _ _ _ _ Hl Hin) as [x Hx]. congruence. }
    set (mb := <[a := {| Mem.r := 0; Mem.c := 0; Mem.next := None;
                         Mem.tail := a |}]> (Mem.mem s)).
    assert (Hfl : forall x, x ∈ l -> mb !! x = Mem.mem s !! x).
    { intros x Hx. apply lookup_insert_ne. intros <-. contradiction. }
    destruct (new_move_write i j chain_ptr l mb a _ None []
                (lookup_insert_eq _ _ _) Hal (not_elem_of_nil a)
                (is_chain_frame _ _ _ _ Hfl Hc) eq_refl Hdis)
      as [t [Et [H1 [H2 [H3 [H4 H5]]]]]].
    cbn [Mem.tail] in Et, H1, H2, H3, H4. rewrite Et. eexists _, _. split; [reflexivity |].
    cbn [Mem.mem Mem.local_heap tail].
    split; [exact H1 |]. split; [reflexivity |]. split.
    + rewrite H3. f_equal. apply coords_frame. intros x Hx.
      rewrite Hfl by exact Hx. reflexivity.
    + split; [reflexivity | exact H5].
Qed.

Lemma new_move_builds_chain_witness :
  exists m s',
    Mem.new_move 4 5 (Some 1%positive) example_store = Some (m, s') /\
    Mem.is_chain (Mem.mem s') (Some m) (m :: [1%positive; 2%positive]) /\
    Mem.is_list (Mem.mem s') (Mem.local_heap s') (tail [3%positive]) /\
    Mem.coords (Mem.mem s') (m :: [1%positive; 2%positive])
    = (4, 5) :: Mem.coords (Mem.mem example_store) [1%positive; 2%positive] /\
    Mem.coords (Mem.mem s') (tail [3%positive])
    = dequeue (Mem.coords (Mem.mem example_store) [3%positive]) /\
    NoDup ((m :: [1%positive; 2%positive]) ++ tail [3%positive]).
Proof.
  apply (new_move_builds_chain 4 5 (Some 1%positive)
           [1%positive; 2%positive] [3%positive] example_store).
  - split; [| split].
    + split; [reflexivity |]. eexists. split; [vm_compute; reflexivity |].
      split; [reflexivity |]. eexists. split; [vm_compute; reflexivity |].
      reflexivity.
    + apply NoDup_ListNoDup; repeat constructor; simpl; intuition discriminate.
    + eexists. split; [vm_compute; reflexivity | reflexivity].
  - split; [reflexivity |]. eexists. split; [vm_compute; reflexivity |].
    reflexivity.
  - apply NoDup_ListNoDup; repeat constructor; simpl; intuition discriminate.
Defined.

(** ** The search of the design document *)

Lemma recurse_of_restores rand fuel q ply' mp pv bsib st res :
  wf_game (s_game st) = true ->
  recurse_of rand fuel q ply' mp pv bsib st = Done res ->
  s_game (final res) = s_game st.
Proof.
  intros Hwf H. destruct fuel as [| fuel]; [discriminate |].
  cbn [recurse_of] in H.
  refine (best_move_rec_restores rand fuel true _ _ _ _ _ _ _ _ H).
  exact Hwf.
Qed.

Lemma loop_after_restores rand fuel player ply max_ply prev bs st cells ls :
  wf_game (s_game st) = true ->
  (forall p, In p cells -> In p all_cells) ->
  loop_after rand fuel player ply max_ply prev bs st cells = Done ls ->
  s_game (ls_state ls) = s_game st.
Proof.
  intros Hwf Hcells Hrun. unfold loop_after in Hrun.
  apply (run_list_invariant
           (fun s => s_game (ls_state s) = s_game st) _ _ _ _) in Hrun;
    [exact Hrun | | reflexivity].
  intros p s s' Hp Hs Hbody. rewrite <- Hs.
  apply (try_cell_restores (recurse_of rand fuel) (recurse_of_restores rand fuel)
           player ply max_ply prev bs (fst p) (snd p));
    [rewrite Hs; exact Hwf | apply in_all_cells_pair, Hcells; exact Hp
    | exact Hbody].
Qed.

Lemma loop_after_below_cut rand fuel player ply max_ply prev bs st cells ls :
  1 < ply ->
  loop_after rand fuel player ply max_ply prev bs st cells = Done ls ->
  done ls = false ->
  max_effect ls = INIT_MAX_EFFECT \/ bs <= prev - max_effect ls.
Proof.
  intros Hply Hrun. unfold loop_after in Hrun.
  refine (run_list_invariant
            (fun s => done s = false ->
                      max_effect s = INIT_MAX_EFFECT \/
                      bs <= prev - max_effect s) _ cells _ ls _ _ Hrun);
    [| intros _; left; reflexivity].
  intros p s s' _ HP Hbody. unfold try_cell in Hbody.
  destruct (negb _); [injection Hbody as <-; exact HP |].
  destruct (compute_effect _ _ _ _) as [[eff g1] |]; [| discriminate].
  destruct (num_changed eff =? 0); [injection Hbody as <-; exact HP |].
  destruct (reply _ _ _ _ _ _ _) as [t | |]; try discriminate.
  injection Hbody as <-. unfold select. cbn [done max_effect].
  replace (1 <? ply) with true by (symmetry; apply Z.ltb_lt; exact Hply).
  destruct (max_effect s <? t_effect t); cbn [andb]; [| exact HP].
  destruct (Z.ltb_spec (prev - t_effect t) bs); [discriminate |].
  intros _. right. lia.
Qed.

(** C2.  The score of the search that [main] starts (ply 1, or 0) is
    the value of the position in the unpruned minimax to the same
    depth, whatever [rand] gives and whatever [prev_move_val] and
    [best_sibling] are: the recursion of the model is never exhausted,
    a call that returns has that score, and with at most six levels
    below the root the call does return. *)
Theorem pruned_search_score_is_minimax rand player ply max_ply prev bs st :
  wf_game (s_game st) = true -> counts_consistent (s_game st) = true ->
  0 <= ply <= 1 -> max_ply < 2 ^ 32 ->
  match best_move rand true player ply max_ply prev bs st with
  | Done res =>
      score res = minimax (Z.to_nat (max_ply - ply)) player (s_game st)
  | AssertFail => True
  | OutOfFuel => False
  end /\
  (max_ply - ply <= 6 ->
   exists res,
     best_move rand true player ply max_ply prev bs st = Done res /\
     score res = minimax (Z.to_nat (max_ply - ply)) player (s_game st)).
Proof.
  intros Hwf Hcons Hply Hmax. unfold best_move.
  pose proof (best_move_rec_sound rand (Z.to_nat (max_ply - ply)) player ply
                max_ply prev bs st Hwf Hcons ltac:(lia) Hmax ltac:(lia)) as H.
  split.
  - destruct (best_move_rec _ _ _ _ _ _ _ _ _) as [res | |];
      [| exact I | exact H].
    destruct H as [_ [[Hv | [Habs _]] _]]; [exact Hv | lia].
  - intros H6.
    destruct (best_move_rec_returns rand (Z.to_nat (max_ply - ply)) player ply
                max_ply prev bs st Hwf Hcons ltac:(lia) Hmax ltac:(lia) H6)
      as [res [Er _]].
    rewrite Er in H. exists res. split; [exact Er |].
    destruct H as [_ [[Hv | [Habs _]] _]]; [exact Hv | lia].
Qed.

Lemma pruned_search_score_is_minimax_witness :
  match best_move (fun n => Z.of_nat n) true X_DATA 1 3 7 9 start_state with
  | Done res => score res = minimax (Z.to_nat (3 - 1)) X_DATA start_game
  | AssertFail => True
  | OutOfFuel => False
  end /\
  (3 - 1 <= 6 ->
   exists res,
     best_move (fun n => Z.of_nat n) true X_DATA 1 3 7 9 start_state
     = Done res /\
     score res = minimax (Z.to_nat (3 - 1)) X_DATA start_game).
Proof.
  apply (pruned_search_score_is_minimax (fun n => Z.of_nat n) X_DATA 1 3 7 9
           start_state);
    [vm_compute; reflexivity | vm_compute; reflexivity | lia | lia].
Defined.

(** C9.  [best_move] leaves the position as it found it, at any ply
    and with or without a chain requested: after every cell of its
    loops the game (the board, both counts, both records) is the game
    of entry, so each trial is undone before the next cell is
    considered; the call that returns gives back the board and both
    counts of entry; and the recursion of the model is never
    exhausted. *)
Theorem best_move_leaves_position rand want player ply max_ply prev bs st :
  wf_game (s_game st) = true ->
  (forall cells ls,
     (forall p, In p cells -> In p all_cells) ->
     loop_after rand (Z.to_nat (max_ply - ply)) player ply max_ply prev bs st
       cells = Done ls ->
     s_game (ls_state ls) = s_game st) /\
  (forall res,
     best_move rand want player ply max_ply prev bs st = Done res ->
     board (s_game (final res)) = board (s_game st) /\
     count (x_data (s_game (final res))) = count (x_data (s_game st)) /\
     count (o_data (s_game (final res))) = count (o_data (s_game st))) /\
  (0 <= ply -> max_ply < 2 ^ 32 ->
   best_move rand want player ply max_ply prev bs st <> OutOfFuel).
Proof.
  intros Hwf. split; [| split].
  - intros cells ls Hcells Hrun.
    apply (loop_after_restores rand (Z.to_nat (max_ply - ply)) player ply
             max_ply prev bs st cells ls);
      assumption.
  - intros res H. unfold best_move in H.
    apply best_move_rec_restores in H; [| exact Hwf].
    rewrite H. repeat split.
  - intros Hply Hmax. unfold best_move. apply best_move_rec_fuel; lia.
Qed.

Lemma best_move_leaves_position_witness :
  s_game (ls_state fit_loop_state) = s_game start_state /\
  best_move (fun n => Z.of_nat n) true X_DATA 1 2 0 0 start_state <> OutOfFuel.
Proof.
  destruct (best_move_leaves_position (fun n => Z.of_nat n) true X_DATA 1 2 0 0
              start_state) as [H1 [_ H3]];
    [vm_compute; reflexivity |].
  split.
  - apply (H1 (firstn 30 all_cells) fit_loop_state);
      [| vm_compute; reflexivity].
    intros p Hp. rewrite <- (firstn_skipn 30 all_cells).
    apply in_or_app. left. exact Hp.
  - apply H3; lia.
Defined.

Lemma no_flips_not_legal g player :
  board_shape (board g) = true ->
  (forall r c, on_board r c = true -> cell (board g) r c = " "%char ->
     flips (board g) (marker (pdata g player)) r c = []) ->
  forall p, In p all_cells -> legal g player p = false.
Proof.
  intros Hs Hnone p Hp. pose proof (in_all_cells_pair p Hp) as Hon.
  destruct (legal g player p) eqn:El; [| reflexivity].
  replace p with (fst p, snd p) in El by (destruct p; reflexivity).
  apply legal_spec in El as [He Hne]; try assumption.
  destruct (Hne (Hnone _ _ Hon He)).
Qed.

(** C7.  When no empty cell of the board has a flip for the player,
    [best_move] stores a [NULL] chain and returns 0 (which the parent
    subtracts from its own score), with the state untouched.  The
    [NULL] chain is the mark of that case only: a call that stores a
    [NULL] chain had no cell to play and returns 0, and a call that
    found a move, whatever its score, stores a chain whose first
    record is an empty cell with a flip. *)
Theorem no_move_sentinel rand player ply max_ply prev bs st :
  wf_game (s_game st) = true -> counts_consistent (s_game st) = true ->
  0 <= ply -> max_ply < 2 ^ 32 ->
  ((forall r c, on_board r c = true ->
      cell (board (s_game st)) r c = " "%char ->
      flips (board (s_game st)) (marker (pdata (s_game st) player)) r c = []) ->
   best_move rand true player ply max_ply prev bs st
   = Done {| score := 0; chain := []; final := st |}) /\
  (forall res,
     best_move rand true player ply max_ply prev bs st = Done res ->
     match chain res with
     | [] =>
         score res = 0 /\
         forall r c, on_board r c = true ->
           cell (board (s_game st)) r c = " "%char ->
           flips (board (s_game st)) (marker (pdata (s_game st) player)) r c
           = []
     | p :: _ =>
         on_board (fst p) (snd p) = true /\
         cell (board (s_game st)) (fst p) (snd p) = " "%char /\
         flips (board (s_game st)) (marker (pdata (s_game st) player))
           (fst p) (snd p) <> []
     end).
Proof.
  intros Hwf Hcons Hply Hmax. pose proof Hwf as Hwf'.
  apply wf_game_spec in Hwf' as [Hs _]. split.
  - intros Hnone.
    pose proof (no_flips_not_legal (s_game st) player Hs Hnone) as Hill.
    unfold best_move.
    assert (Hbody : forall recurse,
              best_move_body rand recurse player ply max_ply prev bs true st
              = Done {| score := 0; chain := []; final := st |}).
    { intros recurse. unfold best_move_body.
      rewrite loops_run_list. fold (loop_start st).
      rewrite loops_no_legal_move by assumption.
      unfold finish, loop_start. cbn. reflexivity. }
    destruct (Z.to_nat (max_ply - ply)); cbn [best_move_rec]; apply Hbody.
  - intros res H. unfold best_move in H.
    pose proof (best_move_rec_sound rand (Z.to_nat (max_ply - ply)) player ply
                  max_ply prev bs st Hwf Hcons Hply Hmax ltac:(lia)) as Hsound.
    rewrite H in Hsound. destruct Hsound as [_ [_ [Hnil Hhead]]].
    destruct (chain res) as [| p tl].
    + destruct (Hnil eq_refl) as [H0 Hill]. split; [exact H0 |].
      intros r c Hon He.
      destruct (flips (board (s_game st)) (marker (pdata (s_game st) player))
                  r c) as [| q fl] eqn:E; [reflexivity |].
      assert (Hl : legal (s_game st) player (r, c) = true).
      { apply legal_spec; try assumption. split; [exact He |].
        rewrite E. discriminate. }
      rewrite (Hill (r, c) (proj2 (in_all_cells r c) Hon)) in Hl.
      discriminate.
    + destruct (Hhead p tl eq_refl) as [Hp Hnet].
      pose proof (in_all_cells_pair p Hp) as Hon.
      pose proof (move_net_some_legal _ player (s_game st) p (score res)
                    Hs Hp Hnet) as Hl.
      replace p with (fst p, snd p) in Hl by (destruct p; reflexivity).
      apply legal_spec in Hl as [He Hne]; try assumption.
      split; [exact Hon |]. split; [exact He | exact Hne].
Qed.

Lemma no_move_sentinel_witness :
  best_move (fun n => Z.of_nat n) true X_DATA 2 4 3 1
    {| s_game := blank_game; local_heap := [(0, 0)]; rand_calls := 7 |}
  = Done {| score := 0; chain := [];
            final := {| s_game := blank_game; local_heap := [(0, 0)];
                        rand_calls := 7 |} |}.
Proof.
  destruct (no_move_sentinel (fun n => Z.of_nat n) X_DATA 2 4 3 1
              {| s_game := blank_game; local_heap := [(0, 0)];
                 rand_calls := 7 |}) as [H _];
    [vm_compute; reflexivity | vm_compute; reflexivity | lia | lia |].
  apply H. cbn [s_game]. intros r c Hon _.
  assert (Hall : forallb
                   (fun p =>
                      match flips (board blank_game)
                              (marker (pdata blank_game X_DATA))
                              (fst p) (snd p) with
                      | [] => true
                      | _ :: _ => false
                      end) all_cells = true) by (vm_compute; reflexivity).
  rewrite forallb_forall in Hall.
  specialize (Hall (r, c) (proj2 (in_all_cells r c) Hon)).
  cbn [fst snd] in Hall.
  destruct (flips (board blank_game) (marker (pdata blank_game X_DATA)) r c);
    [reflexivity | discriminate].
Defined.

Lemma cut_off_result rand fuel player ply max_ply prev bs st cells p rest
    ls' c :
  all_cells = cells ++ p :: rest ->
  loop_after rand fuel player ply max_ply prev bs st (cells ++ [p])
  = Done ls' ->
  done ls' = true -> best_moves ls' = [c] ->
  (forall more,
     loop_after rand fuel player ply max_ply prev bs st (cells ++ p :: more)
     = Done ls') /\
  best_move_rec rand fuel true player ply max_ply prev bs st
  = Done {| score := max_effect ls'; chain := c;
            final := {| s_game := s_game (ls_state ls');
                        local_heap := local_heap (ls_state ls');
                        rand_calls := S (rand_calls (ls_state ls')) |} |}.
Proof.
  intros Hcells Hrun' Hd' Hb.
  assert (Hmore : forall more,
            loop_after rand fuel player ply max_ply prev bs st
              (cells ++ p :: more) = Done ls').
  { intros more.
    replace (cells ++ p :: more) with ((cells ++ [p]) ++ more)
      by (rewrite <- app_assoc; reflexivity).
    unfold loop_after in *. rewrite run_list_app, Hrun'.
    apply run_list_done. exact Hd'. }
  split; [exact Hmore |].
  rewrite best_move_rec_loop_after, Hcells, Hmore.
  unfold finish. rewrite Hb.
  cbn [negb length Nat.eqb]. rewrite Z.mod_1_r. reflexivity.
Qed.

(** C3.  At a ply above 1, as soon as the trial of a cell gives a net
    score [s] with [prev_move_val - s < best_sibling], the search of
    the node stops: [done] is set and every cell that was still to be
    tried is skipped.  Such a score is above every score found before
    at the node, so the best candidates found are that move alone, and
    they are the result of the node: [best_move] returns [s] with the
    chain that starts with that move. *)
Theorem cut_off_skips_remaining_cells rand fuel player ply max_ply prev bs st
    cells p rest ls eff g1 t :
  wf_game (s_game st) = true -> 1 < ply ->
  all_cells = cells ++ p :: rest ->
  loop_after rand fuel player ply max_ply prev bs st cells = Done ls ->
  done ls = false ->
  cell (board (s_game (ls_state ls))) (fst p) (snd p) = " "%char ->
  compute_effect (fst p) (snd p) player (s_game (ls_state ls))
  = Some (eff, g1) ->
  num_changed eff <> 0 ->
  reply (recurse_of rand fuel) player ply max_ply eff g1 ls = Done t ->
  prev - t_effect t < bs ->
  exists ls',
    loop_after rand fuel player ply max_ply prev bs st (cells ++ [p])
    = Done ls' /\
    done ls' = true /\
    (forall more,
       loop_after rand fuel player ply max_ply prev bs st (cells ++ p :: more)
       = Done ls') /\
    max_effect ls < t_effect t /\
    max_effect ls' = t_effect t /\
    best_moves ls' = [p :: t_chain t] /\
    best_move_rec rand fuel true player ply max_ply prev bs st
    = Done {| score := t_effect t; chain := p :: t_chain t;
              final := {| s_game := s_game st;
                          local_heap := local_heap (ls_state ls');
                          rand_calls := S (rand_calls (ls_state ls')) |} |}.
Proof.
  intros Hwf Hply Hcells Hrun Hd Hempty Hce Hnum Hreply Hcut.
  assert (Hsub : forall q, In q (cells ++ [p]) -> In q all_cells).
  { intros q Hq. rewrite Hcells. apply in_app_or in Hq as [Hq | [<- | []]];
      apply in_or_app; [left; exact Hq | right; left; reflexivity]. }
  assert (Hg : s_game (ls_state ls) = s_game st).
  { apply (loop_after_restores rand fuel player ply max_ply prev bs st cells ls);
      [exact Hwf | | exact Hrun].
    intros q Hq. apply Hsub. apply in_or_app. left. exact Hq. }
  pose proof Hwf as Hwf'. apply wf_game_spec in Hwf' as [Hs _].
  assert (Hon : on_board (fst p) (snd p) = true).
  { apply in_all_cells_pair, Hsub, in_or_app. right. left. reflexivity. }
  (* the score is above the initial value ... *)
  assert (Hini : INIT_MAX_EFFECT < t_effect t).
  { pose proof Hreply as Hr. unfold reply in Hr.
    destruct ((ply <? max_ply) && _).
    - destruct (recurse_of rand fuel _ _ _ _ _ _) as [res | |];
        try discriminate.
      destruct (Z.ltb_spec INIT_MAX_EFFECT (heur eff - score res));
        [| discriminate].
      injection Hr as <-. exact H.
    - injection Hr as <-. cbn [t_effect].
      rewrite Hg in Hce.
      destruct (compute_effect_inv _ _ _ _ _ _ Hs Hon Hce) as [-> _].
      pose proof (move_result_heur (fst p) (snd p) player (s_game st) Hon).
      change INIT_MAX_EFFECT with (-576). lia. }
  (* ... and above the best so far *)
  assert (Hbetter : max_effect ls < t_effect t).
  { destruct (loop_after_below_cut rand fuel player ply max_ply prev bs st
                cells ls Hply Hrun Hd) as [E | E]; [rewrite E; exact Hini | lia]. }
  assert (Htry : try_cell (recurse_of rand fuel) player ply max_ply prev bs
                   (fst p) (snd p) ls
                 = Done (select player ply prev bs (fst p) (snd p) eff t ls)).
  { unfold try_cell. rewrite Hempty, Hce. cbn [Ascii.eqb negb].
    rewrite ?Ascii.eqb_refl. cbn [negb].
    replace (num_changed eff =? 0) with false
      by (symmetry; apply Z.eqb_neq; exact Hnum).
    rewrite Hreply. reflexivity. }
  set (ls' := select player ply prev bs (fst p) (snd p) eff t ls) in *.
  assert (Hrun' : loop_after rand fuel player ply max_ply prev bs st
                    (cells ++ [p]) = Done ls').
  { unfold loop_after in *. rewrite run_list_app, Hrun.
    cbn [run_list]. rewrite Hd.
    change (match fuel with
            | O => fun _ _ _ _ _ _ => OutOfFuel
            | S fuel' => best_move_rec rand fuel' true
            end) with (recurse_of rand fuel).
    rewrite Htry. reflexivity. }
  assert (Hd' : done ls' = true).
  { unfold ls', select. cbn [done].
    replace (max_effect ls <? t_effect t) with true
      by (symmetry; apply Z.ltb_lt; exact Hbetter).
    replace (1 <? ply) with true by (symmetry; apply Z.ltb_lt; exact Hply).
    replace (prev - t_effect t <? bs) with true
      by (symmetry; apply Z.ltb_lt; exact Hcut).
    reflexivity. }
  assert (Hmax' : max_effect ls' = t_effect t).
  { unfold ls', select. cbn [max_effect].
    replace (max_effect ls <? t_effect t) with true
      by (symmetry; apply Z.ltb_lt; exact Hbetter).
    reflexivity. }
  assert (Hb' : best_moves ls' = [p :: t_chain t]).
  { unfold ls', select. cbn [best_moves].
    replace (max_effect ls <? t_effect t) with true
      by (symmetry; apply Z.ltb_lt; exact Hbetter).
    rewrite Z.eqb_refl. cbn [app].
    replace (fst p, snd p) with p by (destruct p; reflexivity).
    reflexivity. }
  destruct (cut_off_result rand fuel player ply max_ply prev bs st cells p
              rest ls' (p :: t_chain t) Hcells Hrun' Hd' Hb')
    as [Hmore Hres].
  exists ls'. split; [exact Hrun' |]. split; [exact Hd' |].
  split; [exact Hmore |]. split; [exact Hbetter |]. split; [exact Hmax' |].
  split; [exact Hb' |].
  rewrite Hres, Hmax'.
  rewrite (loop_after_restores rand fuel player ply max_ply prev bs st
             (cells ++ [p]) ls' Hwf Hsub Hrun').
  reflexivity.
Qed.

Lemma cut_off_skips_remaining_cells_witness :
  exists ls',
    loop_after (fun n => Z.of_nat n) 0 O_DATA 2 2 2 5 cut_state
      (firstn 19 all_cells ++ [(2, 3)]) = Done ls' /\
    done ls' = true /\
    (forall more,
       loop_after (fun n => Z.of_nat n) 0 O_DATA 2 2 2 5 cut_state
         (firstn 19 all_cells ++ (2, 3) :: more) = Done ls') /\
    max_effect cut_before < t_effect cut_trial /\
    max_effect ls' = t_effect cut_trial /\
    best_moves ls' = [(2, 3) :: t_chain cut_trial] /\
    best_move_rec (fun n => Z.of_nat n) 0 true O_DATA 2 2 2 5 cut_state
    = Done {| score := t_effect cut_trial;
              chain := (2, 3) :: t_chain cut_trial;
              final := {| s_game := s_game cut_state;
                          local_heap := local_heap (ls_state ls');
                          rand_calls := S (rand_calls (ls_state ls')) |} |}.
Proof.
  apply (cut_off_skips_remaining_cells (fun n => Z.of_nat n) 0 O_DATA 2 2 2 5
           cut_state (firstn 19 all_cells) (2, 3) (skipn 20 all_cells)
           cut_before
           (fst (move_result 2 3 O_DATA (s_game cut_state)))
           (snd (move_result 2 3 O_DATA (s_game cut_state)))
           cut_trial);
    [vm_compute; reflexivity | lia | vm_compute; reflexivity
    | vm_compute; reflexivity | vm_compute; reflexivity
    | vm_compute; reflexivity | vm_compute; reflexivity
    | vm_compute; discriminate | vm_compute; reflexivity
    | vm_compute; reflexivity].
Defined.
